(** * deploy-staging: the staging deployer [dp-stag]

    A shallow embedding of [src/lib/deploy.js] and [src/lib/ssh.js]:
    the git remote resolver, the project-name validator, the shell-argument
    escaper, the remote [.env] mutator and the deployment sequencer, with the
    properties of the specification stated over them. *)

From Stdlib Require Import List Ascii String Bool Arith Lia.
Import ListNotations.

Set Implicit Arguments.

(* ===================================================================== *)
(** * Strings *)
(* ===================================================================== *)

(** A JavaScript string is modelled as the list of its code units. *)
Abbreviation str := (list ascii).

Definition lit (s : string) : str := list_ascii_of_string s.

Definition str_eqb (a b : str) : bool :=
  if list_eq_dec ascii_dec a b then true else false.

Definition chr_eqb (a b : ascii) : bool := Ascii.eqb a b.

(** The double quote, the single quote and the line feed. *)
Definition dquote : ascii := "034".
Definition squote : ascii := "039".
Definition newline : ascii := "010".

Definition between (lo hi c : ascii) : bool :=
  (nat_of_ascii lo <=? nat_of_ascii c) && (nat_of_ascii c <=? nat_of_ascii hi).

Definition is_lower (c : ascii) : bool := between "a" "z" c.
Definition is_upper (c : ascii) : bool := between "A" "Z" c.
Definition is_digit (c : ascii) : bool := between "0" "9" c.

(** [String.prototype.trim] strips white space and line terminators from
    both ends: among the code units up to 255 these are tab to carriage
    return, the space and the no-break space. *)
Definition is_space (c : ascii) : bool :=
  between "009" "013" c || chr_eqb c " " || chr_eqb c "160".

Fixpoint trimStart (s : str) : str :=
  match s with
  | c :: t => if is_space c then trimStart t else s
  | [] => []
  end.

Definition trim (s : str) : str := rev (trimStart (rev (trimStart s))).

(** [String.prototype.toLowerCase]: among the code units up to 255 the
    capital letters are [A] to [Z] and, in Latin-1, 192 to 222 without the
    multiplication sign 215. *)
Definition lower_char (c : ascii) : ascii :=
  if is_upper c || between "192" "214" c || between "216" "222" c
  then ascii_of_nat (nat_of_ascii c + 32) else c.

Definition toLowerCase (s : str) : str := map lower_char s.

Fixpoint starts_with (p s : str) : bool :=
  match p, s with
  | [], _ => true
  | a :: p', b :: s' => chr_eqb a b && starts_with p' s'
  | _ :: _, [] => false
  end.

(** [String.prototype.includes]: [p] occurs somewhere in [s]. *)
Fixpoint includes (s p : str) : bool :=
  starts_with p s ||
  match s with
  | [] => false
  | _ :: t => includes t p
  end.

(** [s.replace(/c/g, by)] for a pattern that is one literal character and a
    replacement without [$] patterns. *)
Fixpoint replace_all (c : ascii) (by_ : str) (s : str) : str :=
  match s with
  | [] => []
  | x :: t => (if chr_eqb x c then by_ else [x]) ++ replace_all c by_ t
  end.

(** A JavaScript value used as a condition: [undefined] and the empty
    string are falsy. *)
Definition truthy (v : option str) : bool :=
  match v with
  | Some (_ :: _) => true
  | _ => false
  end.

(* ===================================================================== *)
(** * Regular expressions *)
(* ===================================================================== *)

(** The fragment of JavaScript regular expressions the program uses:
    anchors, literal characters, character classes, greedy and lazy
    repetition of a class, an optional group and capture groups.  The
    matcher is a backtracking one: [run] lists every way the expression can
    match at the start of the input, in the order in which the engine tries
    them, so the head of the list is the match JavaScript reports. *)
Module Regex.

Inductive re : Type :=
| Bol                                  (* ^ *)
| Eol                                  (* $ *)
| Chr (c : ascii)                      (* a literal character *)
| Cls (p : ascii -> bool)              (* [...] *)
| Star (greedy : bool) (p : ascii -> bool)   (* [...]* and [...]*? *)
| Plus (greedy : bool) (p : ascii -> bool)   (* [...]+ and [...]+? *)
| Cat (r1 r2 : re)                     (* r1 r2 *)
| Opt (r : re)                         (* r? *)
| Grp (r : re).                        (* ( r ) *)

(** One way of matching: the text consumed, the text left, and the
    capture groups in the order of their opening parentheses. *)
Definition alt : Type := (str * str * list (option str))%type.

(** Every split of [s] into a prefix inside the class and the rest,
    shortest prefix first. *)
Fixpoint spans (p : ascii -> bool) (s : str) : list (str * str) :=
  ([], s) ::
  match s with
  | x :: t => if p x then map (fun ab => (x :: fst ab, snd ab)) (spans p t) else []
  | [] => []
  end.

Definition ordered (greedy : bool) (l : list (str * str)) : list (str * str) :=
  if greedy then rev l else l.

Fixpoint groups (r : re) : nat :=
  match r with
  | Cat r1 r2 => groups r1 + groups r2
  | Opt r1 => groups r1
  | Grp r1 => S (groups r1)
  | _ => 0
  end.

Definition is_nil (s : str) : bool :=
  match s with [] => true | _ => false end.

(** [run r bol s]: the matches of [r] at the start of [s]; [bol] says
    whether [s] starts at the beginning of the whole input. *)
Fixpoint run (r : re) (bol : bool) (s : str) : list alt :=
  match r with
  | Bol => if bol then [([], s, [])] else []
  | Eol => if is_nil s then [([], s, [])] else []
  | Chr c =>
      match s with
      | x :: t => if chr_eqb x c then [([x], t, [])] else []
      | [] => []
      end
  | Cls p =>
      match s with
      | x :: t => if p x then [([x], t, [])] else []
      | [] => []
      end
  | Star g p => map (fun ab => (fst ab, snd ab, [])) (ordered g (spans p s))
  | Plus g p => map (fun ab => (fst ab, snd ab, [])) (ordered g (tl (spans p s)))
  | Cat r1 r2 =>
      flat_map
        (fun a1 : alt =>
           let '(m1, s1, c1) := a1 in
           map (fun a2 : alt =>
                  let '(m2, s2, c2) := a2 in (m1 ++ m2, s2, c1 ++ c2))
               (run r2 (bol && is_nil m1) s1))
        (run r1 bol s)
  | Opt r1 => run r1 bol s ++ [([], s, repeat None (groups r1))]
  | Grp r1 =>
      map (fun a : alt => let '(m, s1, c) := a in (m, s1, Some m :: c))
          (run r1 bol s)
  end.

(** [RegExp.prototype.exec] without the [g] flag: the leftmost start
    position at which the expression matches, and there the first match
    in backtracking order.  The result is the array JavaScript returns:
    the whole match, then the groups. *)
Fixpoint search (r : re) (bol : bool) (s : str) : option (list (option str)) :=
  match run r bol s with
  | (m, _, c) :: _ => Some (Some m :: c)
  | [] =>
      match s with
      | [] => None
      | _ :: t => search r false t
      end
  end.

Definition exec (r : re) (s : str) : option (list (option str)) :=
  search r true s.

Definition test (r : re) (s : str) : bool :=
  match exec r s with Some _ => true | None => false end.

(** [match[i]]; an absent group reads as [undefined]. *)
Definition group (m : list (option str)) (i : nat) : option str :=
  nth i m None.

Fixpoint word (w : str) : re :=
  match w with
  | [] => Star true (fun _ => false)
  | [c] => Chr c
  | c :: t => Cat (Chr c) (word t)
  end.

End Regex.

Import Regex.

(* ===================================================================== *)
(** * The pure functions of [lib/deploy.js] *)
(* ===================================================================== *)

(** [[:/]] *)
Definition colon_or_slash (c : ascii) : bool := chr_eqb c ":" || chr_eqb c "/".

(** [[^/]] *)
Definition not_slash (c : ascii) : bool := negb (chr_eqb c "/").

(** [[a-zA-Z0-9._-]] *)
Definition name_char (c : ascii) : bool :=
  is_lower c || is_upper c || is_digit c ||
  chr_eqb c "." || chr_eqb c "_" || chr_eqb c "-".

(** [[a-zA-Z_]] *)
Definition key_head (c : ascii) : bool :=
  is_lower c || is_upper c || chr_eqb c "_".

(** [[a-zA-Z0-9_]] *)
Definition key_tail (c : ascii) : bool :=
  is_lower c || is_upper c || is_digit c || chr_eqb c "_".

(** [/[:/]([^/]+)\/([^/]+?)(\.git)?$/] *)
Definition remote_re : re :=
  Cat (Cls colon_or_slash)
 (Cat (Grp (Plus true not_slash))
 (Cat (Chr "/")
 (Cat (Grp (Plus false not_slash))
 (Cat (Opt (Grp (word (lit ".git"))))
      Eol)))).

(** The tail of the remote expression, [(\.git)?$]. *)
Definition suffix_re : re := Cat (Opt (Grp (word (lit ".git")))) Eol.

(** The part of the remote expression after the owner's slash,
    [([^/]+?)(\.git)?$]. *)
Definition repo_re : re := Cat (Grp (Plus false not_slash)) suffix_re.

(** [/^[a-zA-Z0-9._-]+$/] *)
Definition project_re : re := Cat Bol (Cat (Plus true name_char) Eol).

(** [/^[a-zA-Z_][a-zA-Z0-9_]*$/] *)
Definition key_re : re := Cat Bol (Cat (Cls key_head) (Cat (Star true key_tail) Eol)).

(** [getGitRepoInfo]; its argument is what
    [execSync("git config --get remote.origin.url")] gives: [None] when the
    command fails and [execSync] throws, the command's output otherwise. *)
Definition getGitRepoInfo (git_config : option str) : option str :=
  match git_config with
  | None => None
  | Some out =>
      let remoteUrl := trim out in
      match exec remote_re remoteUrl with
      | Some m =>
          match group m 1, group m 2 with
          | Some owner, Some repo => Some (owner ++ lit "/" ++ repo)
          | _, _ => None
          end
      | None => None
      end
  end.

Definition isValidProjectName (name : str) : bool := test project_re name.

Definition escapeShellArg (arg : str) : str :=
  lit "'" ++ replace_all "'" (lit "'\''") arg ++ lit "'".

(** The command strings of [updateRemoteEnv], as its template literals
    build them. *)

(** [`grep "^${safeKey}=" ${projectPath}/.env`] *)
Definition checkCmdOf (projectPath safeKey : str) : str :=
  lit "grep " ++ [dquote] ++ lit "^" ++ safeKey ++ lit "=" ++ [dquote] ++ lit " "
    ++ projectPath ++ lit "/.env".

(** The first attempt at the update command, which is built and not used. *)
Definition cmdOf (projectPath safeKey value : str) : str :=
  lit "grep -v " ++ [dquote] ++ lit "^" ++ safeKey ++ lit "=" ++ [dquote] ++ lit " "
    ++ projectPath ++ lit "/.env > "
    ++ projectPath ++ lit "/.env.tmp && echo " ++ [dquote] ++ safeKey ++ lit "="
    ++ replace_all dquote (lit "\" ++ [dquote]) value
    ++ [dquote] ++ lit " >> " ++ projectPath ++ lit "/.env.tmp && mv "
    ++ projectPath ++ lit "/.env.tmp " ++ projectPath ++ lit "/.env".

(** [`grep -v "^${safeKey}=" ${projectPath}/.env > ${projectPath}/.env.tmp
      && echo ${escapedLine} >> ${projectPath}/.env.tmp
      && mv ${projectPath}/.env.tmp ${projectPath}/.env`] *)
Definition safeUpdateCmdOf (projectPath safeKey escapedLine : str) : str :=
  lit "grep -v " ++ [dquote] ++ lit "^" ++ safeKey ++ lit "=" ++ [dquote] ++ lit " "
    ++ projectPath ++ lit "/.env > "
    ++ projectPath ++ lit "/.env.tmp && echo " ++ escapedLine
    ++ lit " >> " ++ projectPath ++ lit "/.env.tmp && mv "
    ++ projectPath ++ lit "/.env.tmp " ++ projectPath ++ lit "/.env".

(** [`echo ${escapedLine} >> ${projectPath}/.env`] *)
Definition appendCmdOf (projectPath escapedLine : str) : str :=
  lit "echo " ++ escapedLine ++ lit " >> " ++ projectPath ++ lit "/.env".

(** [`/var/www/${project}`] *)
Definition projectPathOf (project : str) : str := lit "/var/www/" ++ project.

(* ===================================================================== *)
(** * Effects: the remote session, the console and the user *)
(* ===================================================================== *)

(** What [ssh.execCommand] resolves to. *)
Record CommandResult : Type := mkResult {
  code : nat;
  stdout : str;
  stderr : str
}.

(** The [NodeSSH] object of [lib/ssh.js], as an interface over a world [W]
    that holds the staging host and the connection.  A call either resolves
    or rejects: [connect] answers [false] when the promise rejects,
    [execCommand] answers [None].  An exit status other than zero is a
    resolved call: the status is a field of the result. *)
Record NodeSSH (W : Type) : Type := mkSSH {
  connect : W -> str -> str -> str -> bool * W;
  execCommand : W -> str -> option str -> option CommandResult * W;
  dispose : W -> W
}.

(** The lines the program prints, on the console or through the spinner. *)
Inductive Msg : Type :=
| MConnectedToServer            (* Successfully connected to server! *)
| MFailedToConnect              (* Failed to connect to server: *)
| MStderr (text : str)          (* STDERR: ... *)
| MStdout (text : str)          (* STDOUT: ... *)
| MFailedToExecute (cmd : str)  (* Failed to execute command: ... *)
| MInvalidEnvKey (key : str)    (* Invalid env key: ... *)
| MUpdated (key : str)          (* Updated ... in .env *)
| MAppended (key : str)         (* Appended ... to .env *)
| MAutoDetected (project repo : str)
| MNotSpecified                 (* Error: Project not specified ... *)
| MPleaseProvide                (* Please provide --project ... *)
| MInvalidProject (project : str)
| MProjectNameRule              (* Project name must only contain ... *)
| MMissingCredentials           (* Error: SSH_HOST and SSH_KEY_PATH ... *)
| MConnecting                   (* spinner: Connecting to staging server... *)
| MConnected                    (* spinner: Connected to staging server *)
| MAddedSafeDirectory (path : str)
| MPulling (project : str)
| MPullComplete (project : str)
| MInteractiveMode              (* ? Interactive Mode Enabled *)
| MRunning (what : str)         (* spinner: Running ... *)
| MComplete (what : str)        (* spinner: ... Complete *)
| MHandling (framework : str)   (* spinner: Handling ... specific tasks... *)
| MPrismaFor (framework : str)  (* spinner: Running Prisma generate for ... *)
| MBuilding (framework : str)   (* spinner: Building ... project... *)
| MTasksComplete (framework : str)
| MRestarting                   (* spinner: Restarting application with PM2... *)
| MRestartComplete
| MSuccessful (project : str)   (* Deployment Successful for ...! *)
| MDeploymentFailed             (* spinner: Deployment failed *)
| MError                        (* console.error(error) *)
| MNoApiKey.                    (* No Google GenAI API key provided ... *)

(** What a run does, in order. *)
Inductive Event : Type :=
| EvConnect (host username privateKeyPath : str)   (* ssh.connect *)
| EvExec (cmd : str) (cwd : option str)            (* ssh.execCommand *)
| EvDispose                                        (* ssh.dispose *)
| EvPrompt (choices : list str)                    (* inquirer: list *)
| EvInput                                          (* inquirer: key, value *)
| EvSummary (project framework : str)              (* the AI request *)
| EvOut (m : Msg).

Section Effects.

Variable W : Type.
Variable ssh : NodeSSH W.

Record State : Type := mkState {
  world : W;
  trace : list Event
}.

(** How a computation ends: it returns, it throws, the process exits
    with a status ([process.exit]), or it waits for an answer that never
    comes. *)
Inductive Res (A : Type) : Type :=
| Ok (a : A) (s : State)
| Throw (s : State)
| Exit (status : nat) (s : State)
| Wait (s : State).

Arguments Ok {A} a s.
Arguments Throw {A} s.
Arguments Exit {A} status s.
Arguments Wait {A} s.

Definition M (A : Type) : Type := State -> Res A.

Definition ret {A} (a : A) : M A := fun s => Ok a s.

Definition bind {A B} (m : M A) (k : A -> M B) : M B :=
  fun s =>
    match m s with
    | Ok a s1 => k a s1
    | Throw s1 => Throw s1
    | Exit n s1 => Exit n s1
    | Wait s1 => Wait s1
    end.

Definition throw {A} : M A := fun s => Throw s.

Definition process_exit {A} (n : nat) : M A := fun s => Exit n s.

Definition wait {A} : M A := fun s => Wait s.

(** [try { m } catch (e) { h }] *)
Definition try_catch {A} (m h : M A) : M A :=
  fun s =>
    match m s with
    | Throw s1 => h s1
    | r => r
    end.

(** [try { m } finally { f }]: [f] runs when [m] returns and when it
    throws; [process.exit] and a pending prompt leave the block unrun. *)
Definition try_finally {A} (m : M A) (f : M unit) : M A :=
  fun s =>
    match m s with
    | Ok a s1 =>
        match f s1 with
        | Ok _ s2 => Ok a s2
        | Throw s2 => Throw s2
        | Exit n s2 => Exit n s2
        | Wait s2 => Wait s2
        end
    | Throw s1 =>
        match f s1 with
        | Ok _ s2 => Throw s2
        | Throw s2 => Throw s2
        | Exit n s2 => Exit n s2
        | Wait s2 => Wait s2
        end
    | r => r
    end.

Definition emit (e : Event) : M unit :=
  fun s => Ok tt (mkState (world s) (trace s ++ [e])).

Definition out (m : Msg) : M unit := emit (EvOut m).

Definition when (b : bool) (m : M unit) : M unit :=
  if b then m else ret tt.

End Effects.

Arguments Ok {W A} a s.
Arguments Throw {W A} s.
Arguments Exit {W A} status s.
Arguments Wait {W A} s.
Arguments ret {W A} a _.
Arguments throw {W A} _.
Arguments process_exit {W A} n _.
Arguments wait {W A} _.
Arguments emit {W} e _.
Arguments out {W} m _.

Declare Scope js_scope.
Delimit Scope js_scope with js.
Notation "x <- m ;; k" := (bind m (fun x => k))
  (at level 61, m at next level, right associativity) : js_scope.
Notation "m ;; k" := (bind m (fun _ => k))
  (at level 61, right associativity) : js_scope.

(* ===================================================================== *)
(** * [lib/ssh.js] and [lib/ai.js] *)
(* ===================================================================== *)

(** The command-line options ([index.js]): [--project], [--framework],
    [--ai], [--yes]. *)
Record Options : Type := mkOptions {
  project : option str;
  framework : option str;
  ai : bool;
  yes : bool
}.

(** What the process finds on the machine it runs on: [process.env], the
    output of the local git command ([None] when it fails) and
    [repo-map.json]. *)
Record Env : Type := mkEnv {
  SSH_HOST : option str;
  SSH_USERNAME : option str;
  SSH_KEY_PATH : option str;
  GEMINI_API_KEY : option str;
  git_config : option str;
  repoMap : str -> option str
}.

(** One round of the interactive menu: the entry the user picks, and what
    the user types when asked for a key and a value. *)
Record Step : Type := mkStep {
  action : str;
  key : str;
  value : str
}.

Section Sequencer.

Variable W : Type.
Variable ssh : NodeSSH W.

Local Open Scope js_scope.

Definition ssh_connect (host username privateKeyPath : str) : M W unit :=
  fun s =>
    let (ok, w) := connect ssh (world s) host username privateKeyPath in
    let s1 := mkState w (trace s ++ [EvConnect host username privateKeyPath]) in
    if ok then Ok tt s1 else Throw s1.

Definition ssh_execCommand (cmd : str) (cwd : option str) : M W CommandResult :=
  fun s =>
    let (r, w) := execCommand ssh (world s) cmd cwd in
    let s1 := mkState w (trace s ++ [EvExec cmd cwd]) in
    match r with
    | Some result => Ok result s1
    | None => Throw s1
    end.

Definition ssh_dispose : M W unit :=
  fun s => Ok tt (mkState (dispose ssh (world s)) (trace s ++ [EvDispose])).

Definition connectToServer (host username privateKeyPath : str) : M W unit :=
  try_catch
    (ssh_connect host username privateKeyPath ;;
     out MConnectedToServer)
    (out MFailedToConnect ;;
     throw).

Definition runCommand (command : str) (cwd : option str) : M W CommandResult :=
  try_catch
    (result <- ssh_execCommand command cwd ;;
     when (truthy (Some (stderr result))) (out (MStderr (stderr result))) ;;
     out (MStdout (stdout result)) ;;
     ret result)
    (out (MFailedToExecute command) ;;
     throw).

Definition generateDeploymentSummary (apiKey : option str) (project framework : str)
  : M W unit :=
  if negb (truthy apiKey) then out MNoApiKey
  else emit (EvSummary project framework).

(* =================================================================== *)
(** * [lib/deploy.js]: the [.env] mutator and the sequencer *)
(* =================================================================== *)

Definition updateRemoteEnv (projectPath key value : str) : M W unit :=
  if negb (test key_re key) then
    out (MInvalidEnvKey key)
  else
    let safeKey := key in
    let safeValue := escapeShellArg value in
    let checkCmd := checkCmdOf projectPath safeKey in
    try_catch
      (ssh_execCommand checkCmd None ;;
       let cmd := cmdOf projectPath safeKey value in
       let safeLine := safeKey ++ lit "=" ++ value in
       let escapedLine := escapeShellArg safeLine in
       let safeUpdateCmd := safeUpdateCmdOf projectPath safeKey escapedLine in
       runCommand safeUpdateCmd (Some projectPath) ;;
       out (MUpdated key))
      (let safeLine := safeKey ++ lit "=" ++ value in
       let escapedLine := escapeShellArg safeLine in
       let appendCmd := appendCmdOf projectPath escapedLine in
       runCommand appendCmd (Some projectPath) ;;
       out (MAppended key)).

(** The menu of the interactive mode. *)
Definition menu (framework : option str) : list str :=
  (match framework with
   | Some f =>
       if str_eqb f (lit "nestjs")
       then [lit "Run Prisma Generate"; lit "Run Prisma DB Push"; lit "Run Build"]
       else []
   | None => []
   end) ++ [lit "Update .env"; lit "Continue Deployment"].

(** The [while (continueLoop)] loop: one round per answer of the user;
    when the answers run out the process waits at the prompt. *)
Fixpoint interactiveLoop (projectPath : str) (choices : list str) (script : list Step)
  : M W unit :=
  match script with
  | [] => emit (EvPrompt choices) ;; wait
  | st :: rest =>
      emit (EvPrompt choices) ;;
      if str_eqb (action st) (lit "Run Prisma Generate") then
        out (MRunning (lit "Prisma Generate")) ;;
        runCommand (lit "npx prisma generate") (Some projectPath) ;;
        out (MComplete (lit "Prisma Generate")) ;;
        interactiveLoop projectPath choices rest
      else if str_eqb (action st) (lit "Run Prisma DB Push") then
        out (MRunning (lit "Prisma DB Push")) ;;
        runCommand (lit "npx prisma db push") (Some projectPath) ;;
        out (MComplete (lit "Prisma DB Push")) ;;
        interactiveLoop projectPath choices rest
      else if str_eqb (action st) (lit "Run Build") then
        out (MRunning (lit "Build")) ;;
        runCommand (lit "yarn build") (Some projectPath) ;;
        out (MComplete (lit "Build")) ;;
        interactiveLoop projectPath choices rest
      else if str_eqb (action st) (lit "Update .env") then
        emit EvInput ;;
        updateRemoteEnv projectPath (key st) (value st) ;;
        interactiveLoop projectPath choices rest
      else
        ret tt
  end.

(** The [if (framework) { ... }] block after the interactive mode. *)
Definition frameworkTasks (framework : option str) (projectPath : str) : M W unit :=
  match framework with
  | Some f =>
      when (truthy framework)
        (out (MHandling f) ;;
         when (str_eqb (toLowerCase f) (lit "nestjs")
               || str_eqb (toLowerCase f) (lit "expressjs"))
           (out (MPrismaFor f) ;;
            runCommand (lit "npx prisma generate") (Some projectPath) ;;
            ret tt) ;;
         when (str_eqb (toLowerCase f) (lit "nestjs"))
           (out (MBuilding f) ;;
            runCommand (lit "yarn build") (Some projectPath) ;;
            ret tt) ;;
         out (MTasksComplete f))
  | None => ret tt
  end.

(** The [try] block of [deploy], statement by statement: the
    connection and the first two commands. *)
Definition connectPhase (host username privateKeyPath : str) : M W unit :=
  connectToServer host username privateKeyPath ;;
  out MConnected ;;
  runCommand (lit "whoami") None ;;
  runCommand (lit "sudo -i") None ;;
  ret tt.

(** The two guarded fixes: [safe.directory] and the ownership. *)
Definition preparePhase (projectPath : str) : M W unit :=
  try_catch
    (safeDirs <- ssh_execCommand (lit "git config --global --get-all safe.directory") None ;;
     when (negb (includes (stdout safeDirs) projectPath))
       (runCommand (lit "git config --global --add safe.directory " ++ projectPath)
                   (Some projectPath) ;;
        out (MAddedSafeDirectory projectPath)))
    (ret tt) ;;
  try_catch
    (runCommand (lit "sudo chown -R $(whoami) " ++ projectPath) (Some projectPath) ;;
     ret tt)
    (ret tt).

Definition pullPhase (project projectPath : str) : M W unit :=
  out (MPulling project) ;;
  runCommand (lit "git pull origin staging") (Some projectPath) ;;
  out (MPullComplete project).

(** [if (!yes) { ... }] *)
Definition interactiveMode (options : Options) (script : list Step) (projectPath : str)
  : M W unit :=
  when (negb (yes options))
    (out MInteractiveMode ;;
     interactiveLoop projectPath (menu (framework options)) script).

Definition restartPhase (project projectPath : str) : M W unit :=
  out MRestarting ;;
  runCommand (lit "pm2 restart " ++ project ++ lit " || pm2 restart index")
             (Some projectPath) ;;
  out MRestartComplete ;;
  out (MSuccessful project).

(** [if (ai) { ... }] *)
Definition summaryPhase (env : Env) (options : Options) (project : str) : M W unit :=
  when (ai options)
    (generateDeploymentSummary (GEMINI_API_KEY env) project
       (if truthy (framework options)
        then match framework options with Some f => f | None => [] end
        else lit "Node.js")).

(** What runs before the framework block, and what runs after it. *)
Definition beforeTasks (options : Options) (script : list Step)
    (project host username privateKeyPath : str) : M W unit :=
  connectPhase host username privateKeyPath ;;
  preparePhase (projectPathOf project) ;;
  pullPhase project (projectPathOf project) ;;
  interactiveMode options script (projectPathOf project).

Definition afterTasks (env : Env) (options : Options) (project : str) : M W unit :=
  restartPhase project (projectPathOf project) ;;
  summaryPhase env options project.

(** The body of the [try] block of [deploy]. *)
Definition deployBody (env : Env) (options : Options) (script : list Step)
    (project host username privateKeyPath : str) : M W unit :=
  beforeTasks options script project host username privateKeyPath ;;
  frameworkTasks (framework options) (projectPathOf project) ;;
  afterTasks env options project.

(** [if (!project) { ... }]: the project given, or the one the
    repository map has for the git remote. *)
Definition resolveProject (env : Env) (options : Options) : M W str :=
  if negb (truthy (project options)) then
    match getGitRepoInfo (git_config env) with
    | Some repo =>
        if truthy (Some repo) && truthy (repoMap env repo) then
          match repoMap env repo with
          | Some p => out (MAutoDetected p repo) ;; ret p
          | None => ret []
          end
        else
          out MNotSpecified ;; out MPleaseProvide ;; process_exit 1
    | None =>
        out MNotSpecified ;; out MPleaseProvide ;; process_exit 1
    end
  else
    ret (match project options with Some p => p | None => [] end).

Definition or_default (v : option str) (d : str) : str :=
  if truthy v then match v with Some x => x | None => d end else d.

(** The [try ... catch ... finally] of [deploy]. *)
Definition guarded (env : Env) (options : Options) (script : list Step)
    (project host username privateKeyPath : str) : M W unit :=
  try_finally
    (try_catch
       (deployBody env options script project host username privateKeyPath)
       (out MDeploymentFailed ;; out MError))
    ssh_dispose.

(** [deploy(options)]. *)
Definition deploy (env : Env) (options : Options) (script : list Step) : M W unit :=
  project <- resolveProject env options ;;
  when (negb (isValidProjectName project))
    (out (MInvalidProject project) ;; out MProjectNameRule ;; process_exit 1) ;;
  let host := SSH_HOST env in
  let username := or_default (SSH_USERNAME env) (lit "root") in
  let privateKeyPath := SSH_KEY_PATH env in
  let genAiKey := GEMINI_API_KEY env in
  when (negb (truthy host) || negb (truthy privateKeyPath))
    (out MMissingCredentials ;; process_exit 1) ;;
  out MConnecting ;;
  guarded env options script project
    (or_default host []) username (or_default privateKeyPath []).

End Sequencer.

(** The status the process ends with: [index.js] calls [deploy] and does
    nothing else, so a run that returns ends with status 0, [process.exit]
    gives its own, a rejection nobody handles gives 1, and a run that waits
    at a prompt has not ended. *)
Definition exit_status {W A} (r : Res W A) : option nat :=
  match r with
  | Ok _ _ => Some 0
  | Throw _ => Some 1
  | Exit n _ => Some n
  | Wait _ => None
  end.

(** Reading a trace: the disposals, the prompts shown and the commands
    submitted, in order. *)
Definition is_dispose (e : Event) : bool :=
  match e with EvDispose => true | _ => false end.

Definition is_prompt (e : Event) : bool :=
  match e with EvPrompt _ => true | _ => false end.

Definition is_connect (e : Event) : bool :=
  match e with EvConnect _ _ _ => true | _ => false end.

Definition is_exec (e : Event) : bool :=
  match e with EvExec _ _ => true | _ => false end.

Definition disposals (t : list Event) : nat := List.length (filter is_dispose t).

Definition prompts (t : list Event) : nat := List.length (filter is_prompt t).

Fixpoint commands (t : list Event) : list str :=
  match t with
  | [] => []
  | EvExec cmd _ :: k => cmd :: commands k
  | _ :: k => commands k
  end.

Definition threw {W A} (r : Res W A) : bool :=
  match r with
  | Throw _ => true
  | _ => false
  end.

Definition final {W A} (r : Res W A) : State W :=
  match r with
  | Ok _ s => s
  | Throw s => s
  | Exit _ s => s
  | Wait s => s
  end.

(* ===================================================================== *)
(** * Path resolution *)
(* ===================================================================== *)

(** How the host resolves an absolute path: empty and [.] components are
    skipped, [..] steps to the parent, and the parent of the root is the
    root. *)
Fixpoint split_on (c : ascii) (cur : str) (s : str) : list str :=
  match s with
  | [] => [cur]
  | x :: t => if chr_eqb x c then cur :: split_on c [] t else split_on c (cur ++ [x]) t
  end.

Fixpoint normalize (up : list str) (segs : list str) : list str :=
  match segs with
  | [] => rev up
  | seg :: k =>
      if str_eqb seg [] || str_eqb seg (lit ".") then normalize up k
      else if str_eqb seg (lit "..") then normalize (tl up) k
      else normalize (seg :: up) k
  end.

Definition resolve (path : str) : list str := normalize [] (split_on "/" [] path).

Fixpoint is_prefix (a b : list str) : bool :=
  match a, b with
  | [], _ => true
  | x :: a', y :: b' => str_eqb x y && is_prefix a' b'
  | _ :: _, [] => false
  end.

(** [path] names the directory [base] or something below it. *)
Definition inside (base path : str) : bool := is_prefix (resolve base) (resolve path).

(* ===================================================================== *)
(** * The staging host *)
(* ===================================================================== *)

(** The shell on the staging host, for the commands the [.env] mutator
    sends: words with single quotes, double quotes and backslashes, the
    operators [&&], [||], [>] and [>>], and the utilities [grep], [echo]
    and [mv] over a store of text files.  Whatever lies outside this
    fragment (expansions, globs, pipes, other utilities) is answered
    [None]: not modelled. *)
Module Sh.

Inductive token : Type :=
| TWord (w : str)
| TAnd            (* && *)
| TOr             (* || *)
| TOut            (* > *)
| TAppend.        (* >> *)

Inductive mode : Type := Bare | Single | Double.

(** Characters that stand for themselves outside quotes. *)
Definition plain (c : ascii) : bool :=
  is_lower c || is_upper c || is_digit c ||
  existsb (chr_eqb c) (lit "_-./:=@%+,^").

Definition flush (cur : option str) (k : list token) : list token :=
  match cur with
  | Some w => TWord w :: k
  | None => k
  end.

Definition open_word (cur : option str) : str :=
  match cur with
  | Some w => w
  | None => []
  end.

Definition push (cur : option str) (c : ascii) : option str :=
  Some (open_word cur ++ [c]).

(** Token recognition (POSIX shell, 2.2 Quoting and 2.3 Token
    Recognition).  [cur] is the word being read, if any. *)
Fixpoint lex (m : mode) (cur : option str) (s : str) : option (list token) :=
  match s with
  | [] =>
      match m with
      | Bare => Some (flush cur [])
      | _ => None
      end
  | c :: t =>
      match m with
      | Single =>
          if chr_eqb c squote then lex Bare cur t
          else lex Single (push cur c) t
      | Double =>
          if chr_eqb c dquote then lex Bare cur t
          else if chr_eqb c "\" then
            match t with
            | x :: t' =>
                if chr_eqb x "$" || chr_eqb x "`" || chr_eqb x dquote || chr_eqb x "\"
                then lex Double (push cur x) t'
                else if chr_eqb x newline then lex Double cur t'
                else lex Double (push (push cur c) x) t'
            | [] => None
            end
          else if chr_eqb c "$" || chr_eqb c "`" then None
          else lex Double (push cur c) t
      | Bare =>
          if chr_eqb c " " || chr_eqb c "009" then
            option_map (flush cur) (lex Bare None t)
          else if chr_eqb c squote then lex Single (Some (open_word cur)) t
          else if chr_eqb c dquote then lex Double (Some (open_word cur)) t
          else if chr_eqb c "\" then
            match t with
            | x :: t' => if chr_eqb x newline then None else lex Bare (push cur x) t'
            | [] => None
            end
          else if chr_eqb c "&" then
            match t with
            | x :: t' =>
                if chr_eqb x "&"
                then option_map (fun k => flush cur (TAnd :: k)) (lex Bare None t')
                else None
            | [] => None
            end
          else if chr_eqb c "|" then
            match t with
            | x :: t' =>
                if chr_eqb x "|"
                then option_map (fun k => flush cur (TOr :: k)) (lex Bare None t')
                else None
            | [] => None
            end
          else if chr_eqb c ">" then
            if match cur with Some (_ :: _ as w) => forallb is_digit w | _ => false end
            then None
            else
              match t with
              | x :: t' =>
                  if chr_eqb x ">"
                  then option_map (fun k => flush cur (TAppend :: k)) (lex Bare None t')
                  else if chr_eqb x "&" || chr_eqb x "|" then None
                  else option_map (fun k => flush cur (TOut :: k)) (lex Bare None t)
              | [] => Some (flush cur [TOut])
              end
          else if plain c then lex Bare (push cur c) t
          else None
      end
  end.

(** The words of a command line that holds nothing but words: the
    arguments the shell passes on. *)
Fixpoint only_words (ts : list token) : option (list str) :=
  match ts with
  | [] => Some []
  | TWord w :: k => option_map (cons w) (only_words k)
  | _ => None
  end.

Definition words (s : str) : option (list str) :=
  match lex Bare None s with
  | Some ts => only_words ts
  | None => None
  end.

(** A simple command: its words and at most one redirection of its
    standard output ([true]: [>>]). *)
Record simple : Type := mkSimple {
  argv : list str;
  redir : option (bool * str)
}.

Inductive conn : Type := AndIf | OrIf.

Definition no_args (c : simple) : bool :=
  match argv c with [] => true | _ => false end.

Fixpoint parse (ts : list token) (cur : simple) : option (simple * list (conn * simple)) :=
  match ts with
  | [] => if no_args cur then None else Some (cur, [])
  | TWord w :: k => parse k (mkSimple (argv cur ++ [w]) (redir cur))
  | TOut :: TWord f :: k =>
      match redir cur with
      | None => parse k (mkSimple (argv cur) (Some (false, f)))
      | Some _ => None
      end
  | TAppend :: TWord f :: k =>
      match redir cur with
      | None => parse k (mkSimple (argv cur) (Some (true, f)))
      | Some _ => None
      end
  | TAnd :: k =>
      if no_args cur then None
      else match parse k (mkSimple [] None) with
           | Some (c, l) => Some (cur, (AndIf, c) :: l)
           | None => None
           end
  | TOr :: k =>
      if no_args cur then None
      else match parse k (mkSimple [] None) with
           | Some (c, l) => Some (cur, (OrIf, c) :: l)
           | None => None
           end
  | _ => None
  end.

(** The files and directories of the host that the user of the session
    may read and write: path and content. An entry whose path ends in a
    slash, in [.] or in [..] is a directory, and its content is not used.
    The directories of the host are these, every directory that holds an
    entry, and the root. *)
Definition store : Type := list (str * str).

(** A component that names an entry of its directory. *)
Definition proper (seg : str) : bool :=
  negb (str_eqb seg [] || str_eqb seg (lit ".") || str_eqb seg (lit "..")).

(** The path is spelled as a directory. *)
Definition names_dir (p : str) : bool :=
  match rev (split_on "/" [] p) with
  | seg :: _ => negb (proper seg)
  | [] => true
  end.

(** An absolute path without empty, [.] and [..] components: the host
    follows it component by component. *)
Definition canonical (p : str) : bool :=
  match split_on "/" [] p with
  | [] :: seg :: k => forallb proper (seg :: k)
  | _ => false
  end.

Definition comps_eqb (a b : list str) : bool := is_prefix a b && is_prefix b a.

(** Two spellings of one path. *)
Definition same_path (a b : str) : bool := comps_eqb (resolve a) (resolve b).

(** [f] lies in the directory [d] or further down. *)
Definition below (d f : list str) : bool := is_prefix d f && (List.length d <? List.length f).

(** The entry [p] is the file with the components [cs]. *)
Definition file_entry (cs : list str) (p : str) : bool :=
  comps_eqb (resolve p) cs && negb (names_dir p).

(** The entry [p] shows that the directory with the components [d] exists. *)
Definition dir_entry (d : list str) (p : str) : bool :=
  below d (resolve p) || (names_dir p && comps_eqb (resolve p) d).

Definition is_dir (fs : store) (d : list str) : bool :=
  match d with
  | [] => true
  | _ => existsb (fun e => dir_entry d (fst e)) fs
  end.

(** The directory a path lies in. *)
Definition parent (path : str) : list str := removelast (resolve path).

Fixpoint lookup (fs : store) (cs : list str) : option str :=
  match fs with
  | [] => None
  | (p, c) :: k => if file_entry cs p then Some c else lookup k cs
  end.

(** The content of a file, whatever the spelling of its path. *)
Definition read (fs : store) (path : str) : option str :=
  if names_dir path then None else lookup fs (resolve path).

Fixpoint remove (fs : store) (path : str) : store :=
  match fs with
  | [] => []
  | (p, c) :: k =>
      if file_entry (resolve path) p then remove k path else (p, c) :: remove k path
  end.

Fixpoint write (fs : store) (path content : str) : store :=
  match fs with
  | [] => [(path, content)]
  | (p, c) :: k =>
      if file_entry (resolve path) p then (p, content) :: k
      else (p, c) :: write k path content
  end.

(** A place for a file: a canonical path in a directory that exists, and
    no directory itself. *)
Definition place (fs : store) (path : str) : bool :=
  canonical path && is_dir fs (parent path) && negb (is_dir fs (resolve path)).

(** Text in every locale: no NUL and no byte above 127. *)
Definition text_char (c : ascii) : bool :=
  (1 <=? nat_of_ascii c) && (nat_of_ascii c <=? 127).

Definition is_text (s : str) : bool := forallb text_char s.

(** The lines of a text file; a last line without its line feed counts. *)
Fixpoint lines_from (cur : str) (s : str) : list str :=
  match s with
  | [] => match cur with [] => [] | _ => [cur] end
  | c :: t =>
      if chr_eqb c newline then cur :: lines_from [] t
      else lines_from (cur ++ [c]) t
  end.

Definition lines (s : str) : list str := lines_from [] s.

Definition unlines (ls : list str) : str :=
  flat_map (fun l => l ++ [newline]) ls.

(** A basic regular expression without special characters. *)
Definition bre_plain (c : ascii) : bool :=
  negb (existsb (chr_eqb c) (lit ".*[]\$^")).

(** [grep]'s pattern, where it is [^text] or [text]: the test a line
    must pass. *)
Definition pattern (p : str) : option (str -> bool) :=
  match p with
  | "^"%char :: w =>
      if forallb bre_plain w then Some (starts_with w) else None
  | w =>
      if forallb bre_plain w then Some (fun l => includes l w) else None
  end.

(** [grep PATTERN FILE] and [grep -v PATTERN FILE] over a text file:
    status 0 when a line is selected, 1 when none is, 2 when there is no
    such file. What [grep] does with a file that is not text, or with a
    directory, is left out. *)
Definition grep (invert : bool) (p file : str) (fs : store)
  : option (CommandResult * store) :=
  match pattern p with
  | Some sel =>
      if canonical file && negb (is_dir fs (resolve file)) then
        match read fs file with
        | Some content =>
            if is_text content then
              let chosen := filter (fun l => xorb invert (sel l)) (lines content) in
              Some (mkResult (match chosen with [] => 1 | _ => 0 end) (unlines chosen) [],
                    fs)
            else None
        | None =>
            Some (mkResult 2 [] (lit "grep: " ++ file ++ lit ": No such file or directory"),
                  fs)
        end
      else None
  | None => None
  end.

Fixpoint join (sep : str) (ws : list str) : str :=
  match ws with
  | [] => []
  | [w] => w
  | w :: k => w ++ sep ++ join sep k
  end.

Definition is_option (w : str) : bool :=
  match w with
  | "-"%char :: _ => true
  | _ => false
  end.

Definition has_backslash (w : str) : bool := existsb (chr_eqb "\") w.

(** The utility a simple command names, run over the store. [echo] is
    taken with the operands that every implementation writes as they are:
    no option and no backslash. [mv] renames a file to a place in a
    directory that exists. *)
Definition utility (args : list str) (fs : store) : option (CommandResult * store) :=
  match args with
  | name :: rest =>
      if str_eqb name (lit "grep") then
        match rest with
        | [p; file] => if is_option p then None else grep false p file fs
        | [v; p; file] =>
            if str_eqb v (lit "-v") && negb (is_option p) then grep true p file fs
            else None
        | _ => None
        end
      else if str_eqb name (lit "echo") then
        if existsb is_option rest || existsb has_backslash rest then None
        else Some (mkResult 0 (join (lit " ") rest ++ [newline]) [], fs)
      else if str_eqb name (lit "mv") then
        match rest with
        | [src; dst] =>
            if canonical src && negb (is_dir fs (resolve src))
               && place fs dst && negb (same_path src dst) then
              match read fs src with
              | Some content =>
                  Some (mkResult 0 [] [], write (remove fs src) dst content)
              | None =>
                  Some (mkResult 1 [] (lit "mv: cannot stat " ++ src), fs)
              end
            else None
        | _ => None
        end
      else None
  | [] => None
  end.

(** A simple command with its redirection: the target is opened (and
    emptied by [>]) before the utility runs. A target the shell cannot
    open, in a directory that does not exist or a directory itself, makes
    the command fail with a status the shell chooses: left out. *)
Definition run_simple (c : simple) (fs : store) : option (CommandResult * store) :=
  match redir c with
  | None => utility (argv c) fs
  | Some (append, file) =>
      if place fs file then
        let before :=
          match read fs file with
          | Some old => if append then old else []
          | None => []
          end in
        match utility (argv c) (write fs file before) with
        | Some (r, fs1) =>
            Some (mkResult (code r) [] (stderr r),
                  write fs1 file
                    (match read fs1 file with Some now => now | None => [] end
                     ++ stdout r))
        | None => None
        end
      else None
  end.

(** The rest of an AND-OR list, after a command that ended with [last]. *)
Fixpoint run_rest (l : list (conn * simple)) (last : CommandResult) (fs : store)
  : option (CommandResult * store) :=
  match l with
  | [] => Some (last, fs)
  | (op, c) :: k =>
      let go :=
        match op with
        | AndIf => Nat.eqb (code last) 0
        | OrIf => negb (Nat.eqb (code last) 0)
        end in
      if go then
        match run_simple c fs with
        | Some (r, fs1) =>
            run_rest k (mkResult (code r) (stdout last ++ stdout r)
                                 (stderr last ++ stderr r)) fs1
        | None => None
        end
      else run_rest k last fs
  end.

Definition run (cmd : str) (fs : store) : option (CommandResult * store) :=
  match lex Bare None cmd with
  | Some ts =>
      match parse ts (mkSimple [] None) with
      | Some (c, l) =>
          match run_simple c fs with
          | Some (r, fs1) => run_rest l r fs1
          | None => None
          end
      | None => None
      end
  | None => None
  end.

End Sh.

(** The staging host and the connection to it. *)
Record Host : Type := mkHost {
  reachable : bool;              (* [ssh.connect] will succeed *)
  connected : bool;
  lifetime : option nat;         (* commands left before the connection drops *)
  files : Sh.store;
  other : str -> CommandResult   (* the commands [Sh] does not model *)
}.

Definition host_connect (h : Host) (host username privateKeyPath : str) : bool * Host :=
  if reachable h
  then (true, mkHost (reachable h) true (lifetime h) (files h) (other h))
  else (false, h).

Definition spend (l : option nat) : option nat :=
  match l with
  | Some n => Some (pred n)
  | None => None
  end.

(** node-ssh hands out the two outputs of a command trimmed. *)
Definition trimmed (r : CommandResult) : CommandResult :=
  mkResult (code r) (trim (stdout r)) (trim (stderr r)).

(** The command line goes out in UTF-8: code units 1 to 127 arrive as the
    bytes they are, and such a line is what the shell of the host is asked
    to run; the others are left to [other].  The paths of the mutator are
    absolute, so that the working directory plays no part. *)
Definition host_run (cmd : str) (fs : Sh.store) : option (CommandResult * Sh.store) :=
  if Sh.is_text cmd then Sh.run cmd fs else None.

Definition host_execCommand (h : Host) (cmd : str) (cwd : option str)
  : option CommandResult * Host :=
  if connected h && negb (match lifetime h with Some 0 => true | _ => false end) then
    match host_run cmd (files h) with
    | Some (r, fs) =>
        (Some (trimmed r),
         mkHost (reachable h) true (spend (lifetime h)) fs (other h))
    | None =>
        (Some (trimmed (other h cmd)),
         mkHost (reachable h) true (spend (lifetime h)) (files h) (other h))
    end
  else (None, mkHost (reachable h) false (lifetime h) (files h) (other h)).

Definition host_dispose (h : Host) : Host :=
  mkHost (reachable h) false (lifetime h) (files h) (other h).

(** [new NodeSSH()] against the staging host. *)
Definition node_ssh : NodeSSH Host :=
  mkSSH host_connect host_execCommand host_dispose.

(* ===================================================================== *)
(** * The specification's own wording, for comparison *)
(* ===================================================================== *)

(** The characters of a project name, listed. *)
Definition name_alphabet : str :=
  lit "abcdefghijklmnopqrstuvwxyzABCDEFGHIJKLMNOPQRSTUVWXYZ0123456789._-".

(** The escaper as the specification words it: every single quote becomes
    the four characters that close the quotation, give one escaped quote
    and open the quotation again; the whole is wrapped in single quotes. *)
Definition spec_escape (s : str) : str :=
  [squote] ++ flat_map (fun c => if chr_eqb c squote then lit "'\''" else [c]) s
           ++ [squote].

(** The trailing owner/repo pattern of a remote URL: a colon or slash, an
    owner without slashes, a slash, a repository name without slashes and
    an optional [.git], up to the end. *)
Definition trailing_owner_repo (url pre owner repo git : str) (sep : ascii) : Prop :=
  url = pre ++ sep :: owner ++ lit "/" ++ repo ++ git /\
  colon_or_slash sep = true /\
  owner <> [] /\ forallb not_slash owner = true /\
  repo <> [] /\ forallb not_slash repo = true /\
  (git = [] \/ git = lit ".git").

(** The white space and the line terminators of JavaScript among the code
    units up to 255: tab, line feed, vertical tab, form feed, carriage
    return, space and no-break space. *)
Definition js_space : list ascii :=
  ["009"; "010"; "011"; "012"; "013"; " "; "160"]%char.

(* ===================================================================== *)
(** * Trace discipline *)
(* ===================================================================== *)

(** [keeps f may_wait may_exit m]: whatever the state, [m] only adds events
    that pass [f] to the trace, waits at a prompt only if [may_wait] and
    ends the process only if [may_exit]. *)
Definition keeps {W A} (f : Event -> bool) (may_wait may_exit : bool) (m : M W A) : Prop :=
  forall s,
    (exists l, trace (final (m s)) = trace s ++ l /\ forallb f l = true) /\
    match m s with
    | Exit _ _ => may_exit = true
    | Wait _ => may_wait = true
    | _ => True
    end.

Definition not_dispose (e : Event) : bool := negb (is_dispose e).

Definition not_prompt (e : Event) : bool := negb (is_prompt e).

Definition not_restarting (e : Event) : bool :=
  match e with EvOut MRestarting => false | _ => true end.

Definition not_handling (e : Event) : bool :=
  match e with EvOut (MHandling _) => false | _ => true end.

Definition any_event (e : Event) : bool := true.

(** The world after one recorded step: the calls of the session change it,
    the rest does not. *)
Definition step_world {W} (ssh : NodeSSH W) (w : W) (e : Event) : W :=
  match e with
  | EvConnect host username privateKeyPath =>
      snd (connect ssh w host username privateKeyPath)
  | EvExec cmd cwd => snd (execCommand ssh w cmd cwd)
  | EvDispose => dispose ssh w
  | _ => w
  end.

(** The world a list of recorded steps leads to. *)
Definition replay {W} (ssh : NodeSSH W) (l : list Event) (w : W) : W :=
  fold_left (step_world ssh) l w.

(** [m] changes the world through the session only, and records every call
    it makes. *)
Definition recorded {W A} (ssh : NodeSSH W) (m : M W A) : Prop :=
  forall s,
    exists l,
      trace (final (m s)) = trace s ++ l /\
      world (final (m s)) = replay ssh l (world s).

(** The lines [deploy] prints before the guarded block. *)
Definition is_check_output (e : Event) : bool :=
  match e with
  | EvOut (MAutoDetected _ _) | EvOut MNotSpecified | EvOut MPleaseProvide
  | EvOut (MInvalidProject _) | EvOut MProjectNameRule
  | EvOut MMissingCredentials | EvOut MConnecting => true
  | _ => false
  end.

(* ===================================================================== *)
(** * The files of the mutator *)
(* ===================================================================== *)

(** [`${projectPath}/.env`] and [`${projectPath}/.env.tmp`]. *)
Definition env_path (projectPath : str) : str := projectPath ++ lit "/.env".

Definition tmp_path (projectPath : str) : str := projectPath ++ lit "/.env.tmp".

(** The lines [grep -v "^key="] selects: those that do not start with
    [key=]. *)
Definition without_key (key : str) (l : str) : bool :=
  negb (starts_with (key ++ lit "=") l).

(** A character that stands for itself between double quotes. *)
Definition dq_plain (c : ascii) : bool :=
  negb (chr_eqb c dquote || chr_eqb c "\" || chr_eqb c "$" || chr_eqb c "`").

(** The store after a complete update: [.env] holds the lines kept and
    the new line, [.env.tmp] is gone, the other files are as they were. *)
Definition updated (fs : Sh.store) (path : str) (keep : list str) (line : str) : Sh.store :=
  Sh.write
    (Sh.remove
       (Sh.write
          (Sh.write
             (Sh.write (Sh.write fs (tmp_path path) []) (tmp_path path) (Sh.unlines keep))
             (tmp_path path) (Sh.unlines keep))
          (tmp_path path) (Sh.unlines keep ++ line ++ [newline]))
       (tmp_path path))
    (env_path path) (Sh.unlines keep ++ line ++ [newline]).

(** An open session that does not drop. *)
Definition open_session (h : Host) : Prop := connected h = true /\ lifetime h = None.

(** The [.env] of a project on the host a run ends with. *)
Definition env_after {A} (path : str) (r : Res Host A) : option str :=
  Sh.read (files (world (final r))) (env_path path).

Definition no_newline (l : str) : bool := forallb (fun c => negb (chr_eqb c newline)) l.

(** A value that [echo] writes as it is, byte for byte: text without a
    backslash. *)
Definition literal (v : str) : bool := Sh.is_text v && negb (Sh.has_backslash v).

(** The facts about the two files that the commands rest on. *)
Record Siblings (path : str) : Prop := mkSiblings {
  sib_env : Sh.canonical (env_path path) = true;
  sib_tmp : Sh.canonical (tmp_path path) = true;
  sib_env_file : Sh.names_dir (env_path path) = false;
  sib_tmp_file : Sh.names_dir (tmp_path path) = false;
  sib_env_tmp : Sh.same_path (env_path path) (tmp_path path) = false;
  sib_tmp_env : Sh.same_path (tmp_path path) (env_path path) = false;
  sib_below_env : Sh.below (resolve (env_path path)) (resolve (tmp_path path)) = false;
  sib_below_tmp : Sh.below (resolve (tmp_path path)) (resolve (env_path path)) = false;
  sib_parent : Sh.parent (env_path path) = Sh.parent (tmp_path path);
  sib_in_parent : Sh.below (Sh.parent (tmp_path path)) (resolve (tmp_path path)) = true;
  sib_env_in_parent : Sh.below (Sh.parent (env_path path)) (resolve (env_path path)) = true
}.

(** Two stores that hold the same files, the [.env] and the [.env.tmp] of
    the project apart. *)
Definition agree_off (path : str) (fs fs' : Sh.store) : Prop :=
  forall g,
    Sh.same_path (env_path path) g = false -> Sh.same_path (tmp_path path) g = false ->
    Sh.read fs' g = Sh.read fs g.

(** The [.env] of the project and its [.env.tmp] have their places on the
    host: the project directory exists, and neither path is a directory. *)
Definition project_files (fs : Sh.store) (path : str) : bool :=
  Sh.place fs (env_path path) && Sh.place fs (tmp_path path).

(* ===================================================================== *)
(** * Example runs *)
(* ===================================================================== *)

(** One line of a text file. *)
Definition line (s : string) : str := lit s ++ [newline].

Definition demo_path : str := projectPathOf (lit "demo").

Definition demo_env_file : str := demo_path ++ lit "/.env".

(** Every command outside the shell fragment succeeds silently. *)
Definition silent (cmd : str) : CommandResult := mkResult 0 [] [].

(** Like [silent], but the pull fails with status 1. *)
Definition failing_pull (cmd : str) : CommandResult :=
  if str_eqb cmd (lit "git pull origin staging")
  then mkResult 1 [] (lit "fatal: couldn't find remote ref staging")
  else mkResult 0 [] [].

(** The staging host before the connection, with the given [.env]. *)
Definition staging (up : bool) (content : str) (other : str -> CommandResult) : Host :=
  mkHost up false None [(demo_env_file, content)] other.

(** An open session on a host with the given [.env]. *)
Definition session (content : str) : Host :=
  mkHost true true None [(demo_env_file, content)] silent.

(** A session that has dropped. *)
Definition dropped (content : str) : Host :=
  mkHost true false None [(demo_env_file, content)] silent.

Definition demo_env : Env :=
  mkEnv (Some (lit "203.0.113.7")) None (Some (lit "/home/dev/.ssh/id_ed25519"))
        None None (fun _ => None).

(** [--project <name> --framework nestjs], with or without [--yes]. *)
Definition demo_options (name : string) (noninteractive : bool) : Options :=
  mkOptions (Some (lit name)) (Some (lit "nestjs")) false noninteractive.

(** The user who picks [Continue Deployment] at once. *)
Definition continue_at_once : list Step := [mkStep (lit "Continue Deployment") [] []].

Unset Implicit Arguments.

(* ===================================================================== *)
(** * Reading a command line and a run *)
(* ===================================================================== *)

(** The AND-OR list the shell reads a command line as: the first simple
    command and the ones that follow, each with its operator. *)
Definition command_list (cmd : str) : option (Sh.simple * list (Sh.conn * Sh.simple)) :=
  match Sh.lex Sh.Bare None cmd with
  | Some ts => Sh.parse ts (Sh.mkSimple [] None)
  | None => None
  end.

(** The project a run deploys: the one given, or the one the repository
    map has for the slug of the git remote; [None] when neither gives a
    name. *)
Definition chosenProject (env : Env) (options : Options) : option str :=
  if truthy (project options) then project options
  else
    match getGitRepoInfo (git_config env) with
    | Some repo =>
        if truthy (Some repo) && truthy (repoMap env repo) then repoMap env repo else None
    | None => None
    end.

(** The commands of the framework block, when each is answered. *)
Definition frameworkCommands (framework : option str) : list str :=
  match framework with
  | Some f =>
      if truthy framework then
        (if str_eqb (toLowerCase f) (lit "nestjs") || str_eqb (toLowerCase f) (lit "expressjs")
         then [lit "npx prisma generate"] else []) ++
        (if str_eqb (toLowerCase f) (lit "nestjs") then [lit "yarn build"] else [])
      else []
  | None => []
  end.

(** The answers the loop acts on; any other answer ends it. *)
Definition is_menu_action (a : str) : bool :=
  str_eqb a (lit "Run Prisma Generate") || str_eqb a (lit "Run Prisma DB Push") ||
  str_eqb a (lit "Run Build") || str_eqb a (lit "Update .env").

(** The answers before the first one that ends the loop. *)
Fixpoint rounds (script : list Step) : nat :=
  match script with
  | [] => 0
  | st :: rest => if is_menu_action (action st) then S (rounds rest) else 0
  end.

(** The commands of one round of the menu, when each is answered. *)
Definition roundCommands (projectPath : str) (st : Step) : list str :=
  if str_eqb (action st) (lit "Run Prisma Generate") then [lit "npx prisma generate"]
  else if str_eqb (action st) (lit "Run Prisma DB Push") then [lit "npx prisma db push"]
  else if str_eqb (action st) (lit "Run Build") then [lit "yarn build"]
  else if str_eqb (action st) (lit "Update .env") then
    if test key_re (key st) then
      [checkCmdOf projectPath (key st);
       safeUpdateCmdOf projectPath (key st)
         (escapeShellArg (key st ++ lit "=" ++ value st))]
    else []
  else [].

(** A computation that has returned. *)
Definition returned {W A} (r : Res W A) : bool :=
  match r with
  | Ok _ _ => true
  | _ => false
  end.

(** The two lines a run reports its outcome with, the request for the
    summary, and the lines [lib/ssh.js] prints when a call is rejected. *)
Definition is_success (e : Event) : bool :=
  match e with EvOut (MSuccessful _) => true | _ => false end.

Definition is_failure (e : Event) : bool :=
  match e with EvOut MDeploymentFailed => true | _ => false end.

Definition is_summary (e : Event) : bool :=
  match e with EvSummary _ _ => true | _ => false end.

Definition is_rejection (e : Event) : bool :=
  match e with
  | EvOut MFailedToConnect | EvOut (MFailedToExecute _) => true
  | _ => false
  end.

Definition no_report (e : Event) : bool := negb (is_success e || is_failure e).

Definition not_summary (e : Event) : bool := negb (is_summary e).

Definition not_connect (e : Event) : bool := negb (is_connect e).

(** Neither report nor summary request. *)
Definition quiet (e : Event) : bool := no_report e && not_summary e.

(** [starts e f m]: whatever the state, the first event [m] adds to the
    trace is [e], and the ones after it pass [f]. *)
Definition starts {W A} (e : Event) (f : Event -> bool) (m : M W A) : Prop :=
  forall s, exists l, trace (final (m s)) = trace s ++ e :: l /\ forallb f l = true.

(** [submits m cs]: whatever the state, [m] returns, and the commands it
    has submitted are [cs]. *)
Definition submits {W A} (m : M W A) (cs : list str) : Prop :=
  forall s, exists a s', m s = Ok a s' /\ commands (trace s') = commands (trace s) ++ cs.

(** [loud m]: [m] only adds to the trace, and when it throws, the last
    thing it has added is the line of a rejection. *)
Definition loud {W A} (m : M W A) : Prop :=
  forall s,
    (exists l, trace (final (m s)) = trace s ++ l) /\
    (forall s', m s = Throw s' ->
                exists l e, trace s' = trace s ++ l ++ [e] /\ is_rejection e = true).

(* ===================================================================== *)
(** * Further example runs *)
(* ===================================================================== *)

(** A session that accepts the connection and answers every command with
    what [answer] gives for it. *)
Definition mock_ssh (answer : str -> CommandResult) : NodeSSH unit :=
  mkSSH (fun w _ _ _ => (true, w)) (fun w cmd _ => (Some (answer cmd), w)) (fun w => w).

(** An open session that drops after [n] commands. *)
Definition expiring (n : nat) (content : str) : Host :=
  mkHost true true (Some n) [(demo_env_file, content)] silent.

(** A host on which [git config --global --get-all safe.directory] prints
    [dirs]; every other command outside the shell fragment succeeds
    silently. *)
Definition registered (dirs : str) (cmd : str) : CommandResult :=
  if str_eqb cmd (lit "git config --global --get-all safe.directory")
  then mkResult 0 dirs []
  else mkResult 0 [] [].

(** The environment of [demo_env] in a clone of [Acme/Widgets], which the
    repository map sends to the project [demo]. *)
Definition mapped_env : Env :=
  mkEnv (Some (lit "203.0.113.7")) None (Some (lit "/home/dev/.ssh/id_ed25519"))
        None (Some (line "git@github.com:Acme/Widgets.git"))
        (fun repo => if str_eqb repo (lit "Acme/Widgets") then Some (lit "demo") else None).

(** The environment of [demo_env] with an API key, and a scripted run
    with [--ai]. *)
Definition ai_env : Env :=
  mkEnv (Some (lit "203.0.113.7")) None (Some (lit "/home/dev/.ssh/id_ed25519"))
        (Some (lit "AIzaSy-demo")) None (fun _ => None).

Definition ai_options : Options :=
  mkOptions (Some (lit "demo")) (Some (lit "nestjs")) true true.

(** A user who sets [FOO], runs the build and goes on. *)
Definition three_answers : list Step :=
  [mkStep (lit "Update .env") (lit "FOO") (lit "3");
   mkStep (lit "Run Build") [] [];
   mkStep (lit "Continue Deployment") [] []].

(* ===================================================================== *)
(** * Properties *)
(* ===================================================================== *)

(** ** Strings and character classes *)

Lemma chr_eqb_eq (a b : ascii) : chr_eqb a b = true <-> a = b.
Proof. apply Ascii.eqb_eq. Qed.

Lemma chr_eqb_refl (a : ascii) : chr_eqb a a = true.
Proof. apply Ascii.eqb_refl. Qed.

Lemma chr_eqb_neq (a b : ascii) : chr_eqb a b = false <-> a <> b.
Proof. apply Ascii.eqb_neq. Qed.

Lemma str_eqb_eq (a b : str) : str_eqb a b = true <-> a = b.
Proof.
  unfold str_eqb. destruct (list_eq_dec ascii_dec a b); split; congruence.
Qed.

Lemma str_eqb_refl (a : str) : str_eqb a a = true.
Proof. now apply str_eqb_eq. Qed.

(** ** The matcher *)

Section SpansFacts.

Variable p : ascii -> bool.

Lemma spans_In (s a b : str) :
  In (a, b) (spans p s) <-> s = a ++ b /\ forallb p a = true.
Proof.
  revert a b. induction s as [|x t IH]; intros a b; simpl.
  - split.
    + intros [E|[]]. inversion E; subst. now split.
    + intros [E _]. symmetry in E. apply app_eq_nil in E as [-> ->]. now left.
  - split.
    + intros [E|H].
      * inversion E; subst. now split.
      * destruct (p x) eqn:Px; [|contradiction].
        apply in_map_iff in H as [[a' b'] [E H]]. simpl in E.
        inversion E; subst. apply IH in H as [-> Ha].
        split; [reflexivity|]. simpl. now rewrite Px.
    + intros [E Ha]. destruct a as [|y a'].
      * left. simpl in E. now subst.
      * right. simpl in E. inversion E; subst. simpl in Ha.
        apply andb_true_iff in Ha as [Py Ha]. rewrite Py.
        apply in_map_iff. exists (a', b). split; [reflexivity|].
        apply IH. now split.
Qed.

Lemma spans_tl_In (s a b : str) :
  In (a, b) (tl (spans p s)) <-> a <> [] /\ s = a ++ b /\ forallb p a = true.
Proof.
  destruct s as [|x t]; simpl.
  - split; [contradiction|]. intros [Ha [E _]].
    symmetry in E. apply app_eq_nil in E as [-> _]. now apply Ha.
  - split.
    + intros H. destruct (p x) eqn:Px; [|contradiction].
      apply in_map_iff in H as [[a' b'] [E H]]. simpl in E.
      inversion E; subst. apply spans_In in H as [-> Ha].
      repeat split; [discriminate|]. simpl. now rewrite Px.
    + intros [Ha [E Hp]]. destruct a as [|y a']; [now contradiction Ha|].
      simpl in E. inversion E; subst. simpl in Hp.
      apply andb_true_iff in Hp as [Py Hp]. rewrite Py.
      apply in_map_iff. exists (a', b). split; [reflexivity|].
      apply spans_In. now split.
Qed.

End SpansFacts.

Lemma ordered_In (g : bool) (l : list (str * str)) (x : str * str) :
  In x (ordered g l) <-> In x l.
Proof.
  unfold ordered. destruct g; [|reflexivity].
  split; intros H; [now apply in_rev|now apply in_rev in H].
Qed.

Lemma run_Cat_In (r1 r2 : re) (bol : bool) (s m rest : str) (c : list (option str)) :
  In (m, rest, c) (run (Cat r1 r2) bol s) <->
  exists m1 s1 c1 m2 c2,
    In (m1, s1, c1) (run r1 bol s) /\
    In (m2, rest, c2) (run r2 (bol && is_nil m1) s1) /\
    m = m1 ++ m2 /\ c = c1 ++ c2.
Proof.
  simpl. rewrite in_flat_map. split.
  - intros [[[m1 s1] c1] [H1 H2]].
    apply in_map_iff in H2 as [[[m2 s2] c2] [E H2]].
    inversion E; subst. now exists m1, s1, c1, m2, c2.
  - intros (m1 & s1 & c1 & m2 & c2 & H1 & H2 & -> & ->).
    exists (m1, s1, c1). split; [assumption|].
    apply in_map_iff. now exists (m2, rest, c2).
Qed.

Lemma run_Plus_In (g : bool) (p : ascii -> bool) (bol : bool) (s m rest : str)
    (c : list (option str)) :
  In (m, rest, c) (run (Plus g p) bol s) <->
  m <> [] /\ s = m ++ rest /\ forallb p m = true /\ c = [].
Proof.
  simpl. rewrite in_map_iff. split.
  - intros [[a b] [E H]]. simpl in E. inversion E; subst.
    apply ordered_In, spans_tl_In in H. tauto.
  - intros (Hm & E & Hp & ->). exists (m, rest). split; [reflexivity|].
    apply ordered_In, spans_tl_In. tauto.
Qed.

Lemma run_Star_In (g : bool) (p : ascii -> bool) (bol : bool) (s m rest : str)
    (c : list (option str)) :
  In (m, rest, c) (run (Star g p) bol s) <->
  s = m ++ rest /\ forallb p m = true /\ c = [].
Proof.
  simpl. rewrite in_map_iff. split.
  - intros [[a b] [E H]]. simpl in E. inversion E; subst.
    apply ordered_In, spans_In in H. tauto.
  - intros (E & Hp & ->). exists (m, rest). split; [reflexivity|].
    apply ordered_In, spans_In. tauto.
Qed.

Lemma run_Eol_In (bol : bool) (s m rest : str) (c : list (option str)) :
  In (m, rest, c) (run Eol bol s) <-> s = [] /\ m = [] /\ rest = [] /\ c = [].
Proof.
  simpl. destruct s; simpl.
  - split; [intros [E|[]]; inversion E; tauto|].
    intros (_ & -> & -> & ->). now left.
  - split; [contradiction|]. intros [E _]. discriminate.
Qed.

Lemma run_Cls_In (p : ascii -> bool) (bol : bool) (s m rest : str)
    (c : list (option str)) :
  In (m, rest, c) (run (Cls p) bol s) <->
  exists x, s = x :: rest /\ p x = true /\ m = [x] /\ c = [].
Proof.
  simpl. destruct s as [|x t].
  - split; [contradiction|]. intros (x & E & _). discriminate.
  - destruct (p x) eqn:Px; simpl.
    + split.
      * intros [E|[]]. inversion E; subst. now exists x.
      * intros (y & E & _ & -> & ->). inversion E; subst. now left.
    + split; [contradiction|]. intros (y & E & Py & _).
      inversion E; subst. congruence.
Qed.

Lemma search_Bol_later (r : re) (s : str) : search (Cat Bol r) false s = None.
Proof. induction s as [|x t IH]; simpl; [reflexivity|exact IH]. Qed.

Lemma search_eq (r : re) (bol : bool) (s : str) :
  search r bol s =
  match run r bol s with
  | (m, _, c) :: _ => Some (Some m :: c)
  | [] =>
      match s with
      | [] => None
      | _ :: t => search r false t
      end
  end.
Proof. destruct s; reflexivity. Qed.

Lemma exec_anchored (r : re) (s : str) :
  test (Cat Bol r) s = true <-> exists a, In a (run (Cat Bol r) true s).
Proof.
  unfold test, exec. rewrite search_eq.
  destruct (run (Cat Bol r) true s) as [|[[m rest] c] l] eqn:E.
  - destruct s as [|x t]; [|rewrite search_Bol_later];
      (split; [discriminate|]; intros [a []]).
  - split; [|reflexivity]. intros _. eexists. now left.
Qed.

(** The project-name expression accepts the non-empty strings over its
    class, and nothing else. *)
Lemma project_re_spec (s : str) :
  test project_re s = true <-> s <> [] /\ forallb name_char s = true.
Proof.
  unfold project_re. rewrite exec_anchored. split.
  - intros [[[m rest] c] H].
    apply run_Cat_In in H as (m1 & s1 & c1 & m2 & c2 & H1 & H2 & -> & ->).
    simpl in H1. destruct H1 as [E|[]]. inversion E; subst. clear E.
    apply run_Cat_In in H2 as (m3 & s3 & c3 & m4 & c4 & H3 & H4 & -> & ->).
    apply run_Plus_In in H3 as (Hm & -> & Hp & ->).
    apply run_Eol_In in H4 as (-> & _). rewrite app_nil_r. now split.
  - intros [Hs Hp]. exists ([] ++ s ++ [], [], [] ++ [] ++ []).
    apply run_Cat_In. exists [], s, [], (s ++ []), ([] ++ []).
    repeat split; [now left|].
    apply run_Cat_In. exists s, [], [], [], [].
    repeat split.
    + apply run_Plus_In. rewrite app_nil_r. tauto.
    + now apply run_Eol_In.
Qed.

(** The key expression accepts a letter or underscore followed by letters,
    digits and underscores, and nothing else. *)
Lemma key_re_spec (s : str) :
  test key_re s = true <->
  exists c t, s = c :: t /\ key_head c = true /\ forallb key_tail t = true.
Proof.
  unfold key_re. rewrite exec_anchored. split.
  - intros [[[m rest] c] H].
    apply run_Cat_In in H as (m1 & s1 & c1 & m2 & c2 & H1 & H2 & -> & ->).
    simpl in H1. destruct H1 as [E|[]]. inversion E; subst. clear E.
    apply run_Cat_In in H2 as (m3 & s3 & c3 & m4 & c4 & H3 & H4 & -> & ->).
    apply run_Cls_In in H3 as (x & -> & Px & -> & ->).
    apply run_Cat_In in H4 as (m5 & s5 & c5 & m6 & c6 & H5 & H6 & -> & ->).
    apply run_Star_In in H5 as (-> & Hp & ->).
    apply run_Eol_In in H6 as (-> & _). rewrite app_nil_r.
    now exists x, m5.
  - intros (x & t & -> & Px & Hp).
    exists ([] ++ [x] ++ t ++ [], [], [] ++ [] ++ [] ++ []).
    apply run_Cat_In. exists [], (x :: t), [], ([x] ++ t ++ []), ([] ++ [] ++ []).
    repeat split; [now left|].
    apply run_Cat_In. exists [x], t, [], (t ++ []), ([] ++ []).
    repeat split; [apply run_Cls_In; now exists x|].
    apply run_Cat_In. exists t, [], [], [], [].
    repeat split.
    + apply run_Star_In. rewrite app_nil_r. tauto.
    + now apply run_Eol_In.
Qed.

(** ** The project-name validator *)

Lemma name_char_alphabet (c : ascii) :
  name_char c = true <-> In c name_alphabet.
Proof.
  assert (E : name_char c = existsb (chr_eqb c) name_alphabet).
  { destruct c as [[] [] [] [] [] [] [] []]; reflexivity. }
  rewrite E, existsb_exists. split.
  - intros [x [Hx Hc]]. apply chr_eqb_eq in Hc. now subst.
  - intros H. exists c. split; [assumption|apply chr_eqb_refl].
Qed.

(** C5: the project-name validator accepts exactly the non-empty strings
    made of ASCII letters, digits, [.], [_] and [-]; it accepts
    "my.project-1_a" and rejects "../etc", "a b", "a;rm -rf /" and the
    empty string. *)
Theorem isValidProjectName_spec :
  (forall name : str,
      isValidProjectName name = true <->
      name <> [] /\ (forall c, In c name -> In c name_alphabet)) /\
  isValidProjectName (lit "my.project-1_a") = true /\
  isValidProjectName (lit "../etc") = false /\
  isValidProjectName (lit "a b") = false /\
  isValidProjectName (lit "a;rm -rf /") = false /\
  isValidProjectName [] = false.
Proof.
  split; [|repeat split; reflexivity].
  intros name. unfold isValidProjectName. rewrite project_re_spec, forallb_forall.
  split; intros [Hn Hc]; (split; [assumption|]); intros c Hin;
    apply name_char_alphabet; auto.
Qed.

(** ** The shell-argument escaper *)

Lemma escapeShellArg_spec (s : str) : escapeShellArg s = spec_escape s.
Proof.
  unfold escapeShellArg, spec_escape. simpl. do 2 f_equal.
  induction s as [|c t IH]; simpl; [reflexivity|].
  rewrite IH. unfold squote. now destruct (chr_eqb c "'").
Qed.

Lemma lex_quoted_body (s cur rest : str) :
  Sh.lex Sh.Single (Some cur) (replace_all "'" (lit "'\''") s ++ squote :: rest) =
  Sh.lex Sh.Bare (Some (cur ++ s)) rest.
Proof.
  revert cur. induction s as [|c t IH]; intros cur.
  - simpl. now rewrite app_nil_r.
  - cbn [replace_all]. destruct (chr_eqb c "'") eqn:Ec.
    + apply chr_eqb_eq in Ec. subst c.
      change (Sh.lex Sh.Single (Some (cur ++ ["'"%char]))
                (replace_all "'" (lit "'\''") t ++ squote :: rest) =
              Sh.lex Sh.Bare (Some (cur ++ "'"%char :: t)) rest).
      rewrite IH. now rewrite <- app_assoc.
    + cbn [app Sh.lex]. unfold squote at 1. rewrite Ec.
      unfold Sh.push, Sh.open_word. rewrite IH. now rewrite <- app_assoc.
Qed.

Lemma lex_escapeShellArg (s : str) (cur : option str) (rest : str) :
  Sh.lex Sh.Bare cur (escapeShellArg s ++ rest) =
  Sh.lex Sh.Bare (Some (Sh.open_word cur ++ s)) rest.
Proof.
  unfold escapeShellArg. rewrite <- !app_assoc.
  change (lit "'" ++ ?x) with (squote :: x).
  change (Sh.lex Sh.Single (Some (Sh.open_word cur))
            (replace_all "'" (lit "'\''") s ++ squote :: rest) =
          Sh.lex Sh.Bare (Some (Sh.open_word cur ++ s)) rest).
  apply lex_quoted_body.
Qed.

(** C2: for every string, [escape] wraps it in single quotes, replaces each
    single quote inside by the four characters ['\''] and changes nothing
    else; the shell reads the result as one word, the string itself, also in
    the middle of a command line. *)
Theorem escapeShellArg_roundtrip (s : str) :
  escapeShellArg s = spec_escape s /\
  Sh.words (escapeShellArg s) = Some [s] /\
  (forall (cur : option str) (rest : str),
      Sh.lex Sh.Bare cur (escapeShellArg s ++ rest) =
      Sh.lex Sh.Bare (Some (Sh.open_word cur ++ s)) rest).
Proof.
  split; [apply escapeShellArg_spec|]. split; [|intros; apply lex_escapeShellArg].
  unfold Sh.words. rewrite <- (app_nil_r (escapeShellArg s)).
  rewrite lex_escapeShellArg. reflexivity.
Qed.

(** ** The git remote resolver *)

Lemma run_Chr_In (x : ascii) (bol : bool) (s m rest : str) (c : list (option str)) :
  In (m, rest, c) (run (Chr x) bol s) <-> s = x :: rest /\ m = [x] /\ c = [].
Proof.
  simpl. destruct s as [|y t].
  - split; [contradiction|]. intros [E _]. discriminate.
  - destruct (chr_eqb y x) eqn:Eyx; simpl.
    + apply chr_eqb_eq in Eyx. subst y. split.
      * intros [E|[]]. inversion E; subst. tauto.
      * intros (E & -> & ->). inversion E; subst. now left.
    + apply chr_eqb_neq in Eyx. split; [contradiction|].
      intros (E & _). inversion E; subst. now contradiction Eyx.
Qed.

Lemma run_Grp_In (r : re) (bol : bool) (s m rest : str) (c : list (option str)) :
  In (m, rest, c) (run (Grp r) bol s) <->
  exists c', In (m, rest, c') (run r bol s) /\ c = Some m :: c'.
Proof.
  simpl. rewrite in_map_iff. split.
  - intros [[[m' s'] c'] [E H]]. inversion E; subst. now exists c'.
  - intros [c' [H ->]]. now exists (m, rest, c').
Qed.

Lemma run_Opt_In (r : re) (bol : bool) (s m rest : str) (c : list (option str)) :
  In (m, rest, c) (run (Opt r) bol s) <->
  In (m, rest, c) (run r bol s) \/
  (m = [] /\ rest = s /\ c = repeat None (groups r)).
Proof.
  simpl. rewrite in_app_iff. simpl. split.
  - intros [H|[E|[]]]; [now left|]. inversion E; subst. now right.
  - intros [H|(-> & -> & ->)]; [now left|]. right. now left.
Qed.

Lemma run_dotgit_In (bol : bool) (s m rest : str) (c : list (option str)) :
  In (m, rest, c) (run (word (lit ".git")) bol s) <->
  s = lit ".git" ++ rest /\ m = lit ".git" /\ c = [].
Proof.
  change (word (lit ".git")) with
    (Cat (Chr ".") (Cat (Chr "g") (Cat (Chr "i") (Chr "t")))).
  split.
  - intros H.
    apply run_Cat_In in H as (m1 & s1 & c1 & m2 & c2 & H1 & H2 & -> & ->).
    apply run_Chr_In in H1 as (-> & -> & ->).
    apply run_Cat_In in H2 as (m3 & s3 & c3 & m4 & c4 & H3 & H4 & -> & ->).
    apply run_Chr_In in H3 as (-> & -> & ->).
    apply run_Cat_In in H4 as (m5 & s5 & c5 & m6 & c6 & H5 & H6 & -> & ->).
    apply run_Chr_In in H5 as (-> & -> & ->).
    apply run_Chr_In in H6 as (-> & -> & ->).
    now repeat split.
  - intros (-> & -> & ->).
    apply run_Cat_In. exists ["."%char], (lit "git" ++ rest), [], (lit "git"), [].
    repeat split; [now apply run_Chr_In|].
    apply run_Cat_In. exists ["g"%char], (lit "it" ++ rest), [], (lit "it"), [].
    repeat split; [now apply run_Chr_In|].
    apply run_Cat_In. exists ["i"%char], (lit "t" ++ rest), [], (lit "t"), [].
    repeat split; now apply run_Chr_In.
Qed.

Lemma run_suffix_In (bol : bool) (s m rest : str) (c : list (option str)) :
  In (m, rest, c) (run suffix_re bol s) <->
  rest = [] /\ m = s /\
  ((s = [] /\ c = [None]) \/ (s = lit ".git" /\ c = [Some (lit ".git")])).
Proof.
  unfold suffix_re. split.
  - intros H.
    apply run_Cat_In in H as (m1 & s1 & c1 & m2 & c2 & H1 & H2 & -> & ->).
    apply run_Eol_In in H2 as (-> & -> & -> & ->).
    apply run_Opt_In in H1 as [H1|(-> & E & ->)].
    + apply run_Grp_In in H1 as (c' & H1 & ->).
      apply run_dotgit_In in H1 as (-> & -> & ->). now repeat split; try right.
    + subst s. repeat split. now left.
  - intros (-> & -> & [[-> ->]|[-> ->]]).
    + apply run_Cat_In. exists [], [], [None], [], [].
      repeat split; [|now apply run_Eol_In].
      apply run_Opt_In. now right.
    + apply run_Cat_In. exists (lit ".git"), [], [Some (lit ".git")], [], [].
      repeat split; [|now apply run_Eol_In].
      apply run_Opt_In. left. apply run_Grp_In. exists []. split; [|reflexivity].
      now apply run_dotgit_In.
Qed.

Lemma run_repo_In (bol : bool) (s m rest : str) (c : list (option str)) :
  In (m, rest, c) (run repo_re bol s) <->
  exists repo git,
    s = repo ++ git /\ repo <> [] /\ forallb not_slash repo = true /\
    rest = [] /\ m = s /\
    ((git = [] /\ c = [Some repo; None]) \/
     (git = lit ".git" /\ c = [Some repo; Some (lit ".git")])).
Proof.
  unfold repo_re. split.
  - intros H.
    apply run_Cat_In in H as (m1 & s1 & c1 & m2 & c2 & H1 & H2 & -> & ->).
    apply run_Grp_In in H1 as (c' & H1 & ->).
    apply run_Plus_In in H1 as (Hm & -> & Hp & ->).
    apply run_suffix_In in H2 as (-> & -> & H2).
    exists m1, s1. repeat split; try assumption.
    destruct H2 as [[-> ->]|[-> ->]]; [left|right]; now split.
  - intros (repo & git & -> & Hr & Hp & -> & -> & H).
    apply run_Cat_In.
    destruct H as [[-> ->]|[-> ->]].
    + exists repo, [], [Some repo], [], [None]. repeat split.
      * apply run_Grp_In. exists []. split; [|reflexivity].
        apply run_Plus_In. tauto.
      * apply run_suffix_In. repeat split. now left.
    + exists repo, (lit ".git"), [Some repo], (lit ".git"), [Some (lit ".git")].
      repeat split.
      * apply run_Grp_In. exists []. split; [|reflexivity].
        apply run_Plus_In. tauto.
      * apply run_suffix_In. repeat split. now right.
Qed.

Lemma remote_re_eq :
  remote_re =
  Cat (Cls colon_or_slash) (Cat (Grp (Plus true not_slash)) (Cat (Chr "/") repo_re)).
Proof. reflexivity. Qed.

(** Every way the remote expression matches at the start of [s]. *)
Lemma run_remote_In (bol : bool) (s m rest : str) (c : list (option str)) :
  In (m, rest, c) (run remote_re bol s) <->
  exists sep owner repo git,
    trailing_owner_repo s [] owner repo git sep /\
    rest = [] /\ m = s /\
    c = [Some owner; Some repo; if is_nil git then None else Some git].
Proof.
  rewrite remote_re_eq. unfold trailing_owner_repo. split.
  - intros H.
    apply run_Cat_In in H as (m1 & s1 & c1 & m2 & c2 & H1 & H2 & -> & ->).
    apply run_Cls_In in H1 as (sep & -> & Hsep & -> & ->).
    apply run_Cat_In in H2 as (m3 & s3 & c3 & m4 & c4 & H3 & H4 & -> & ->).
    apply run_Grp_In in H3 as (c' & H3 & ->).
    apply run_Plus_In in H3 as (Ho & -> & Hop & ->).
    apply run_Cat_In in H4 as (m5 & s5 & c5 & m6 & c6 & H5 & H6 & -> & ->).
    apply run_Chr_In in H5 as (-> & -> & ->).
    apply run_repo_In in H6 as (repo & git & -> & Hr & Hrp & -> & -> & H6).
    exists sep, m3, repo, git.
    destruct H6 as [[-> ->]|[-> ->]]; simpl; repeat split; auto.
  - intros (sep & owner & repo & git & (E & Hsep & Ho & Hop & Hr & Hrp & Hg) & -> & -> & ->).
    simpl in E. subst s.
    apply run_Cat_In.
    exists [sep], (owner ++ lit "/" ++ repo ++ git), [],
           (owner ++ lit "/" ++ repo ++ git),
           [Some owner; Some repo; if is_nil git then None else Some git].
    repeat split; [apply run_Cls_In; now exists sep|].
    apply run_Cat_In.
    exists owner, (lit "/" ++ repo ++ git), [Some owner], (lit "/" ++ repo ++ git),
           [Some repo; if is_nil git then None else Some git].
    repeat split.
    { apply run_Grp_In. exists []. split; [|reflexivity]. apply run_Plus_In. tauto. }
    apply run_Cat_In.
    exists (lit "/"), (repo ++ git), [], (repo ++ git),
           [Some repo; if is_nil git then None else Some git].
    repeat split; [now apply run_Chr_In|].
    apply run_repo_In. exists repo, git. repeat split; try assumption.
    destruct Hg as [->| ->]; [left|right]; now split.
Qed.

(** *** Backtracking order *)

Lemma hd_flat_map_first {A B : Type} (f : A -> list B) (l : list A) (y : B) :
  hd_error (flat_map f l) = Some y ->
  exists l1 x l2,
    l = l1 ++ x :: l2 /\ Forall (fun z => f z = []) l1 /\ hd_error (f x) = Some y.
Proof.
  induction l as [|a l IH]; simpl; [discriminate|].
  destruct (f a) as [|b k] eqn:Efa; simpl.
  - intros H. destruct (IH H) as (l1 & x & l2 & -> & Hl1 & Hx).
    exists (a :: l1), x, l2. repeat split; [|assumption]. now constructor.
  - intros H. exists [], a, l. repeat split; [constructor|]. now rewrite Efa.
Qed.

Lemma hd_error_In {A : Type} (l : list A) (y : A) : hd_error l = Some y -> In y l.
Proof. destruct l; simpl; [discriminate|]. intros [= ->]. now left. Qed.

Lemma hd_error_map {A B : Type} (f : A -> B) (l : list A) :
  hd_error (map f l) = option_map f (hd_error l).
Proof. now destruct l. Qed.

(** The first match of a concatenation: some match of the first part,
    followed by the first match of the second part after it. *)
Lemma hd_Cat (r1 r2 : re) (bol : bool) (s m rest : str) (c : list (option str)) :
  hd_error (run (Cat r1 r2) bol s) = Some (m, rest, c) ->
  exists l1 m1 s1 c1 l2 m2 c2,
    run r1 bol s = l1 ++ (m1, s1, c1) :: l2 /\
    Forall (fun a : alt => run r2 (bol && is_nil (fst (fst a))) (snd (fst a)) = []) l1 /\
    hd_error (run r2 (bol && is_nil m1) s1) = Some (m2, rest, c2) /\
    m = m1 ++ m2 /\ c = c1 ++ c2.
Proof.
  simpl. intros H.
  apply hd_flat_map_first in H as (l1 & [[m1 s1] c1] & l2 & E & Hl1 & Hx).
  rewrite hd_error_map in Hx.
  destruct (hd_error (run r2 (bol && is_nil m1) s1)) as [[[m2 s2] c2]|] eqn:E2;
    [|discriminate].
  simpl in Hx. inversion Hx; subst.
  exists l1, m1, s1, c1, l2, m2, c2. repeat split; try assumption.
  eapply Forall_impl; [|exact Hl1]. intros [[a b] d] Hz. simpl.
  now destruct (run r2 (bol && is_nil a) b).
Qed.

Lemma spans_cons (p : ascii -> bool) (s : str) :
  spans p s = ([], s) :: tl (spans p s).
Proof. now destruct s. Qed.

(** [spans] lists the prefixes in the order of their length. *)
Lemma spans_later (p : ascii -> bool) (s : str) (l1 l2 : list (str * str))
    (x : str * str) :
  spans p s = l1 ++ x :: l2 ->
  forall z, In z l2 -> List.length (fst x) < List.length (fst z).
Proof.
  revert l1 l2 x. induction s as [|c t IH]; intros l1 l2 x E z Hz.
  - simpl in E. destruct l1 as [|a l1].
    + inversion E; subst. contradiction.
    + inversion E as [[Ea El]]. now destruct l1.
  - simpl in E. destruct l1 as [|a l1].
    + inversion E as [[Ex El]]. subst x. rewrite <- El in Hz.
      destruct (p c); [|contradiction].
      apply in_map_iff in Hz as [z' [<- _]]. simpl. lia.
    + inversion E as [[Ea El]]. destruct (p c).
      * apply map_eq_app in El as (k1 & k2 & Ek & <- & Ek2).
        destruct k2 as [|x' k2]; [discriminate|]. simpl in Ek2.
        inversion Ek2 as [[Ex Ek2']]. rewrite <- Ek2' in Hz.
        apply in_map_iff in Hz as [z' [<- Hz']]. simpl.
        apply -> Nat.succ_lt_mono. eapply IH; eassumption.
      * now destruct l1.
Qed.

(** The first match of [([^/]+?)(\.git)?$] takes the shortest repository
    name: the suffix [.git] is dropped whenever something is left. *)
Lemma hd_repo (bol : bool) (s m rest : str) (c : list (option str)) :
  hd_error (run repo_re bol s) = Some (m, rest, c) ->
  exists repo git,
    s = repo ++ git /\ repo <> [] /\ forallb not_slash repo = true /\
    (git = [] \/ git = lit ".git") /\
    c = [Some repo; if is_nil git then None else Some git] /\
    (git = [] -> forall r, r <> [] -> repo <> r ++ lit ".git").
Proof.
  intros H. pose proof (hd_error_In _ _ H) as Hin.
  apply run_repo_In in Hin as (repo & git & -> & Hr & Hp & -> & -> & Hc).
  exists repo, git. repeat split; try assumption.
  { destruct Hc as [[-> _]|[-> _]]; tauto. }
  { destruct Hc as [[-> ->]|[-> ->]]; reflexivity. }
  intros -> r Hrne ->. rewrite app_nil_r in *.
  unfold repo_re in H.
  apply hd_Cat in H as (l1 & m1 & s1 & c1 & l2 & m2 & c2 & E & Hl1 & H2 & Em & Ec).
  destruct Hc as [[_ Hc]|[Hc _]]; [|discriminate].
  assert (Hx : In (m1, s1, c1) (run (Grp (Plus false not_slash)) bol (r ++ lit ".git")))
    by (rewrite E; apply in_elt).
  apply run_Grp_In in Hx as (c' & Hx & ->).
  apply run_Plus_In in Hx as (_ & Es & _ & ->).
  simpl in Ec. rewrite Ec in Hc. inversion Hc as [[Em1 Ec2]]. subst m1.
  (* the shorter name [r] was tried before *)
  assert (Hr' : In (r, lit ".git", [Some r])
                   (run (Grp (Plus false not_slash)) bol (r ++ lit ".git"))).
  { apply run_Grp_In. exists []. split; [|reflexivity]. apply run_Plus_In.
    repeat split; try assumption.
    rewrite forallb_app in Hp. now apply andb_true_iff in Hp as [Hp _]. }
  rewrite E in Hr'. apply in_app_or in Hr' as [Hr'|[Hr'|Hr']].
  - rewrite Forall_forall in Hl1. specialize (Hl1 _ Hr'). cbn [fst snd] in Hl1.
    assert (Hs : In (lit ".git", [], [Some (lit ".git")])
                    (run suffix_re (bol && is_nil r) (lit ".git"))).
    { apply run_suffix_In. repeat split. now right. }
    rewrite Hl1 in Hs. contradiction.
  - injection Hr' as Er _ _.
    apply (f_equal (@List.length ascii)) in Er. rewrite length_app in Er. simpl in Er. lia.
  - simpl in E. unfold ordered in E.
    rewrite map_map in E. simpl in E.
    apply map_eq_app in E as (k1 & k2 & Ek & Ek1 & Ek2).
    destruct k2 as [|x k2]; [discriminate|]. simpl in Ek2.
    assert (El2 : map (fun x : str * str => (fst x, snd x, [Some (fst x)])) k2 = l2)
      by (now injection Ek2).
    assert (Ex : fst x = r ++ lit ".git") by (now injection Ek2).
    rewrite <- El2 in Hr'.
    apply in_map_iff in Hr' as [z [Ez Hz]].
    assert (Hs : spans not_slash (r ++ lit ".git") =
                 (([], r ++ lit ".git") :: k1) ++ x :: k2).
    { rewrite spans_cons. simpl. now f_equal. }
    pose proof (spans_later _ _ _ _ _ Hs z Hz) as Hlt.
    assert (Ez1 : fst z = r) by (now injection Ez). rewrite Ez1, Ex in Hlt.
    rewrite length_app in Hlt. simpl in Hlt. lia.
Qed.

Lemma in_middle {A : Type} (l1 l2 : list A) (x : A) (l : list A) :
  l = l1 ++ x :: l2 -> In x l.
Proof. intros ->. apply in_elt. Qed.

(** The first match of the remote expression at the start of [s]. *)
Lemma hd_remote (bol : bool) (s m rest : str) (c : list (option str)) :
  hd_error (run remote_re bol s) = Some (m, rest, c) ->
  exists sep owner repo git,
    trailing_owner_repo s [] owner repo git sep /\
    c = [Some owner; Some repo; if is_nil git then None else Some git] /\
    (git = [] -> forall r, r <> [] -> repo <> r ++ lit ".git").
Proof.
  rewrite remote_re_eq. intros H.
  apply hd_Cat in H as (l1 & m1 & s1 & c1 & l2 & m2 & c2 & E1 & _ & H & -> & ->).
  apply in_middle, run_Cls_In in E1 as (sep & -> & Hsep & -> & ->).
  apply hd_Cat in H as (l3 & m3 & s3 & c3 & l4 & m4 & c4 & E3 & _ & H & -> & ->).
  apply in_middle, run_Grp_In in E3 as (c' & E3 & ->).
  apply run_Plus_In in E3 as (Ho & -> & Hop & ->).
  apply hd_Cat in H as (l5 & m5 & s5 & c5 & l6 & m6 & c6 & E5 & _ & H & -> & ->).
  apply in_middle, run_Chr_In in E5 as (-> & -> & ->).
  apply hd_repo in H as (repo & git & -> & Hr & Hrp & Hg & -> & Hmax).
  exists sep, m3, repo, git. repeat split; assumption.
Qed.

Lemma search_Some (r : re) (bol : bool) (s : str) (res : list (option str)) :
  search r bol s = Some res ->
  exists pre s' b m rest c,
    s = pre ++ s' /\ hd_error (run r b s') = Some (m, rest, c) /\ res = Some m :: c.
Proof.
  revert bol. induction s as [|x t IH]; intros bol; rewrite search_eq;
    destruct (run r bol _) as [|[[m rest] c] l] eqn:E.
  - discriminate.
  - intros [= <-]. exists [], [], bol, m, rest, c. rewrite E. now repeat split.
  - intros H. apply IH in H as (pre & s' & b & m & rest & c & -> & H & ->).
    now exists (x :: pre), s', b, m, rest, c.
  - intros [= <-]. exists [], (x :: t), bol, m, rest, c. rewrite E. now repeat split.
Qed.

Lemma search_None (r : re) (bol : bool) (s : str) :
  search r bol s = None ->
  forall pre s', s = pre ++ s' -> run r (bol && is_nil pre) s' = [].
Proof.
  revert bol. induction s as [|x t IH]; intros bol; rewrite search_eq;
    destruct (run r bol _) as [|[[m rest] c] l] eqn:E; try discriminate.
  - intros _ pre s' Es. symmetry in Es. apply app_eq_nil in Es as [-> ->].
    now rewrite andb_true_r.
  - intros H [|y pre] s' Es; simpl in Es.
    + subst s'. now rewrite andb_true_r.
    + injection Es as _ Et. rewrite andb_false_r.
      exact (IH false H pre s' Et).
Qed.

Lemma not_slash_count (l : str) :
  forallb not_slash l = true -> count_occ ascii_dec l "/"%char = 0.
Proof.
  induction l as [|c l IH]; [reflexivity|]. cbn [forallb].
  intros H. apply andb_true_iff in H as [Hc Hl]. unfold not_slash in Hc.
  apply negb_true_iff, chr_eqb_neq in Hc.
  rewrite count_occ_cons_neq by assumption. now apply IH.
Qed.

Lemma split_first_slash (a a' b b' : str) :
  forallb not_slash a = true -> forallb not_slash a' = true ->
  a ++ "/"%char :: b = a' ++ "/"%char :: b' -> a = a' /\ b = b'.
Proof.
  revert a'. induction a as [|c a IH]; intros [|c' a'] Ha Ha' E; cbn in *.
  - injection E as <-. now split.
  - injection E as <- _. discriminate Ha'.
  - injection E as -> _. discriminate Ha.
  - apply andb_true_iff in Ha as [_ Ha]. apply andb_true_iff in Ha' as [_ Ha'].
    injection E as <- E. destruct (IH a' Ha Ha' E) as [-> ->]. now split.
Qed.

(** Where the remote expression matches from the start, the text begins
    with a colon or slash and holds one slash after it. *)
Lemma remote_match_shape (bol : bool) (s : str) :
  run remote_re bol s <> [] ->
  exists x t, s = x :: t /\ colon_or_slash x = true /\
              count_occ ascii_dec t "/"%char = 1.
Proof.
  intros H. destruct (run remote_re bol s) as [|[[m rest] c] l] eqn:E;
    [now contradiction H|].
  assert (Hin : In (m, rest, c) (run remote_re bol s)) by (rewrite E; now left).
  apply run_remote_In in Hin as (sep & owner & repo & git & Ht & _).
  destruct Ht as (Es & Hsep & _ & Ho & _ & Hr & Hg).
  exists sep, (owner ++ lit "/" ++ repo ++ git). split; [exact Es|]. split; [exact Hsep|].
  rewrite !count_occ_app, (not_slash_count _ Ho), (not_slash_count _ Hr).
  destruct Hg as [->| ->]; reflexivity.
Qed.

Lemma search_skip (r : re) (pre s : str) (bol : bool) :
  (forall p1 x p2 b, pre = p1 ++ x :: p2 -> run r b (x :: p2 ++ s) = []) ->
  search r bol (pre ++ s) = search r (bol && is_nil pre) s.
Proof.
  revert bol. induction pre as [|x p IH]; intros bol H.
  - cbn. now rewrite andb_true_r.
  - cbn [app]. rewrite search_eq, (H [] x p bol eq_refl), andb_false_r.
    rewrite IH; [reflexivity|].
    intros p1 y p2 b E. apply (H (x :: p1) y p2 b). now rewrite E.
Qed.

(** The leftmost match: no earlier start position matches. *)
Lemma search_first (r : re) (bol : bool) (s : str) (res : list (option str)) :
  search r bol s = Some res ->
  exists pre s' m rest c,
    s = pre ++ s' /\
    hd_error (run r (bol && is_nil pre) s') = Some (m, rest, c) /\
    res = Some m :: c /\
    (forall p1 x p2, pre = p1 ++ x :: p2 ->
                     run r (bol && is_nil p1) (x :: p2 ++ s') = []).
Proof.
  revert bol. induction s as [|x t IH]; intros bol; rewrite search_eq;
    destruct (run r bol _) as [|[[m rest] c] l] eqn:E.
  - discriminate.
  - intros [= <-]. exists [], [], m, rest, c. cbn [is_nil]. rewrite andb_true_r, E.
    repeat split. intros [|? ?] ? ? H; discriminate H.
  - intros H. apply IH in H as (pre & s' & m & rest & c & -> & H & -> & Hfirst).
    exists (x :: pre), s', m, rest, c. cbn [is_nil andb] in *.
    rewrite andb_false_r. repeat split; [exact H|].
    intros [|y p1] z p2 Ep; cbn [app] in Ep; injection Ep as <- Ep.
    + subst pre. cbn [is_nil]. now rewrite andb_true_r.
    + cbn [is_nil]. rewrite andb_false_r. exact (Hfirst p1 z p2 Ep).
  - intros [= <-]. exists [], (x :: t), m, rest, c. cbn [is_nil]. rewrite andb_true_r, E.
    repeat split. intros [|? ?] ? ? H; discriminate H.
Qed.

Lemma app_eq_shorter {A : Type} (p q s t : list A) :
  p ++ s = q ++ t -> List.length q < List.length p ->
  exists x p2, p = q ++ x :: p2 /\ t = x :: p2 ++ s.
Proof.
  revert q. induction p as [|a p IH]; intros [|b q] E Hl; cbn in *; try lia.
  - exists a, p. now subst t.
  - injection E as <- E. destruct (IH q E ltac:(lia)) as (x & p2 & -> & ->).
    now exists x, p2.
Qed.

(** At the start of an owner/repo part the expression matches, whatever
    precedes. *)
Lemma remote_matches (b : bool) (s owner repo git : str) (sep : ascii) :
  trailing_owner_repo s [] owner repo git sep -> run remote_re b s <> [].
Proof.
  intros Ht H.
  assert (Hin : In (s, [], [Some owner; Some repo; if is_nil git then None else Some git])
                   (run remote_re b s)).
  { apply run_remote_In. exists sep, owner, repo, git.
    split; [exact Ht|now repeat split]. }
  rewrite H in Hin. contradiction.
Qed.

Lemma trailing_shift (url pre s owner repo git : str) (sep : ascii) :
  url = pre ++ s -> trailing_owner_repo s [] owner repo git sep ->
  trailing_owner_repo url pre owner repo git sep.
Proof.
  intros -> (Es & H). split; [|exact H]. now rewrite Es.
Qed.

(** The first match at the start of an owner/repo part gives that owner and
    the repository name without the suffix. *)
Lemma remote_first_match (b : bool) (owner repo git m rest : str) (sep : ascii)
    (c : list (option str)) :
  trailing_owner_repo (sep :: owner ++ lit "/" ++ repo ++ git) [] owner repo git sep ->
  (git = [] -> forall r, r <> [] -> repo <> r ++ lit ".git") ->
  hd_error (run remote_re b (sep :: owner ++ lit "/" ++ repo ++ git)) = Some (m, rest, c) ->
  group (Some m :: c) 1 = Some owner /\ group (Some m :: c) 2 = Some repo.
Proof.
  intros (_ & Hsep & Ho0 & Ho & Hr0 & Hr & Hg) Hrepo Hhd.
  apply hd_remote in Hhd as (sep' & owner' & repo' & git' & Ht' & -> & Hmax).
  destruct Ht' as (Es & _ & _ & Ho' & Hr0' & Hr' & Hg').
  cbn [app] in Es. injection Es as <- Es.
  apply split_first_slash in Es as [<- Es]; [|assumption|assumption].
  cbn [group nth].
  assert (Er : repo' = repo).
  { destruct Hg as [->| ->], Hg' as [->| ->].
    - now rewrite !app_nil_r in Es.
    - rewrite app_nil_r in Es. now apply (Hrepo eq_refl repo' Hr0') in Es.
    - rewrite app_nil_r in Es. symmetry in Es. now apply (Hmax eq_refl repo Hr0) in Es.
    - now apply app_inv_tail in Es. }
  now rewrite Er.
Qed.

(** *** What [trim] takes away *)

Lemma trimStart_split (s : str) :
  exists a, s = a ++ trimStart s /\ forallb is_space a = true /\
            (forall c t, trimStart s = c :: t -> is_space c = false).
Proof.
  induction s as [|x s (a & E & Ha & Hh)]; cbn [trimStart].
  - exists []. repeat split. discriminate.
  - destruct (is_space x) eqn:Ex.
    + exists (x :: a). cbn [app forallb]. rewrite Ex, Ha, <- E. now repeat split.
    + exists []. repeat split. now intros c t [= <- _].
Qed.

Lemma trim_split (s : str) :
  exists a b,
    s = a ++ trim s ++ b /\ forallb is_space a = true /\ forallb is_space b = true /\
    (forall c t, trim s = c :: t -> is_space c = false) /\
    (forall t c, trim s = t ++ [c] -> is_space c = false).
Proof.
  destruct (trimStart_split s) as (a & Ea & Ha & Hhead).
  destruct (trimStart_split (rev (trimStart s))) as (b & Eb & Hb & Hlast).
  assert (Eu : trimStart s = trim s ++ rev b).
  { unfold trim. rewrite <- rev_app_distr, <- Eb. now rewrite rev_involutive. }
  exists a, (rev b). repeat split.
  - now rewrite <- Eu.
  - exact Ha.
  - rewrite forallb_forall in *. intros x Hx. apply Hb. now apply in_rev.
  - intros c t Et. rewrite Et in Eu. exact (Hhead c _ Eu).
  - intros t c Et. apply (Hlast c (rev t)). fold (trim s) in Et.
    unfold trim in Et. rewrite <- (rev_involutive (trimStart (rev (trimStart s)))), Et.
    rewrite rev_unit. reflexivity.
Qed.

Lemma is_space_listed (c : ascii) : is_space c = existsb (chr_eqb c) js_space.
Proof. destruct c as [[] [] [] [] [] [] [] []]; reflexivity. Qed.

(** C7: the resolver gives "Acme/Widgets" for the SSH-style URL with
    [.git] and for the HTTPS-style URL without it, with and without the line
    feed git prints after them; it gives nothing when the git command fails,
    and nothing exactly when the URL has no trailing owner/repo part; it
    gives a slug exactly when that slug is the owner and the repository name
    of the leftmost such part, whole, with the suffix [.git] dropped.  The
    URL is the output without the white space around it: tab, line feed,
    vertical tab, form feed, carriage return, space and no-break space. *)
Theorem getGitRepoInfo_spec :
  getGitRepoInfo (Some (lit "git@github.com:Acme/Widgets.git")) = Some (lit "Acme/Widgets") /\
  getGitRepoInfo (Some (lit "https://github.com/Acme/Widgets")) = Some (lit "Acme/Widgets") /\
  getGitRepoInfo (Some (line "git@github.com:Acme/Widgets.git")) = Some (lit "Acme/Widgets") /\
  getGitRepoInfo (Some (line "https://github.com/Acme/Widgets")) = Some (lit "Acme/Widgets") /\
  getGitRepoInfo None = None /\
  (forall out : str,
      getGitRepoInfo (Some out) = None <->
      (forall pre owner repo git sep,
          ~ trailing_owner_repo (trim out) pre owner repo git sep)) /\
  (forall out slug : str,
      getGitRepoInfo (Some out) = Some slug <->
      exists pre owner repo git sep,
        trailing_owner_repo (trim out) pre owner repo git sep /\
        (forall pre' owner' repo' git' sep',
            trailing_owner_repo (trim out) pre' owner' repo' git' sep' ->
            List.length pre <= List.length pre') /\
        (git = [] -> forall r, r <> [] -> repo <> r ++ lit ".git") /\
        slug = owner ++ lit "/" ++ repo) /\
  (forall out : str,
      exists a b,
        out = a ++ trim out ++ b /\
        forallb is_space a = true /\ forallb is_space b = true /\
        (forall c t, trim out = c :: t -> is_space c = false) /\
        (forall t c, trim out = t ++ [c] -> is_space c = false)) /\
  (forall c : ascii, is_space c = true <-> In c js_space).
Proof.
  split; [reflexivity|]. split; [reflexivity|]. split; [reflexivity|].
  split; [reflexivity|]. split; [reflexivity|].
  assert (Hslug : forall out slug : str,
      getGitRepoInfo (Some out) = Some slug <->
      exists pre owner repo git sep,
        trailing_owner_repo (trim out) pre owner repo git sep /\
        (forall pre' owner' repo' git' sep',
            trailing_owner_repo (trim out) pre' owner' repo' git' sep' ->
            List.length pre <= List.length pre') /\
        (git = [] -> forall r, r <> [] -> repo <> r ++ lit ".git") /\
        slug = owner ++ lit "/" ++ repo).
  { intros out slug. split.
    - unfold getGitRepoInfo, exec.
      destruct (search remote_re true (trim out)) as [res|] eqn:E; [|discriminate].
      apply search_first in E as (pre & s' & m & rest & c & Eu & H & -> & Hfirst).
      apply hd_remote in H as (sep & owner & repo & git & Ht & -> & Hmax).
      simpl. intros [= <-]. exists pre, owner, repo, git, sep.
      split; [exact (trailing_shift _ _ _ _ _ _ _ Eu Ht)|].
      split; [|split; [exact Hmax|reflexivity]].
      intros pre' owner' repo' git' sep' (Eu' & Ht').
      destruct (Nat.le_gt_cases (List.length pre) (List.length pre')) as [Hle|Hlt];
        [exact Hle|exfalso].
      rewrite Eu in Eu'.
      destruct (app_eq_shorter _ _ _ _ Eu' Hlt) as (x & p2 & Ep & Es).
      apply (remote_matches (true && is_nil pre') (x :: p2 ++ s') owner' repo' git' sep').
      + rewrite <- Es. split; [reflexivity|exact Ht'].
      + exact (Hfirst pre' x p2 Ep).
    - intros (pre & owner & repo & git & sep & Ht & Hleft & Hrepo & ->).
      pose proof Ht as (Eu & Hrest).
      unfold getGitRepoInfo, exec. rewrite Eu.
      rewrite search_skip.
      2: { intros p1 x p2 b Ep.
           destruct (run remote_re b (x :: p2 ++ sep :: owner ++ lit "/" ++ repo ++ git))
             as [|a l] eqn:E; [reflexivity|exfalso].
           assert (Hin : In a (run remote_re b
                                 (x :: p2 ++ sep :: owner ++ lit "/" ++ repo ++ git)))
             by (rewrite E; now left).
           destruct a as [[m rest] c].
           apply run_remote_In in Hin as (sep' & owner' & repo' & git' & Ht' & _).
           assert (Hl : List.length pre <= List.length p1).
           { apply (Hleft p1 owner' repo' git' sep').
             apply trailing_shift
               with (s := x :: p2 ++ sep :: owner ++ lit "/" ++ repo ++ git);
               [|exact Ht'].
             rewrite Eu, Ep, <- app_assoc. reflexivity. }
           rewrite Ep, length_app in Hl. cbn [List.length] in Hl. lia. }
      rewrite search_eq.
      assert (Ht0 : trailing_owner_repo (sep :: owner ++ lit "/" ++ repo ++ git) []
                      owner repo git sep) by (split; [reflexivity|exact Hrest]).
      destruct (run remote_re (true && is_nil pre) (sep :: owner ++ lit "/" ++ repo ++ git))
        as [|[[m rest] c] l] eqn:E.
      + exfalso. exact (remote_matches _ _ _ _ _ _ Ht0 E).
      + assert (Hhd : hd_error (run remote_re (true && is_nil pre)
                                  (sep :: owner ++ lit "/" ++ repo ++ git))
                      = Some (m, rest, c)) by (now rewrite E).
        destruct (remote_first_match _ _ _ _ _ _ _ _ Ht0 Hrepo Hhd) as [E1 E2].
        now rewrite E1, E2. }
  split; [|split; [exact Hslug|split; [exact trim_split|]]].
  - intros out. split.
    + intros HN pre owner repo git sep Ht.
      unfold getGitRepoInfo, exec in HN.
      destruct (search remote_re true (trim out)) as [res|] eqn:E.
      * apply search_Some in E as (pre' & s' & b & m & rest & c & Eu & H & ->).
        apply hd_remote in H as (sep' & owner' & repo' & git' & _ & -> & _).
        discriminate.
      * destruct Ht as (Eu & Ht).
        pose proof (search_None _ _ _ E pre _ Eu) as Hrun.
        apply (remote_matches (true && is_nil pre) _ owner repo git sep) in Hrun;
          [exact Hrun|]. split; [reflexivity|exact Ht].
    + intros HN. destruct (getGitRepoInfo (Some out)) as [slug|] eqn:E; [|reflexivity].
      apply Hslug in E as (pre & owner & repo & git & sep & Ht & _).
      now apply HN in Ht.
  - intros c. rewrite is_space_listed, existsb_exists. split.
    + intros (x & Hx & E). apply chr_eqb_eq in E. now subst x.
    + intros Hc. exists c. split; [exact Hc|apply chr_eqb_refl].
Qed.

(** ** Trace discipline of the combinators *)

Section Keeps.

Variable W : Type.
Variable ssh : NodeSSH W.
Variable f : Event -> bool.
Variables may_wait may_exit : bool.

Lemma keeps_ret {A} (a : A) : keeps f may_wait may_exit (ret (W:=W) a).
Proof.
  intros s. split; [|exact I]. exists []. simpl. now rewrite app_nil_r.
Qed.

Lemma keeps_throw {A} : keeps f may_wait may_exit (throw (W:=W) (A:=A)).
Proof.
  intros s. split; [|exact I]. exists []. simpl. now rewrite app_nil_r.
Qed.

Lemma keeps_emit (e : Event) : f e = true -> keeps f may_wait may_exit (emit (W:=W) e).
Proof.
  intros He s. split; [|exact I]. exists [e]. simpl. now rewrite He.
Qed.

Lemma keeps_bind {A B} (m : M W A) (k : A -> M W B) :
  keeps f may_wait may_exit m ->
  (forall a, keeps f may_wait may_exit (k a)) ->
  keeps f may_wait may_exit (bind m k).
Proof.
  intros Hm Hk s. unfold bind. destruct (Hm s) as [[l [El Hl]] Hr].
  destruct (m s) as [a s1|s1|n s1|s1]; simpl in *;
    try (split; [now exists l|assumption]).
  destruct (Hk a s1) as [[l' [El' Hl']] Hr']. split; [|assumption].
  exists (l ++ l'). rewrite El', El, app_assoc, forallb_app, Hl, Hl'. now split.
Qed.

Lemma keeps_try_catch {A} (m h : M W A) :
  keeps f may_wait may_exit m ->
  keeps f may_wait may_exit h ->
  keeps f may_wait may_exit (try_catch m h).
Proof.
  intros Hm Hh s. unfold try_catch. destruct (Hm s) as [[l [El Hl]] Hr].
  destruct (m s) as [a s1|s1|n s1|s1]; simpl in *;
    try (split; [now exists l|assumption]).
  destruct (Hh s1) as [[l' [El' Hl']] Hr']. split; [|assumption].
  exists (l ++ l'). rewrite El', El, app_assoc, forallb_app, Hl, Hl'. now split.
Qed.

Lemma keeps_when (b : bool) (m : M W unit) :
  keeps f may_wait may_exit m -> keeps f may_wait may_exit (when b m).
Proof. destruct b; [trivial|]. intros _. apply keeps_ret. Qed.

Lemma keeps_ssh_connect (host username privateKeyPath : str) :
  f (EvConnect host username privateKeyPath) = true ->
  keeps f may_wait may_exit (ssh_connect ssh host username privateKeyPath).
Proof.
  intros He s. unfold ssh_connect.
  destruct (connect ssh (world s) host username privateKeyPath) as [[] w];
    (split; [|exact I]); eexists; simpl; (split; [reflexivity|]);
    simpl; now rewrite He.
Qed.

Lemma keeps_ssh_execCommand (cmd : str) (cwd : option str) :
  f (EvExec cmd cwd) = true ->
  keeps f may_wait may_exit (ssh_execCommand ssh cmd cwd).
Proof.
  intros He s. unfold ssh_execCommand.
  destruct (execCommand ssh (world s) cmd cwd) as [[r|] w];
    (split; [|exact I]); eexists; simpl; (split; [reflexivity|]);
    simpl; now rewrite He.
Qed.

End Keeps.

Lemma keeps_wait {W A} (f : Event -> bool) (may_exit : bool) :
  keeps f true may_exit (wait (W:=W) (A:=A)).
Proof.
  intros s. split; [|reflexivity]. exists []. simpl. now rewrite app_nil_r.
Qed.

(** Taking a computation apart down to the events it emits; what is left
    are the side conditions on events, which compute. *)
Ltac keeps_step :=
  first
    [ apply keeps_bind; [|intros ?]
    | apply keeps_try_catch
    | apply keeps_when
    | apply keeps_ret
    | apply keeps_throw
    | apply keeps_wait
    | apply keeps_ssh_connect; reflexivity
    | apply keeps_ssh_execCommand; reflexivity
    | apply keeps_emit; reflexivity
    | match goal with
      | |- keeps _ _ _ (if ?b then _ else _) => destruct b
      | |- keeps _ _ _ (match ?x with Some _ => _ | None => _ end) => destruct x
      end ].

Ltac keeps_tac :=
  unfold connectPhase, preparePhase, pullPhase, restartPhase, summaryPhase,
    frameworkTasks, generateDeploymentSummary, updateRemoteEnv,
    connectToServer, runCommand, out;
  repeat keeps_step.

Section KeepsSequencer.

Variable W : Type.
Variable ssh : NodeSSH W.

Lemma loop_not_dispose (projectPath : str) (choices : list str) (script : list Step) :
  keeps not_dispose true false (interactiveLoop ssh projectPath choices script).
Proof. induction script as [|st rest IH]; simpl; keeps_tac; exact IH. Qed.

Lemma loop_not_restarting (projectPath : str) (choices : list str) (script : list Step) :
  keeps not_restarting true false (interactiveLoop ssh projectPath choices script).
Proof. induction script as [|st rest IH]; simpl; keeps_tac; exact IH. Qed.

Lemma loop_any_event (projectPath : str) (choices : list str) (script : list Step) :
  keeps any_event true false (interactiveLoop ssh projectPath choices script).
Proof. induction script as [|st rest IH]; simpl; keeps_tac; exact IH. Qed.

Lemma deployBody_not_dispose (env : Env) (options : Options) (script : list Step)
    (project host username privateKeyPath : str) :
  keeps not_dispose true false
    (deployBody ssh env options script project host username privateKeyPath).
Proof.
  unfold deployBody, beforeTasks, afterTasks, interactiveMode. keeps_tac.
  apply loop_not_dispose.
Qed.

End KeepsSequencer.

(** ** The world follows the trace *)

Section Recorded.

Variable W : Type.
Variable ssh : NodeSSH W.

Lemma replay_app (l1 l2 : list Event) (w : W) :
  replay ssh (l1 ++ l2) w = replay ssh l2 (replay ssh l1 w).
Proof. unfold replay. apply fold_left_app. Qed.

Lemma recorded_ret {A} (a : A) : recorded ssh (ret (W:=W) a).
Proof. intros s. exists []. simpl. now rewrite app_nil_r. Qed.

Lemma recorded_throw {A} : recorded ssh (throw (W:=W) (A:=A)).
Proof. intros s. exists []. simpl. now rewrite app_nil_r. Qed.

Lemma recorded_wait {A} : recorded ssh (wait (W:=W) (A:=A)).
Proof. intros s. exists []. simpl. now rewrite app_nil_r. Qed.

Lemma recorded_process_exit {A} (n : nat) : recorded ssh (process_exit (W:=W) (A:=A) n).
Proof. intros s. exists []. simpl. now rewrite app_nil_r. Qed.

Lemma recorded_emit (e : Event) :
  (forall w, step_world ssh w e = w) -> recorded ssh (emit (W:=W) e).
Proof. intros He s. exists [e]. simpl. now rewrite He. Qed.

Lemma recorded_then {A B} (m : M W A) (s s1 : State W) (r : Res W B) :
  (exists l, trace s1 = trace s ++ l /\ world s1 = replay ssh l (world s)) ->
  (exists l, trace (final r) = trace s1 ++ l /\ world (final r) = replay ssh l (world s1)) ->
  exists l, trace (final r) = trace s ++ l /\ world (final r) = replay ssh l (world s).
Proof.
  intros (l & El & Ew) (l' & El' & Ew'). exists (l ++ l').
  now rewrite El', El, app_assoc, Ew', Ew, replay_app.
Qed.

Lemma recorded_bind {A B} (m : M W A) (k : A -> M W B) :
  recorded ssh m -> (forall a, recorded ssh (k a)) -> recorded ssh (bind m k).
Proof.
  intros Hm Hk s. unfold bind. pose proof (Hm s) as H.
  destruct (m s) as [a s1|s1|n s1|s1]; simpl in *; try exact H.
  exact (recorded_then m s s1 (k a s1) H (Hk a s1)).
Qed.

Lemma recorded_try_catch {A} (m h : M W A) :
  recorded ssh m -> recorded ssh h -> recorded ssh (try_catch m h).
Proof.
  intros Hm Hh s. unfold try_catch. pose proof (Hm s) as H.
  destruct (m s) as [a s1|s1|n s1|s1]; simpl in *; try exact H.
  exact (recorded_then m s s1 (h s1) H (Hh s1)).
Qed.

Lemma recorded_when (b : bool) (m : M W unit) :
  recorded ssh m -> recorded ssh (when b m).
Proof. destruct b; [trivial|]. intros _. apply recorded_ret. Qed.

Lemma recorded_ssh_connect (host username privateKeyPath : str) :
  recorded ssh (ssh_connect ssh host username privateKeyPath).
Proof.
  intros s. unfold ssh_connect. exists [EvConnect host username privateKeyPath].
  cbn [replay fold_left step_world].
  destruct (connect ssh (world s) host username privateKeyPath) as [[] w]; now split.
Qed.

Lemma recorded_ssh_execCommand (cmd : str) (cwd : option str) :
  recorded ssh (ssh_execCommand ssh cmd cwd).
Proof.
  intros s. unfold ssh_execCommand. exists [EvExec cmd cwd].
  cbn [replay fold_left step_world].
  destruct (execCommand ssh (world s) cmd cwd) as [[r|] w]; now split.
Qed.

End Recorded.

Ltac recorded_step :=
  first
    [ apply recorded_bind; [|intros ?]
    | apply recorded_try_catch
    | apply recorded_when
    | apply recorded_ret
    | apply recorded_throw
    | apply recorded_wait
    | apply recorded_process_exit
    | apply recorded_ssh_connect
    | apply recorded_ssh_execCommand
    | apply recorded_emit; intros ?; reflexivity
    | match goal with
      | |- recorded _ (if ?b then _ else _) => destruct b
      | |- recorded _ (match ?x with Some _ => _ | None => _ end) => destruct x
      end ].

Ltac recorded_tac :=
  unfold connectPhase, preparePhase, pullPhase, restartPhase, summaryPhase,
    frameworkTasks, generateDeploymentSummary, updateRemoteEnv,
    connectToServer, runCommand, out;
  repeat recorded_step.

Section RecordedSequencer.

Variable W : Type.
Variable ssh : NodeSSH W.

Lemma loop_recorded (projectPath : str) (choices : list str) (script : list Step) :
  recorded ssh (interactiveLoop ssh projectPath choices script).
Proof. induction script as [|st rest IH]; simpl; recorded_tac; exact IH. Qed.

(** The guarded block without its [finally]: every change of the world
    is a recorded call. *)
Lemma attempt_recorded (env : Env) (options : Options) (script : list Step)
    (project host username privateKeyPath : str) :
  recorded ssh
    (try_catch
       (deployBody ssh env options script project host username privateKeyPath)
       (bind (out MDeploymentFailed) (fun _ => out MError))).
Proof.
  unfold deployBody, beforeTasks, afterTasks, interactiveMode. recorded_tac.
  apply loop_recorded.
Qed.

End RecordedSequencer.

(** ** The sequencer: teardown *)

Lemma disposals_app (l1 l2 : list Event) :
  disposals (l1 ++ l2) = disposals l1 + disposals l2.
Proof. unfold disposals. now rewrite filter_app, length_app. Qed.

Lemma not_dispose_disposals (l : list Event) :
  forallb not_dispose l = true -> disposals l = 0.
Proof.
  unfold disposals. induction l as [|e l IH]; simpl; [reflexivity|].
  intros H. apply andb_true_iff in H as [He Hl]. unfold not_dispose in He.
  destruct (is_dispose e); [discriminate|]. now apply IH.
Qed.

Section Teardown.

Variable W : Type.
Variable ssh : NodeSSH W.
Variable env : Env.
Variable options : Options.
Variable script : list Step.

(** The project is resolved without touching the session: either a name
    comes back, with at most one line printed, or the process exits. *)
Lemma resolveProject_shape (s : State W) :
  (exists p l,
      resolveProject env options s = Ok p (mkState (world s) (trace s ++ l)) /\
      (l = [] \/ exists r, l = [EvOut (MAutoDetected p r)])) \/
  resolveProject env options s =
    Exit 1 (mkState (world s) (trace s ++ [EvOut MNotSpecified; EvOut MPleaseProvide])).
Proof.
  unfold resolveProject.
  destruct (truthy (project options)); simpl.
  - left. eexists _, []. rewrite app_nil_r. destruct s. split; [reflexivity|now left].
  - destruct (getGitRepoInfo (git_config env)) as [repo|].
    + destruct (repoMap env repo) as [p|].
      * destruct repo as [|c repo], p as [|d p]; simpl;
          first [ left; eexists _, [_]; split;
                  [reflexivity|right; eexists; reflexivity]
                | right; unfold bind, out, emit, process_exit; simpl;
                  now rewrite <- app_assoc ].
      * rewrite andb_false_r. right. unfold bind, out, emit, process_exit. simpl.
        now rewrite <- app_assoc.
    + right. unfold bind, out, emit, process_exit. simpl.
      now rewrite <- app_assoc.
Qed.

(** The guarded block ends in one of two ways: waiting at the prompt,
    with the session still held, or returning, with the disposal as the
    last thing done and the only one. *)
Lemma guarded_shape (project host username privateKeyPath : str) (s : State W) :
  (exists s' l,
      guarded ssh env options script project host username privateKeyPath s = Wait s' /\
      trace s' = trace s ++ l /\ forallb not_dispose l = true) \/
  (exists s' l,
      guarded ssh env options script project host username privateKeyPath s = Ok tt s' /\
      trace s' = trace s ++ l ++ [EvDispose] /\ forallb not_dispose l = true).
Proof.
  unfold guarded, try_finally, try_catch.
  destruct (deployBody_not_dispose W ssh env options script project host username
              privateKeyPath s) as [[l [El Hl]] Hr].
  destruct (deployBody ssh env options script project host username privateKeyPath s)
    as [[] s1|s1|n s1|s1]; simpl in *.
  - right. eexists _, l. split; [reflexivity|]. simpl.
    rewrite El, <- app_assoc. now split.
  - right. eexists _, (l ++ [EvOut MDeploymentFailed; EvOut MError]).
    split; [reflexivity|]. simpl. rewrite El, <- !app_assoc. split; [reflexivity|].
    now rewrite forallb_app, Hl.
  - discriminate.
  - left. now exists s1, l.
Qed.

(** The guarded block, when it returns: the session is disposed of, once,
    in the world the steps before have led to. *)
Lemma guarded_world (project host username privateKeyPath : str) (s s' : State W) :
  guarded ssh env options script project host username privateKeyPath s = Ok tt s' ->
  exists l,
    forallb not_dispose l = true /\
    s' = mkState (dispose ssh (replay ssh l (world s))) (trace s ++ l ++ [EvDispose]).
Proof.
  unfold guarded, try_finally.
  pose proof (attempt_recorded W ssh env options script project host username
                privateKeyPath s) as (l & El & Ew).
  assert (Hl : forallb not_dispose l = true).
  { unfold try_catch in El.
    destruct (deployBody_not_dispose W ssh env options script project host username
                privateKeyPath s) as [[l0 [El0 Hl0]] _].
    destruct (deployBody ssh env options script project host username privateKeyPath s)
      as [[] s1|s1|n s1|s1]; cbn [final out emit bind trace] in *;
      rewrite El0 in El; rewrite <- ?app_assoc in El; apply app_inv_head in El; subst l;
      rewrite ?forallb_app, Hl0; reflexivity. }
  destruct (try_catch _ _ s) as [[] s1|s1|n s1|s1]; cbn [final ssh_dispose] in *;
    try discriminate.
  intros [= <-]. exists l. split; [exact Hl|]. now rewrite El, Ew, <- app_assoc.
Qed.

End Teardown.

(** C9: on every exit path of [deploy] that reaches the connection phase
    (the trace holds a connection attempt) and on which the process ends,
    the session is disposed exactly once, as the last step: the world the
    run ends in is the one [dispose] gives, applied to the world that the
    recorded steps before it, none of them a disposal, have led to. *)
Theorem session_released_once (W : Type) (ssh : NodeSSH W) (env : Env)
    (options : Options) (script : list Step) (w : W) :
  existsb is_connect (trace (final (deploy ssh env options script (mkState w [])))) = true ->
  exit_status (deploy ssh env options script (mkState w [])) <> None ->
  disposals (trace (final (deploy ssh env options script (mkState w [])))) = 1 /\
  last (trace (final (deploy ssh env options script (mkState w [])))) (EvOut MConnecting)
    = EvDispose /\
  exists l,
    trace (final (deploy ssh env options script (mkState w []))) = l ++ [EvDispose] /\
    disposals l = 0 /\
    world (final (deploy ssh env options script (mkState w []))) =
      dispose ssh (replay ssh l w).
Proof.
  unfold deploy, bind.
  destruct (resolveProject_shape W env options (mkState w [])) as [(p & l & E & Hl)|E];
    rewrite E; clear E; simpl.
  2: { intros H. discriminate. }
  assert (Hl' : existsb is_connect l = false /\ disposals l = 0 /\
                forall w0, replay ssh l w0 = w0).
  { destruct Hl as [->|[r ->]]; now repeat split. }
  destruct Hl' as (Hc & Hd & Hw). clear Hl.
  destruct (isValidProjectName p); simpl.
  2: { rewrite <- app_assoc. intros H. rewrite existsb_app, Hc in H. discriminate. }
  destruct (truthy (SSH_HOST env)); simpl.
  2: { intros H. rewrite existsb_app, Hc in H. discriminate. }
  destruct (truthy (SSH_KEY_PATH env)); simpl.
  2: { intros H. rewrite existsb_app, Hc in H. discriminate. }
  intros _.
  match goal with
  | |- context [guarded ssh env options script p ?h ?u ?k ?s] =>
      destruct (guarded ssh env options script p h u k s) as [[] s'|s'|n s'|s'] eqn:E;
        [apply guarded_world in E as (l' & Hl' & ->)
        |destruct (guarded_shape W ssh env options script p h u k s)
           as [(s0 & l0 & E0 & _)|(s0 & l0 & E0 & _)]; rewrite E in E0; discriminate E0 ..
        |]
  end; cbn [exit_status final trace world].
  - intros _. split; [|split].
    + rewrite !disposals_app, Hd, (not_dispose_disposals _ Hl'). reflexivity.
    + rewrite !app_assoc. apply last_last.
    + exists ((l ++ [EvOut MConnecting]) ++ l'). split; [now rewrite <- !app_assoc|].
      split.
      * rewrite !disposals_app, Hd, (not_dispose_disposals _ Hl'). reflexivity.
      * now rewrite !replay_app, Hw.
  - intros H. now contradiction H.
Qed.

(** ** The sequencer: exit status *)

Section ExitStatus.

Variable W : Type.
Variable ssh : NodeSSH W.
Variable env : Env.
Variable options : Options.
Variable script : list Step.

(** Without the interactive mode the body never waits and never ends
    the process: it returns or throws. *)
Lemma deployBody_settles (project host username privateKeyPath : str) :
  yes options = true ->
  keeps any_event false false
    (deployBody ssh env options script project host username privateKeyPath).
Proof.
  intros Hyes. unfold deployBody, beforeTasks, afterTasks, interactiveMode.
  rewrite Hyes. cbn [negb when]. keeps_tac.
Qed.

Lemma guarded_returns (project host username privateKeyPath : str) (s : State W) :
  yes options = true ->
  exists s', guarded ssh env options script project host username privateKeyPath s
             = Ok tt s'.
Proof.
  intros Hyes. unfold guarded, try_finally, try_catch.
  destruct (deployBody_settles project host username privateKeyPath Hyes s) as [_ Hr].
  destruct (deployBody ssh env options script project host username privateKeyPath s)
    as [[] s1|s1|n s1|s1]; simpl in *; try discriminate; eexists; reflexivity.
Qed.

(** When the connection fails the guarded block prints the failure and
    disposes of the session; nothing else happens. *)
Lemma guarded_connect_fails (project host username privateKeyPath : str) (s : State W) :
  fst (connect ssh (world s) host username privateKeyPath) = false ->
  guarded ssh env options script project host username privateKeyPath s =
  Ok tt (mkState
           (dispose ssh (snd (connect ssh (world s) host username privateKeyPath)))
           (trace s ++ [EvConnect host username privateKeyPath;
                        EvOut MFailedToConnect;
                        EvOut MDeploymentFailed; EvOut MError; EvDispose])).
Proof.
  intros Hc.
  unfold guarded, try_finally, try_catch, deployBody, beforeTasks, connectPhase,
    connectToServer, try_catch, bind, ssh_connect.
  destruct (connect ssh (world s) host username privateKeyPath) as [ok w'].
  simpl in Hc. subst ok. simpl. now rewrite <- !app_assoc.
Qed.

End ExitStatus.

(** C4, as amended: once the project name and the credentials pass the
    checks, a non-interactive run ends with status 0 whatever the remote
    commands return, a pull with a non-zero status included; when the
    connection fails no remote command is submitted and the session is
    disposed of, and the status is 0 as well. *)
Theorem exit_status_after_checks (W : Type) (ssh : NodeSSH W) (env : Env)
    (options : Options) (script : list Step) (w : W) (p h k : str) :
  project options = Some p -> isValidProjectName p = true ->
  SSH_HOST env = Some h -> h <> [] ->
  SSH_KEY_PATH env = Some k -> k <> [] ->
  yes options = true ->
  exit_status (deploy ssh env options script (mkState w [])) = Some 0 /\
  (fst (connect ssh w h (or_default (SSH_USERNAME env) (lit "root")) k) = false ->
   commands (trace (final (deploy ssh env options script (mkState w [])))) = [] /\
   disposals (trace (final (deploy ssh env options script (mkState w [])))) = 1).
Proof.
  intros Hp Hv Hh Hh0 Hk Hk0 Hyes.
  assert (Hp0 : p <> []) by (intros ->; discriminate).
  assert (E : deploy ssh env options script (mkState w []) =
              guarded ssh env options script p h
                (or_default (SSH_USERNAME env) (lit "root")) k
                (mkState w [EvOut MConnecting])).
  { unfold deploy, resolveProject, bind. rewrite Hp, Hh, Hk.
    destruct p as [|c p]; [now contradiction Hp0|].
    destruct h as [|c' h]; [now contradiction Hh0|].
    destruct k as [|c'' k]; [now contradiction Hk0|].
    cbn [truthy negb ret]. rewrite Hv. reflexivity. }
  rewrite E. split.
  - destruct (guarded_returns W ssh env options script p h
                (or_default (SSH_USERNAME env) (lit "root")) k
                (mkState w [EvOut MConnecting]) Hyes) as [s' ->].
    reflexivity.
  - intros Hc. rewrite guarded_connect_fails by exact Hc. now split.
Qed.

(** ** The sequencer: the interactive mode and the framework block *)

Lemma forallb_not_In (f : Event -> bool) (l : list Event) (e : Event) :
  forallb f l = true -> f e = false -> ~ In e l.
Proof.
  intros Hl He Hin. rewrite forallb_forall in Hl. apply Hl in Hin. congruence.
Qed.

Lemma forallb_prompts (f : Event -> bool) (l : list Event) :
  (forall e, f e = true -> is_prompt e = false) ->
  forallb f l = true -> prompts l = 0.
Proof.
  intros Hf. unfold prompts. induction l as [|e l IH]; simpl; [reflexivity|].
  intros H. apply andb_true_iff in H as [He Hl]. rewrite (Hf e He). now apply IH.
Qed.

Lemma prompts_app (l1 l2 : list Event) : prompts (l1 ++ l2) = prompts l1 + prompts l2.
Proof. unfold prompts. now rewrite filter_app, length_app. Qed.

Lemma commands_app (l1 l2 : list Event) : commands (l1 ++ l2) = commands l1 ++ commands l2.
Proof.
  induction l1 as [|e l1 IH]; simpl; [reflexivity|].
  destruct e; simpl; now rewrite IH.
Qed.

Lemma bind_Ok {W A B} (m : M W A) (k : A -> M W B) (s s' : State W) (b : B) :
  bind m k s = Ok b s' -> exists a s1, m s = Ok a s1 /\ k a s1 = Ok b s'.
Proof.
  unfold bind. destruct (m s) as [a s1|s1|n s1|s1]; try discriminate.
  intros H. now exists a, s1.
Qed.

Section Modes.

Variable W : Type.
Variable ssh : NodeSSH W.
Variable env : Env.
Variable options : Options.
Variable script : list Step.

(** [deploy] either stops at one of its checks, having printed only, or
    goes on to the guarded block. *)
Lemma deploy_cases (w : W) :
  (exists t,
      deploy ssh env options script (mkState w []) = Exit 1 (mkState w t) /\
      forallb is_check_output t = true) \/
  (exists p h u k t,
      deploy ssh env options script (mkState w []) =
      guarded ssh env options script p h u k (mkState w t) /\
      forallb is_check_output t = true).
Proof.
  unfold deploy, bind.
  destruct (resolveProject_shape W env options (mkState w [])) as [(p & l & E & Hl)|E];
    rewrite E; clear E; simpl.
  2: { left. eexists. split; [reflexivity|reflexivity]. }
  assert (Hl' : forallb is_check_output l = true)
    by (destruct Hl as [->|[r ->]]; reflexivity).
  destruct (isValidProjectName p); simpl.
  2: { left. eexists. split; [reflexivity|].
       now rewrite !forallb_app, Hl'. }
  destruct (truthy (SSH_HOST env)); simpl.
  2: { left. eexists. split; [reflexivity|]. now rewrite !forallb_app, Hl'. }
  destruct (truthy (SSH_KEY_PATH env)); simpl.
  2: { left. eexists. split; [reflexivity|]. now rewrite !forallb_app, Hl'. }
  right. eexists p, _, _, _, _. split; [reflexivity|].
  now rewrite !forallb_app, Hl'.
Qed.

(** What the guarded block adds after the body: nothing while the body
    waits, the disposal when it returns, the failure lines and the
    disposal when it throws. *)
Lemma guarded_trace (project host username privateKeyPath : str) (s : State W) :
  exists tail,
    trace (final (guarded ssh env options script project host username privateKeyPath s))
    = trace (final (deployBody ssh env options script project host username
                      privateKeyPath s)) ++ tail /\
    (tail = [] \/ tail = [EvDispose] \/
     tail = [EvOut MDeploymentFailed; EvOut MError; EvDispose]).
Proof.
  unfold guarded, try_finally, try_catch.
  destruct (deployBody ssh env options script project host username privateKeyPath s)
    as [[] s1|s1|n s1|s1]; simpl.
  - exists [EvDispose]. tauto.
  - exists [EvOut MDeploymentFailed; EvOut MError; EvDispose].
    rewrite <- !app_assoc. tauto.
  - exists []. rewrite app_nil_r. tauto.
  - exists []. rewrite app_nil_r. tauto.
Qed.

Lemma beforeTasks_not_restarting (project host username privateKeyPath : str) :
  keeps not_restarting true false
    (beforeTasks ssh options script project host username privateKeyPath).
Proof.
  unfold beforeTasks, interactiveMode. keeps_tac. apply loop_not_restarting.
Qed.

Lemma frameworkTasks_not_restarting (projectPath : str) :
  keeps not_restarting true false (frameworkTasks ssh (framework options) projectPath).
Proof. keeps_tac. Qed.

Lemma afterTasks_any_event (project : str) :
  keeps any_event true false (afterTasks ssh env options project).
Proof. unfold afterTasks. keeps_tac. Qed.

Lemma deployBody_not_prompt (project host username privateKeyPath : str) :
  yes options = true ->
  keeps not_prompt false false
    (deployBody ssh env options script project host username privateKeyPath).
Proof.
  intros Hyes. unfold deployBody, beforeTasks, afterTasks, interactiveMode.
  rewrite Hyes. cbn [negb when]. keeps_tac.
Qed.

End Modes.

Section FrameworkBlock.

Variable W : Type.
Variable ssh : NodeSSH W.

(** [runCommand] returns only after submitting its command. *)
Lemma runCommand_Ok (cmd : str) (cwd : option str) (s s' : State W) (r : CommandResult) :
  runCommand ssh cmd cwd s = Ok r s' ->
  exists l, trace s' = trace s ++ EvExec cmd cwd :: l.
Proof.
  unfold runCommand, try_catch, bind, ssh_execCommand.
  destruct (execCommand ssh (world s) cmd cwd) as [[[rc ro [|x e]]|] w]; simpl.
  1, 2: intros H; inversion H; subst;
      simpl; rewrite <- ?app_assoc; eexists; reflexivity.
  discriminate.
Qed.

(** When the framework block returns, it has announced itself, and for
    [nestjs] it has run both of its steps. *)
Lemma frameworkTasks_Ok (f projectPath : str) (s s' : State W) :
  f <> [] ->
  frameworkTasks ssh (Some f) projectPath s = Ok tt s' ->
  exists l,
    trace s' = trace s ++ l /\
    In (EvOut (MHandling f)) l /\
    (toLowerCase f = lit "nestjs" \/ toLowerCase f = lit "expressjs" ->
     In (EvOut (MPrismaFor f)) l /\
     In (EvExec (lit "npx prisma generate") (Some projectPath)) l) /\
    (toLowerCase f = lit "nestjs" ->
     In (EvOut (MBuilding f)) l /\
     In (EvExec (lit "yarn build") (Some projectPath)) l).
Proof.
  intros Hf. unfold frameworkTasks.
  destruct f as [|c f']; [now contradiction Hf|]. cbn [truthy when].
  set (f := c :: f') in *.
  intros H.
  apply bind_Ok in H as ([] & s1 & H1 & H).
  apply bind_Ok in H as ([] & s2 & H2 & H).
  apply bind_Ok in H as ([] & s3 & H3 & H).
  injection H1 as <-. injection H as <-.
  assert (E2 : exists l2, trace s2 = trace s ++ EvOut (MHandling f) :: l2 /\
                 (toLowerCase f = lit "nestjs" \/ toLowerCase f = lit "expressjs" ->
                  In (EvOut (MPrismaFor f)) l2 /\
                  In (EvExec (lit "npx prisma generate") (Some projectPath)) l2)).
  { destruct (str_eqb (toLowerCase f) (lit "nestjs") || str_eqb (toLowerCase f) (lit "expressjs"))
      eqn:Eb; cbn [when] in H2.
    - apply bind_Ok in H2 as ([] & s4 & H4 & H2).
      apply bind_Ok in H2 as (r & s5 & H5 & H2).
      injection H4 as <-. injection H2 as <-.
      apply runCommand_Ok in H5 as [l5 E5]. simpl in E5.
      exists (EvOut (MPrismaFor f) :: EvExec (lit "npx prisma generate") (Some projectPath) :: l5).
      split.
      + rewrite E5, <- !app_assoc. reflexivity.
      + intros _. split; [now left|right; now left].
    - injection H2 as <-. exists []. split; [reflexivity|].
      intros [En|En]; rewrite En in Eb; discriminate. }
  destruct E2 as (l2 & E2 & Hn).
  assert (E3 : exists l3, trace s3 = trace s2 ++ l3 /\
                 (toLowerCase f = lit "nestjs" ->
                  In (EvOut (MBuilding f)) l3 /\
                  In (EvExec (lit "yarn build") (Some projectPath)) l3)).
  { destruct (str_eqb (toLowerCase f) (lit "nestjs")) eqn:Eb; cbn [when] in H3.
    - apply bind_Ok in H3 as ([] & s4 & H4 & H3).
      apply bind_Ok in H3 as (r & s5 & H5 & H3).
      injection H4 as <-. injection H3 as <-.
      apply runCommand_Ok in H5 as [l5 E5]. simpl in E5.
      exists (EvOut (MBuilding f) :: EvExec (lit "yarn build") (Some projectPath) :: l5).
      split.
      + rewrite E5, <- !app_assoc. reflexivity.
      + intros _. split; [now left|right; now left].
    - injection H3 as <-. exists []. split; [now rewrite app_nil_r|].
      intros En. rewrite En in Eb. discriminate. }
  destruct E3 as (l3 & E3 & Hb).
  exists (EvOut (MHandling f) :: l2 ++ l3 ++ [EvOut (MTasksComplete f)]).
  split; [|split; [|split]].
  - simpl. rewrite E3, E2, <- !app_assoc. reflexivity.
  - now left.
  - intros En. destruct (Hn En) as [Hn1 Hn2].
    split; right; apply in_or_app; auto.
  - intros En. destruct (Hb En) as [Hb1 Hb2].
    split; right; apply in_or_app; right; apply in_or_app; auto.
Qed.

(** The interactive loop shows its menu before anything else. *)
Lemma interactiveLoop_Ok (projectPath : str) (choices : list str) (script : list Step)
    (s s' : State W) :
  interactiveLoop ssh projectPath choices script s = Ok tt s' ->
  exists l, trace s' = trace s ++ EvPrompt choices :: l.
Proof.
  destruct script as [|st rest]; simpl; intros H.
  - discriminate.
  - apply bind_Ok in H as ([] & s1 & H1 & H). injection H1 as <-.
    match type of H with
    | ?k _ = _ =>
        assert (Hk : keeps any_event true false k)
          by (keeps_tac; apply loop_any_event)
    end.
    destruct (Hk (mkState (world s) (trace s ++ [EvPrompt choices]))) as [[l [El _]] _].
    rewrite H in El. simpl in El. exists l. now rewrite El, <- app_assoc.
Qed.

End FrameworkBlock.

Lemma In_commands (t : list Event) (cmd : str) (cwd : option str) :
  In (EvExec cmd cwd) t -> In cmd (commands t).
Proof.
  induction t as [|e t IH]; simpl; [trivial|].
  intros [->|H]; [now left|]. destruct e; simpl; auto.
Qed.

Section BothModes.

Variable W : Type.
Variable ssh : NodeSSH W.
Variable env : Env.
Variable options : Options.
Variable script : list Step.

(** In the interactive mode, what runs before the framework block
    returns only after the menu was shown. *)
Lemma beforeTasks_Ok_interactive (project host username privateKeyPath : str)
    (s s' : State W) :
  yes options = false ->
  beforeTasks ssh options script project host username privateKeyPath s = Ok tt s' ->
  In (EvOut MInteractiveMode) (trace s') /\ 1 <= prompts (trace s').
Proof.
  intros Hyes H. unfold beforeTasks in H.
  apply bind_Ok in H as ([] & s1 & _ & H).
  apply bind_Ok in H as ([] & s2 & _ & H).
  apply bind_Ok in H as ([] & s3 & _ & H).
  unfold interactiveMode in H. rewrite Hyes in H. cbn [negb when] in H.
  apply bind_Ok in H as ([] & s4 & H4 & H). injection H4 as <-.
  apply interactiveLoop_Ok in H as [l El]. simpl in El. rewrite El. split.
  - apply in_or_app. left. apply in_or_app. right. now left.
  - rewrite !prompts_app. unfold prompts at 3. simpl. lia.
Qed.

(** The restart is announced only after the framework block returned. *)
Lemma deployBody_restarting (project host username privateKeyPath : str) (s : State W) :
  ~ In (EvOut MRestarting) (trace s) ->
  In (EvOut MRestarting)
     (trace (final (deployBody ssh env options script project host username
                      privateKeyPath s))) ->
  exists s1 s2 l2 l,
    beforeTasks ssh options script project host username privateKeyPath s = Ok tt s1 /\
    frameworkTasks ssh (framework options) (projectPathOf project) s1 = Ok tt s2 /\
    trace s2 = trace s1 ++ l2 /\
    trace (final (deployBody ssh env options script project host username
                    privateKeyPath s)) = trace s2 ++ l.
Proof.
  intros Hs. unfold deployBody, bind.
  destruct (beforeTasks_not_restarting W ssh options script project host username
              privateKeyPath s) as [[l1 [E1 H1]] _].
  destruct (beforeTasks ssh options script project host username privateKeyPath s)
    as [[] s1|s1|n s1|s1]; simpl in *;
    try (rewrite E1; intros Hin; apply in_app_or in Hin as [Hin|Hin];
         [now contradiction Hs|]; now apply (forallb_not_In _ _ _ H1) in Hin).
  destruct (frameworkTasks_not_restarting W ssh options (projectPathOf project) s1)
    as [[l2 [E2 H2]] _].
  destruct (frameworkTasks ssh (framework options) (projectPathOf project) s1)
    as [[] s2|s2|n s2|s2] eqn:EF; simpl in *;
    try (rewrite E2, E1; intros Hin; apply in_app_or in Hin as [Hin|Hin];
         [apply in_app_or in Hin as [Hin|Hin];
          [now contradiction Hs|now apply (forallb_not_In _ _ _ H1) in Hin]
         |now apply (forallb_not_In _ _ _ H2) in Hin]).
  intros _.
  destruct (afterTasks_any_event W ssh env options project s2) as [[l3 [E3 _]] _].
  exists s1, s2, l2, l3. now repeat split.
Qed.

End BothModes.

Section FrameworkOrder.

Variable W : Type.
Variable ssh : NodeSSH W.
Variable env : Env.
Variable options : Options.
Variable script : list Step.

(** What [runCommand] adds to the trace when it returns: the command, then
    the lines of its output. *)
Lemma runCommand_Ok_events (cmd : str) (cwd : option str) (s s' : State W)
    (r : CommandResult) :
  runCommand ssh cmd cwd s = Ok r s' ->
  exists l,
    trace s' = trace s ++ EvExec cmd cwd :: l /\
    (l = [EvOut (MStdout (stdout r))] \/
     l = [EvOut (MStderr (stderr r)); EvOut (MStdout (stdout r))]).
Proof.
  unfold runCommand, try_catch, bind, ssh_execCommand.
  destruct (execCommand ssh (world s) cmd cwd) as [[[rc ro [|x e]]|] w]; simpl.
  1, 2: intros H; inversion H; subst; simpl; rewrite <- ?app_assoc; eexists;
    split; [reflexivity|]; auto.
  discriminate.
Qed.

(** One guarded step of the framework block: a line, a command, its
    output. *)
Lemma framework_step (b : bool) (m : Msg) (cmd : str) (cwd : option str)
    (s s' : State W) :
  when b (bind (out m) (fun _ => bind (runCommand ssh cmd cwd) (fun _ => ret tt))) s
    = Ok tt s' ->
  exists l,
    trace s' = trace s ++ l /\
    commands l = (if b then [cmd] else []) /\ prompts l = 0 /\
    (m <> MRestarting -> forallb not_restarting l = true).
Proof.
  destruct b; cbn [when].
  - intros H. apply bind_Ok in H as ([] & s1 & H1 & H).
    apply bind_Ok in H as (r & s2 & H2 & H). injection H1 as <-. injection H as <-.
    apply runCommand_Ok_events in H2 as (l & El & Hl). cbn [trace] in El.
    exists (EvOut m :: EvExec cmd cwd :: l). rewrite El, <- app_assoc.
    split; [reflexivity|].
    destruct Hl as [-> | ->]; repeat split; destruct m; try reflexivity;
      intros Hm; now contradiction Hm.
  - intros [= <-]. exists []. rewrite app_nil_r. now repeat split.
Qed.

(** The framework block, when it returns: its commands are the scripted
    ones, it shows no menu, and it opens and closes with its own lines. *)
Lemma frameworkTasks_block (fw : option str) (projectPath : str) (s s' : State W) :
  frameworkTasks ssh fw projectPath s = Ok tt s' ->
  exists block,
    trace s' = trace s ++ block /\
    commands block = frameworkCommands fw /\
    prompts block = 0 /\
    forallb not_restarting block = true /\
    (forall f, fw = Some f -> f <> [] ->
               exists mid, block = EvOut (MHandling f) :: mid ++ [EvOut (MTasksComplete f)]) /\
    (truthy fw = false -> block = []).
Proof.
  unfold frameworkTasks, frameworkCommands.
  destruct fw as [[|c f']|]; cbn [truthy when].
  1, 3: intros [= <-]; exists []; rewrite app_nil_r; repeat split;
    intros f [= <-] Hf; now contradiction Hf.
  set (f := c :: f') in *. intros H.
  apply bind_Ok in H as ([] & s1 & H1 & H).
  apply bind_Ok in H as ([] & s2 & H2 & H).
  apply bind_Ok in H as ([] & s3 & H3 & H).
  injection H1 as <-. injection H as <-.
  apply framework_step in H2 as (l2 & E2 & C2 & P2 & R2).
  apply framework_step in H3 as (l3 & E3 & C3 & P3 & R3).
  cbn [trace] in E2 |- *.
  exists (EvOut (MHandling f) :: (l2 ++ l3) ++ [EvOut (MTasksComplete f)]).
  split; [rewrite E3, E2, <- !app_assoc; reflexivity|].
  split; [|split; [|split; [|split]]].
  - cbn [commands]. rewrite !commands_app, C2, C3. cbn [commands]. now rewrite app_nil_r.
  - change (EvOut (MHandling f) :: (l2 ++ l3) ++ [EvOut (MTasksComplete f)])
      with ([EvOut (MHandling f)] ++ (l2 ++ l3) ++ [EvOut (MTasksComplete f)]).
    rewrite !prompts_app, P2, P3. reflexivity.
  - cbn [forallb not_restarting]. rewrite !forallb_app, R2, R3 by discriminate. reflexivity.
  - intros g [= <-] _. now exists (l2 ++ l3).
  - discriminate.
Qed.

Lemma loop_not_handling (projectPath : str) (choices : list str) (sc : list Step) :
  keeps not_handling true false (interactiveLoop ssh projectPath choices sc).
Proof. induction sc as [|st rest IH]; simpl; keeps_tac; exact IH. Qed.

Lemma beforeTasks_not_handling (project host username privateKeyPath : str) :
  keeps not_handling true false
    (beforeTasks ssh options script project host username privateKeyPath).
Proof.
  unfold beforeTasks, interactiveMode. keeps_tac. apply loop_not_handling.
Qed.

(** What follows the framework block opens with the restart line and
    shows no menu. *)
Lemma afterTasks_opens (project : str) (s : State W) :
  exists l,
    trace (final (afterTasks ssh env options project s)) =
      trace s ++ EvOut MRestarting :: l /\
    forallb not_prompt l = true.
Proof.
  assert (K : keeps not_prompt true false
                (bind (bind (runCommand ssh
                               (lit "pm2 restart " ++ project ++ lit " || pm2 restart index")
                               (Some (projectPathOf project)))
                            (fun _ => bind (out MRestartComplete)
                                        (fun _ => out (MSuccessful project))))
                      (fun _ => summaryPhase env options project)))
    by keeps_tac.
  destruct (K (mkState (world s) (trace s ++ [EvOut MRestarting]))) as [[l [El Hl]] _].
  exists l. split; [|exact Hl].
  change (afterTasks ssh env options project s)
    with (bind (bind (runCommand ssh
                        (lit "pm2 restart " ++ project ++ lit " || pm2 restart index")
                        (Some (projectPathOf project)))
                     (fun _ => bind (out MRestartComplete)
                                 (fun _ => out (MSuccessful project))))
               (fun _ => summaryPhase env options project)
               (mkState (world s) (trace s ++ [EvOut MRestarting]))).
  rewrite El. cbn [trace]. now rewrite <- app_assoc.
Qed.

(** A run that announces the restart: the trace up to the framework
    block, the block, the restart line and the rest. *)
Lemma deployBody_order (project host username privateKeyPath : str) (t : list Event)
    (w : W) :
  forallb is_check_output t = true ->
  In (EvOut MRestarting)
     (trace (final (deployBody ssh env options script project host username
                      privateKeyPath (mkState w t)))) ->
  exists before block rest,
    trace (final (deployBody ssh env options script project host username
                    privateKeyPath (mkState w t))) =
      before ++ block ++ EvOut MRestarting :: rest /\
    ~ In (EvOut MRestarting) (before ++ block) /\
    prompts block = 0 /\ prompts rest = 0 /\
    (yes options = false ->
     In (EvOut MInteractiveMode) before /\ 1 <= prompts before) /\
    commands block = frameworkCommands (framework options) /\
    (forall f, framework options = Some f -> f <> [] ->
               ~ In (EvOut (MHandling f)) before /\
               exists mid, block = EvOut (MHandling f) :: mid ++ [EvOut (MTasksComplete f)]) /\
    (truthy (framework options) = false -> block = []).
Proof.
  intros Ht Hin.
  assert (Hnr : ~ In (EvOut MRestarting) t) by now apply (forallb_not_In _ _ _ Ht).
  pose proof Hin as Hin'.
  apply deployBody_restarting in Hin' as (s1 & s2 & l2 & l & E1 & E2 & _ & _);
    [|exact Hnr].
  destruct (beforeTasks_not_restarting W ssh options script project host username
              privateKeyPath (mkState w t)) as [[l1 [El1 Hr1]] _].
  destruct (beforeTasks_not_handling project host username privateKeyPath (mkState w t))
    as [[l1' [El1' Hh1]] _].
  rewrite E1 in El1, El1'. cbn [final trace] in El1, El1'.
  assert (l1' = l1) by (rewrite El1 in El1'; now apply app_inv_head in El1').
  subst l1'. clear El1'.
  destruct (frameworkTasks_block _ _ _ _ E2) as (block & Eb & Cb & Pb & Rb & Sb & Nb).
  destruct (afterTasks_opens project s2) as (rest & Er & Hp).
  exists (trace s1), block, rest.
  split; [|split; [|split; [|split; [|split; [|split; [|split]]]]]].
  - unfold deployBody, bind. rewrite E1, E2. rewrite Er, Eb, <- app_assoc. reflexivity.
  - rewrite El1. intros H. apply in_app_or in H as [H|H];
      [apply in_app_or in H as [H|H]|].
    + now apply Hnr.
    + now apply (forallb_not_In _ _ _ Hr1) in H.
    + now apply (forallb_not_In _ _ _ Rb) in H.
  - exact Pb.
  - apply (forallb_prompts not_prompt); [|exact Hp].
    intros e. unfold not_prompt. now destruct (is_prompt e).
  - intros Hyes.
    exact (beforeTasks_Ok_interactive W ssh options script project host username
             privateKeyPath _ _ Hyes E1).
  - exact Cb.
  - intros f Hf Hf0. split; [|exact (Sb f Hf Hf0)].
    rewrite El1. intros H. apply in_app_or in H as [H|H].
    + now apply (forallb_not_In _ _ _ Ht) in H.
    + now apply (forallb_not_In _ _ _ Hh1) in H.
  - exact Nb.
Qed.

End FrameworkOrder.

(** C6, as amended: in the non-interactive mode no menu is shown; in either
    mode a run that gets as far as the restart has passed through the
    framework block, which has run prisma generate for [nestjs] and
    [expressjs] and the build for [nestjs]; in the interactive mode such a
    run has passed through the menu as well, so both are on its path, in
    this order: the trace is what comes before the block, with the menu and
    every prompt in it, then the block, whose commands are the scripted ones
    and no others, then the restart line and the rest. *)
Theorem framework_block_in_both_modes (W : Type) (ssh : NodeSSH W) (env : Env)
    (options : Options) (script : list Step) (w : W) :
  (yes options = true ->
   prompts (trace (final (deploy ssh env options script (mkState w [])))) = 0) /\
  (In (EvOut MRestarting) (trace (final (deploy ssh env options script (mkState w [])))) ->
   (yes options = false ->
    In (EvOut MInteractiveMode)
       (trace (final (deploy ssh env options script (mkState w [])))) /\
    1 <= prompts (trace (final (deploy ssh env options script (mkState w []))))) /\
   (forall f, framework options = Some f -> f <> [] ->
    In (EvOut (MHandling f))
       (trace (final (deploy ssh env options script (mkState w [])))) /\
    (toLowerCase f = lit "nestjs" \/ toLowerCase f = lit "expressjs" ->
     In (EvOut (MPrismaFor f))
        (trace (final (deploy ssh env options script (mkState w [])))) /\
     In (lit "npx prisma generate")
        (commands (trace (final (deploy ssh env options script (mkState w [])))))) /\
    (toLowerCase f = lit "nestjs" ->
     In (EvOut (MBuilding f))
        (trace (final (deploy ssh env options script (mkState w [])))) /\
     In (lit "yarn build")
        (commands (trace (final (deploy ssh env options script (mkState w []))))))) /\
   (exists before block rest,
      trace (final (deploy ssh env options script (mkState w []))) =
        before ++ block ++ EvOut MRestarting :: rest /\
      ~ In (EvOut MRestarting) (before ++ block) /\
      prompts before =
        prompts (trace (final (deploy ssh env options script (mkState w [])))) /\
      (yes options = false ->
       In (EvOut MInteractiveMode) before /\ 1 <= prompts before) /\
      commands block = frameworkCommands (framework options) /\
      (forall f, framework options = Some f -> f <> [] ->
                 ~ In (EvOut (MHandling f)) before /\
                 exists mid,
                   block = EvOut (MHandling f) :: mid ++ [EvOut (MTasksComplete f)]) /\
      (truthy (framework options) = false -> block = []))).
Proof.
  destruct (deploy_cases W ssh env options script w)
    as [(t & E & Ht)|(p & h & u & k & t & E & Ht)]; rewrite E; clear E.
  { simpl. split.
    - intros _. apply (forallb_prompts is_check_output); [|exact Ht].
      now intros [] He.
    - intros Hin. now apply (forallb_not_In _ _ _ Ht) in Hin. }
  destruct (guarded_trace W ssh env options script p h u k (mkState w t))
    as (tail & Eg & Htail).
  rewrite Eg. clear Eg. split.
  - intros Hyes.
    destruct (deployBody_not_prompt W ssh env options script p h u k Hyes (mkState w t))
      as [[l [El Hl]] _].
    rewrite El. simpl. rewrite !prompts_app.
    rewrite (forallb_prompts is_check_output t), (forallb_prompts not_prompt l);
      try assumption.
    + destruct Htail as [->|[->| ->]]; reflexivity.
    + intros e. unfold not_prompt. now destruct (is_prompt e).
    + now intros [] He.
  - intros Hin.
    assert (Hbody : In (EvOut MRestarting)
                       (trace (final (deployBody ssh env options script p h u k
                                        (mkState w t))))).
    { apply in_app_or in Hin as [Hin|Hin]; [assumption|].
      destruct Htail as [->|[->| ->]]; simpl in Hin; intuition discriminate. }
    destruct (deployBody_order W ssh env options script p h u k t w Ht Hbody)
      as (before & block & rest & Eo & Hn & Pb & Pr & Hi & Cb & Sb & Nb).
    apply deployBody_restarting in Hbody as (s1 & s2 & l2 & l & E1 & E2 & E12 & El).
    2: { simpl. now apply (forallb_not_In _ _ _ Ht). }
    split; [|split].
    + rewrite El. intros Hyes.
      destruct (beforeTasks_Ok_interactive W ssh options script p h u k _ _ Hyes E1)
        as [Hi' Hp].
      rewrite E12. split.
      * apply in_or_app. left. apply in_or_app. left. now apply in_or_app; left.
      * rewrite !prompts_app. lia.
    + rewrite El. intros f Hf Hf0. rewrite Hf in E2.
      apply frameworkTasks_Ok in E2 as (l' & E' & Hh & Hn' & Hb); [|assumption].
      rewrite E'.
      assert (Hlift : forall e, In e l' -> In e (((trace s1 ++ l') ++ l) ++ tail)).
      { intros e He. apply in_or_app. left. apply in_or_app. left.
        now apply in_or_app; right. }
      split; [now apply Hlift|]. split.
      * intros En. destruct (Hn' En) as [H1 H2]. split; [now apply Hlift|].
        apply In_commands with (cwd := Some (projectPathOf p)). now apply Hlift.
      * intros En. destruct (Hb En) as [H1 H2]. split; [now apply Hlift|].
        apply In_commands with (cwd := Some (projectPathOf p)). now apply Hlift.
    + rewrite Eo. exists before, block, (rest ++ tail).
      split; [now rewrite <- !app_assoc|]. split; [exact Hn|].
      split; [|split; [exact Hi|split; [exact Cb|split; [exact Sb|exact Nb]]]].
      change (EvOut MRestarting :: rest) with ([EvOut MRestarting] ++ rest).
      rewrite !prompts_app, Pb, Pr.
      replace (prompts tail) with 0 by (destruct Htail as [->|[->| ->]]; reflexivity).
      cbn. lia.
Qed.

(** ** The [.env] mutator *)

(** C8: for a key that does not match [^[A-Za-z_][A-Za-z0-9_]*$],
    [updateRemoteEnv] prints the invalid-key line and returns: the session
    is not used (the world is the same, no command is added to the trace),
    so the remote [.env] is as it was. *)
Theorem updateRemoteEnv_invalid_key (W : Type) (ssh : NodeSSH W)
    (projectPath key value : str) (s : State W) :
  test key_re key = false ->
  updateRemoteEnv ssh projectPath key value s =
  Ok tt (mkState (world s) (trace s ++ [EvOut (MInvalidEnvKey key)])).
Proof.
  intros Hkey. unfold updateRemoteEnv. rewrite Hkey. reflexivity.
Qed.

Lemma updateRemoteEnv_invalid_key_witness :
  updateRemoteEnv node_ssh demo_path (lit "MY-KEY") (lit "x")
    (mkState (session (line "FOO=1")) []) =
  Ok tt (mkState (session (line "FOO=1")) [EvOut (MInvalidEnvKey (lit "MY-KEY"))]).
Proof.
  exact (updateRemoteEnv_invalid_key Host node_ssh demo_path (lit "MY-KEY") (lit "x")
           (mkState (session (line "FOO=1")) []) eq_refl).
Defined.

(** C1, at the input where the code departs from it: the file holds the
    single line [FOO=1] and the call sets [FOO] to [3].  The filter selects
    no line and ends with status 1, the [&&] list stops there, and the file
    keeps [FOO=1]; the program reports the update as done. *)
Theorem setEnvVar_sole_line_kept :
  Sh.read (files (world (final
     (updateRemoteEnv node_ssh demo_path (lit "FOO") (lit "3")
        (mkState (session (line "FOO=1")) [])))))
     demo_env_file = Some (line "FOO=1") /\
  commands (trace (final
     (updateRemoteEnv node_ssh demo_path (lit "FOO") (lit "3")
        (mkState (session (line "FOO=1")) [])))) =
    [checkCmdOf demo_path (lit "FOO");
     safeUpdateCmdOf demo_path (lit "FOO") (escapeShellArg (lit "FOO=3"))] /\
  In (EvOut (MUpdated (lit "FOO")))
     (trace (final
        (updateRemoteEnv node_ssh demo_path (lit "FOO") (lit "3")
           (mkState (session (line "FOO=1")) [])))) /\
  option_map (fun r => code (fst r))
    (Sh.run (safeUpdateCmdOf demo_path (lit "FOO") (escapeShellArg (lit "FOO=3")))
            [(demo_env_file, line "FOO=1")]) = Some 1.
Proof.
  split; [vm_compute; reflexivity|]. split; [vm_compute; reflexivity|].
  split; [|vm_compute; reflexivity].
  vm_compute. repeat first [left; reflexivity | right].
Qed.

(** C3, at the input where the code departs from it: the file holds
    [BAR=2] and the key is [BAZ].  The probe ends with status 1, and the
    code goes on to the filter-and-rename command all the same; the append
    command is what it sends when the probe cannot be submitted at all, on a
    session that has dropped, and then the call fails. *)
Theorem setEnvVar_probe_status_ignored :
  fst (host_execCommand (session (line "BAR=2")) (checkCmdOf demo_path (lit "BAZ")) None)
    = Some (mkResult 1 [] []) /\
  commands (trace (final
     (updateRemoteEnv node_ssh demo_path (lit "BAZ") (lit "x")
        (mkState (session (line "BAR=2")) [])))) =
    [checkCmdOf demo_path (lit "BAZ");
     safeUpdateCmdOf demo_path (lit "BAZ") (escapeShellArg (lit "BAZ=x"))] /\
  commands (trace (final
     (updateRemoteEnv node_ssh demo_path (lit "BAZ") (lit "x")
        (mkState (dropped (line "BAR=2")) [])))) =
    [checkCmdOf demo_path (lit "BAZ");
     appendCmdOf demo_path (escapeShellArg (lit "BAZ=x"))] /\
  threw (updateRemoteEnv node_ssh demo_path (lit "BAZ") (lit "x")
           (mkState (dropped (line "BAR=2")) [])) = true.
Proof.
  split; [vm_compute; reflexivity|]. split; [vm_compute; reflexivity|].
  split; vm_compute; reflexivity.
Qed.

(** ** Dot-only project names *)

(** C10: [".."] passes the project-name validator, the project path made
    from it is [/var/www/..], which resolves to [/var], outside
    [/var/www]; a run with this name pulls in that directory. *)
Theorem dot_only_project_name :
  isValidProjectName (lit "..") = true /\
  forallb (chr_eqb ".") (lit "..") = true /\
  projectPathOf (lit "..") = lit "/var/www/.." /\
  resolve (projectPathOf (lit "..")) = [lit "var"] /\
  inside (lit "/var/www") (projectPathOf (lit "..")) = false /\
  In (EvExec (lit "git pull origin staging") (Some (lit "/var/www/..")))
     (trace (final (deploy node_ssh demo_env (demo_options ".." true) []
                      (mkState (staging true [] silent) [])))).
Proof.
  split; [vm_compute; reflexivity|]. split; [vm_compute; reflexivity|].
  split; [vm_compute; reflexivity|]. split; [vm_compute; reflexivity|].
  split; [vm_compute; reflexivity|].
  vm_compute. repeat first [left; reflexivity | right].
Qed.

(** ** Concrete runs of the sequencer *)

(** C4, the claim as stated fails: against a host that refuses the
    connection, the run ends with status 0, not 1. *)
Lemma connect_failure_exit_status :
  exit_status (deploy node_ssh demo_env (demo_options "demo" true) []
                 (mkState (staging false (line "FOO=1") silent) [])) = Some 0 /\
  exit_status (deploy node_ssh demo_env (demo_options "demo" true) []
                 (mkState (staging false (line "FOO=1") silent) [])) <> Some 1.
Proof. split; [vm_compute; reflexivity|vm_compute; discriminate]. Qed.

Lemma exit_status_after_checks_witness :
  exit_status (deploy node_ssh demo_env (demo_options "demo" true) []
                 (mkState (staging true (line "FOO=1") failing_pull) [])) = Some 0 /\
  (fst (connect node_ssh (staging true (line "FOO=1") failing_pull)
          (lit "203.0.113.7") (or_default (SSH_USERNAME demo_env) (lit "root"))
          (lit "/home/dev/.ssh/id_ed25519")) = false ->
   commands (trace (final (deploy node_ssh demo_env (demo_options "demo" true) []
                      (mkState (staging true (line "FOO=1") failing_pull) [])))) = [] /\
   disposals (trace (final (deploy node_ssh demo_env (demo_options "demo" true) []
                      (mkState (staging true (line "FOO=1") failing_pull) [])))) = 1).
Proof.
  apply (exit_status_after_checks Host node_ssh demo_env (demo_options "demo" true) []
           (staging true (line "FOO=1") failing_pull)
           (lit "demo") (lit "203.0.113.7") (lit "/home/dev/.ssh/id_ed25519"));
    try reflexivity; discriminate.
Defined.

(** C6, the claim as stated fails: in the interactive mode, with a user who
    picks [Continue Deployment] at once, the run shows the menu and then
    runs prisma generate and the build, which the user did not select. *)
Lemma interactive_run_runs_framework_block :
  prompts (trace (final (deploy node_ssh demo_env (demo_options "demo" false)
                           continue_at_once
                           (mkState (staging true (line "FOO=1") silent) [])))) = 1 /\
  commands (trace (final (deploy node_ssh demo_env (demo_options "demo" false)
                            continue_at_once
                            (mkState (staging true (line "FOO=1") silent) [])))) =
    [lit "whoami"; lit "sudo -i";
     lit "git config --global --get-all safe.directory";
     lit "git config --global --add safe.directory /var/www/demo";
     lit "sudo chown -R $(whoami) /var/www/demo";
     lit "git pull origin staging";
     lit "npx prisma generate"; lit "yarn build";
     lit "pm2 restart demo || pm2 restart index"].
Proof. split; vm_compute; reflexivity. Qed.

Lemma session_released_once_witness :
  disposals (trace (final (deploy node_ssh demo_env (demo_options "demo" true) []
                             (mkState (staging false (line "FOO=1") silent) [])))) = 1 /\
  last (trace (final (deploy node_ssh demo_env (demo_options "demo" true) []
                        (mkState (staging false (line "FOO=1") silent) []))))
       (EvOut MConnecting) = EvDispose /\
  exists l,
    trace (final (deploy node_ssh demo_env (demo_options "demo" true) []
                    (mkState (staging false (line "FOO=1") silent) []))) =
      l ++ [EvDispose] /\
    disposals l = 0 /\
    world (final (deploy node_ssh demo_env (demo_options "demo" true) []
                    (mkState (staging false (line "FOO=1") silent) []))) =
      dispose node_ssh (replay node_ssh l (staging false (line "FOO=1") silent)).
Proof.
  apply (session_released_once Host node_ssh demo_env (demo_options "demo" true) []
           (staging false (line "FOO=1") silent)).
  - vm_compute. reflexivity.
  - vm_compute. discriminate.
Defined.

Lemma framework_block_in_both_modes_witness :
  (In (EvOut MInteractiveMode)
      (trace (final (deploy node_ssh demo_env (demo_options "demo" false) continue_at_once
                       (mkState (staging true (line "FOO=1") silent) [])))) /\
   1 <= prompts
          (trace (final (deploy node_ssh demo_env (demo_options "demo" false)
                           continue_at_once
                           (mkState (staging true (line "FOO=1") silent) []))))) /\
  In (EvOut (MBuilding (lit "nestjs")))
     (trace (final (deploy node_ssh demo_env (demo_options "demo" false) continue_at_once
                      (mkState (staging true (line "FOO=1") silent) [])))) /\
  exists before block rest,
    trace (final (deploy node_ssh demo_env (demo_options "demo" false) continue_at_once
                    (mkState (staging true (line "FOO=1") silent) []))) =
      before ++ block ++ EvOut MRestarting :: rest /\
    In (EvOut MInteractiveMode) before /\
    prompts before = 1 /\
    commands block = [lit "npx prisma generate"; lit "yarn build"].
Proof.
  assert (Hin : In (EvOut MRestarting)
                   (trace (final (deploy node_ssh demo_env (demo_options "demo" false)
                                    continue_at_once
                                    (mkState (staging true (line "FOO=1") silent) []))))).
  { vm_compute. repeat first [left; reflexivity | right]. }
  destruct (proj2 (framework_block_in_both_modes Host node_ssh demo_env
                     (demo_options "demo" false) continue_at_once
                     (staging true (line "FOO=1") silent)) Hin)
    as (Hi & Hf & before & block & rest & E & _ & Hp & Hm & Hc & _).
  split; [|split].
  - apply Hi. reflexivity.
  - destruct (Hf (lit "nestjs") eq_refl) as (_ & _ & Hn); [discriminate|].
    destruct (Hn eq_refl) as [Hb _]. exact Hb.
  - exists before, block, rest. split; [exact E|]. split; [apply Hm; reflexivity|].
    split; [|exact Hc]. rewrite Hp. vm_compute. reflexivity.
Defined.

(** ** The shell on the commands of the mutator *)

Lemma lex_plain_char (c : ascii) (cur : option str) (t : str) :
  Sh.plain c = true -> Sh.lex Sh.Bare cur (c :: t) = Sh.lex Sh.Bare (Sh.push cur c) t.
Proof.
  intros H. destruct c as [[] [] [] [] [] [] [] []]; try discriminate H; reflexivity.
Qed.

Lemma lex_plain (w : str) (cur : option str) (rest : str) :
  forallb Sh.plain w = true -> w <> [] ->
  Sh.lex Sh.Bare cur (w ++ rest) = Sh.lex Sh.Bare (Some (Sh.open_word cur ++ w)) rest.
Proof.
  revert cur. induction w as [|c w IH]; intros cur Hw Hne; [now contradiction Hne|].
  simpl in Hw. apply andb_true_iff in Hw as [Hc Hw].
  change ((c :: w) ++ rest) with (c :: (w ++ rest)).
  rewrite lex_plain_char by assumption.
  destruct w as [|d w].
  - reflexivity.
  - rewrite IH; [|assumption|discriminate]. unfold Sh.push. simpl Sh.open_word.
    now rewrite <- app_assoc.
Qed.

Lemma lex_dq_char (c : ascii) (cur : option str) (t : str) :
  dq_plain c = true -> Sh.lex Sh.Double cur (c :: t) = Sh.lex Sh.Double (Sh.push cur c) t.
Proof.
  intros H. destruct c as [[] [] [] [] [] [] [] []]; try discriminate H; reflexivity.
Qed.

Lemma lex_dq (w cur rest : str) :
  forallb dq_plain w = true ->
  Sh.lex Sh.Double (Some cur) (w ++ dquote :: rest) = Sh.lex Sh.Bare (Some (cur ++ w)) rest.
Proof.
  revert cur. induction w as [|c w IH]; intros cur Hw.
  - simpl. now rewrite app_nil_r.
  - simpl in Hw. apply andb_true_iff in Hw as [Hc Hw].
    change ((c :: w) ++ dquote :: rest) with (c :: (w ++ dquote :: rest)).
    rewrite lex_dq_char by assumption. unfold Sh.push. simpl Sh.open_word.
    rewrite IH by assumption. now rewrite <- app_assoc.
Qed.

Lemma lex_space (cur : option str) (t : str) :
  Sh.lex Sh.Bare cur (" "%char :: t) = option_map (Sh.flush cur) (Sh.lex Sh.Bare None t).
Proof. reflexivity. Qed.

Lemma lex_end (w : str) : Sh.lex Sh.Bare (Some w) [] = Some [Sh.TWord w].
Proof. reflexivity. Qed.

Lemma lex_dq_chars (w cur rest : str) :
  forallb dq_plain w = true ->
  Sh.lex Sh.Double (Some cur) (w ++ rest) = Sh.lex Sh.Double (Some (cur ++ w)) rest.
Proof.
  revert cur. induction w as [|c w IH]; intros cur Hw.
  - simpl. now rewrite app_nil_r.
  - simpl in Hw. apply andb_true_iff in Hw as [Hc Hw].
    change ((c :: w) ++ rest) with (c :: (w ++ rest)).
    rewrite lex_dq_char by assumption. unfold Sh.push. simpl Sh.open_word.
    rewrite IH by assumption. now rewrite <- app_assoc.
Qed.

Lemma lex_plain_chars (w : str) (cur rest : str) :
  forallb Sh.plain w = true ->
  Sh.lex Sh.Bare (Some cur) (w ++ rest) = Sh.lex Sh.Bare (Some (cur ++ w)) rest.
Proof.
  revert cur. induction w as [|c w IH]; intros cur Hw.
  - simpl. now rewrite app_nil_r.
  - simpl in Hw. apply andb_true_iff in Hw as [Hc Hw].
    change ((c :: w) ++ rest) with (c :: (w ++ rest)).
    rewrite lex_plain_char by assumption. unfold Sh.push. simpl Sh.open_word.
    rewrite IH by assumption. now rewrite <- app_assoc.
Qed.

Lemma lex_plain_start (w rest : str) :
  forallb Sh.plain w = true -> w <> [] ->
  Sh.lex Sh.Bare None (w ++ rest) = Sh.lex Sh.Bare (Some w) rest.
Proof.
  intros Hw Hne. destruct w as [|c w]; [now contradiction Hne|].
  simpl in Hw. apply andb_true_iff in Hw as [Hc Hw].
  change ((c :: w) ++ rest) with (c :: (w ++ rest)).
  rewrite lex_plain_char by assumption. unfold Sh.push. simpl Sh.open_word.
  now rewrite lex_plain_chars.
Qed.

Lemma lex_quoted_tail (s cur rest : str) :
  Sh.lex Sh.Single (Some cur)
    ((replace_all "'" ["'"%char; "\"%char; "'"%char; "'"%char] s ++ ["'"%char]) ++ rest) =
  Sh.lex Sh.Bare (Some (cur ++ s)) rest.
Proof.
  rewrite <- app_assoc. simpl app.
  pose proof (lex_quoted_body s cur rest) as H.
  unfold squote, lit in H. simpl in H. exact H.
Qed.

Ltac lex_step :=
  cbn; unfold Sh.push; cbn;
  first [ rewrite lex_dq_chars by assumption
        | rewrite lex_plain_start by assumption
        | rewrite lex_quoted_tail ].

Lemma lex_safeUpdateCmd (path key line : str) :
  forallb Sh.plain path = true -> path <> [] -> forallb dq_plain key = true ->
  Sh.lex Sh.Bare None (safeUpdateCmdOf path key (escapeShellArg line)) =
  Some [Sh.TWord (lit "grep"); Sh.TWord (lit "-v"); Sh.TWord (lit "^" ++ key ++ lit "=");
        Sh.TWord (path ++ lit "/.env"); Sh.TOut; Sh.TWord (path ++ lit "/.env.tmp");
        Sh.TAnd; Sh.TWord (lit "echo"); Sh.TWord line; Sh.TAppend;
        Sh.TWord (path ++ lit "/.env.tmp");
        Sh.TAnd; Sh.TWord (lit "mv"); Sh.TWord (path ++ lit "/.env.tmp");
        Sh.TWord (path ++ lit "/.env")].
Proof.
  intros Hp Hp0 Hk. unfold safeUpdateCmdOf.
  do 7 lex_step. cbn. unfold Sh.push. cbn.
  rewrite <- !app_assoc. reflexivity.
Qed.

Lemma lex_checkCmd (path key : str) :
  forallb Sh.plain path = true -> path <> [] -> forallb dq_plain key = true ->
  Sh.lex Sh.Bare None (checkCmdOf path key) =
  Some [Sh.TWord (lit "grep"); Sh.TWord (lit "^" ++ key ++ lit "=");
        Sh.TWord (path ++ lit "/.env")].
Proof.
  intros Hp Hp0 Hk. unfold checkCmdOf.
  do 2 lex_step. cbn. unfold Sh.push. cbn.
  rewrite <- !app_assoc. reflexivity.
Qed.

(** *** Paths *)

Lemma str_eqb_neq (a b : str) : a <> b -> str_eqb a b = false.
Proof. unfold str_eqb. now destruct (list_eq_dec ascii_dec a b). Qed.

Lemma split_on_app (c : ascii) (a b cur : str) :
  split_on c cur (a ++ c :: b) = split_on c cur a ++ split_on c [] b.
Proof.
  revert cur. induction a as [|x a IH]; intros cur; simpl.
  - now rewrite chr_eqb_refl.
  - destruct (chr_eqb x c); [now rewrite IH|apply IH].
Qed.

Lemma split_on_nonempty (c : ascii) (s cur : str) : split_on c cur s <> [].
Proof.
  revert cur. induction s as [|x s IH]; intros cur; simpl; [discriminate|].
  destruct (chr_eqb x c); [discriminate|apply IH].
Qed.

Lemma normalize_proper (segs up : list str) :
  forallb Sh.proper segs = true -> normalize up segs = rev up ++ segs.
Proof.
  revert up. induction segs as [|seg k IH]; intros up H; cbn [normalize].
  - now rewrite app_nil_r.
  - cbn [forallb] in H. apply andb_true_iff in H as [Hs Hk].
    unfold Sh.proper in Hs. apply negb_true_iff in Hs.
    apply orb_false_iff in Hs as [Hs Hs2]. rewrite Hs, Hs2.
    rewrite (IH _ Hk). cbn [rev]. now rewrite <- app_assoc.
Qed.

Lemma is_prefix_refl (a : list str) : is_prefix a a = true.
Proof. induction a as [|x a IH]; simpl; [reflexivity|]. now rewrite str_eqb_refl. Qed.

Lemma is_prefix_app (k a b : list str) : is_prefix (k ++ a) (k ++ b) = is_prefix a b.
Proof. induction k as [|x k IH]; simpl; [reflexivity|]. now rewrite str_eqb_refl. Qed.

Lemma is_prefix_length (a b : list str) :
  is_prefix a b = true -> List.length a <= List.length b.
Proof.
  revert b. induction a as [|x a IH]; intros [|y b] H; simpl in *; try lia; try discriminate.
  apply andb_true_iff in H as [_ H]. apply IH in H. lia.
Qed.

Lemma comps_eqb_refl (a : list str) : Sh.comps_eqb a a = true.
Proof. unfold Sh.comps_eqb. now rewrite is_prefix_refl. Qed.

Lemma comps_eqb_eq (a b : list str) : Sh.comps_eqb a b = true -> a = b.
Proof.
  unfold Sh.comps_eqb. revert b. induction a as [|x a IH]; intros [|y b] H;
    simpl in *; try reflexivity; try discriminate.
  apply andb_true_iff in H as [H1 H2].
  apply andb_true_iff in H1 as [E H1]. apply andb_true_iff in H2 as [_ H2].
  apply str_eqb_eq in E. subst y. f_equal. apply IH. now rewrite H1, H2.
Qed.

Lemma comps_eqb_sym (a b : list str) : Sh.comps_eqb a b = Sh.comps_eqb b a.
Proof. unfold Sh.comps_eqb. apply andb_comm. Qed.

Lemma below_irrefl (a : list str) : Sh.below a a = false.
Proof. unfold Sh.below. rewrite Nat.ltb_irrefl. apply andb_false_r. Qed.

(** What a canonical path resolves to: its own components. *)
Lemma canonical_resolve (p : str) :
  Sh.canonical p = true ->
  split_on "/" [] p = [] :: resolve p /\ forallb Sh.proper (resolve p) = true /\
  resolve p <> [].
Proof.
  unfold Sh.canonical, resolve. destruct (split_on "/" [] p) as [|[|c s] [|seg k]];
    try discriminate.
  intros H. change (normalize [] ([] :: seg :: k)) with (normalize [] (seg :: k)).
  rewrite (normalize_proper _ [] H). cbn [rev app]. repeat split; [exact H|discriminate].
Qed.

Lemma canonical_file (p : str) : Sh.canonical p = true -> Sh.names_dir p = false.
Proof.
  intros H. destruct (canonical_resolve p H) as (E & Hp & Hne).
  unfold Sh.names_dir. rewrite E.
  destruct (exists_last Hne) as (k & seg & Ek). rewrite Ek in *.
  change ([] :: k ++ [seg]) with (([] :: k) ++ [seg]). rewrite rev_unit.
  rewrite forallb_app in Hp. apply andb_true_iff in Hp as [_ Hp]. simpl in Hp.
  apply andb_true_iff in Hp as [Hp _]. now rewrite Hp.
Qed.

(** The [.env] and the [.env.tmp] of a project lie side by side. *)
Lemma side_by_side (path : str) :
  Sh.canonical (tmp_path path) = true ->
  exists k,
    resolve (env_path path) = k ++ [lit ".env"] /\
    resolve (tmp_path path) = k ++ [lit ".env.tmp"] /\
    Sh.canonical (env_path path) = true.
Proof.
  intros H. destruct (canonical_resolve _ H) as (E & Hp & _).
  set (R := resolve (tmp_path path)) in *.
  unfold tmp_path in E. change (lit "/.env.tmp") with ("/"%char :: lit ".env.tmp") in E.
  rewrite split_on_app in E.
  change (split_on "/" [] (lit ".env.tmp")) with [lit ".env.tmp"] in E.
  destruct (split_on "/" [] path) as [|s0 ss] eqn:Es;
    [now apply split_on_nonempty in Es|].
  injection E as -> E. rewrite <- E in Hp.
  rewrite forallb_app in Hp. apply andb_true_iff in Hp as [Hss _].
  assert (Henv : split_on "/" [] (env_path path) = [] :: ss ++ [lit ".env"]).
  { unfold env_path. change (lit "/.env") with ("/"%char :: lit ".env").
    rewrite split_on_app, Es. reflexivity. }
  assert (Hall : forallb Sh.proper (ss ++ [lit ".env"]) = true).
  { rewrite forallb_app, Hss. reflexivity. }
  exists ss. split; [|split].
  - unfold resolve. rewrite Henv.
    change (normalize [] ([] :: ss ++ [lit ".env"])) with (normalize [] (ss ++ [lit ".env"])).
    now rewrite normalize_proper.
  - now rewrite <- E.
  - unfold Sh.canonical. rewrite Henv. destruct ss as [|s1 ss]; [reflexivity|exact Hall].
Qed.

Lemma removelast_unit {A : Type} (k : list A) (x : A) : removelast (k ++ [x]) = k.
Proof. apply removelast_last. Qed.

Lemma siblings (path : str) : Sh.canonical (tmp_path path) = true -> Siblings path.
Proof.
  intros H. destruct (side_by_side path H) as (k & Ee & Et & Hc).
  assert (Hlen : forall a b : str, List.length (k ++ [a]) = List.length (k ++ [b]))
    by (intros; now rewrite !length_app).
  constructor; try assumption; try (now apply canonical_file);
    unfold Sh.same_path, Sh.parent, Sh.below, Sh.comps_eqb; rewrite ?Ee, ?Et.
  - rewrite !is_prefix_app. reflexivity.
  - rewrite !is_prefix_app. reflexivity.
  - rewrite (Hlen (lit ".env") (lit ".env.tmp")), Nat.ltb_irrefl. apply andb_false_r.
  - rewrite (Hlen (lit ".env") (lit ".env.tmp")), Nat.ltb_irrefl. apply andb_false_r.
  - now rewrite !removelast_unit.
  - rewrite removelast_unit. rewrite <- (app_nil_r k) at 1. rewrite is_prefix_app.
    rewrite length_app. cbn [is_prefix andb List.length].
    apply Nat.ltb_lt. cbn [List.length]. lia.
  - rewrite removelast_unit. rewrite <- (app_nil_r k) at 1. rewrite is_prefix_app.
    rewrite length_app. cbn [is_prefix andb List.length].
    apply Nat.ltb_lt. cbn [List.length]. lia.
Qed.

(** *** The store *)

Lemma lookup_write_same (fs : Sh.store) (f c : str) :
  Sh.names_dir f = false -> Sh.lookup (Sh.write fs f c) (resolve f) = Some c.
Proof.
  intros Hf. induction fs as [|[p d] fs IH]; cbn [Sh.write Sh.lookup].
  - unfold Sh.file_entry. now rewrite comps_eqb_refl, Hf.
  - destruct (Sh.file_entry (resolve f) p) eqn:E; cbn [Sh.lookup]; rewrite E;
      [reflexivity|exact IH].
Qed.

Lemma file_entry_other (f : str) (cs : list str) (p : str) :
  Sh.comps_eqb (resolve f) cs = false -> Sh.file_entry (resolve f) p = true ->
  Sh.file_entry cs p = false.
Proof.
  unfold Sh.file_entry. intros Hn H. apply andb_true_iff in H as [H _].
  apply comps_eqb_eq in H. now rewrite H, Hn.
Qed.

Lemma lookup_write_other (fs : Sh.store) (f c : str) (cs : list str) :
  Sh.comps_eqb (resolve f) cs = false ->
  Sh.lookup (Sh.write fs f c) cs = Sh.lookup fs cs.
Proof.
  intros Hn. induction fs as [|[p d] fs IH]; cbn [Sh.write Sh.lookup].
  - unfold Sh.file_entry. now rewrite Hn.
  - destruct (Sh.file_entry (resolve f) p) eqn:E; cbn [Sh.lookup].
    + now rewrite (file_entry_other f cs p Hn E).
    + now rewrite IH.
Qed.

Lemma lookup_remove_same (fs : Sh.store) (f : str) :
  Sh.lookup (Sh.remove fs f) (resolve f) = None.
Proof.
  induction fs as [|[p d] fs IH]; cbn [Sh.remove Sh.lookup]; [reflexivity|].
  destruct (Sh.file_entry (resolve f) p) eqn:E; cbn [Sh.lookup]; [exact IH|].
  now rewrite E.
Qed.

Lemma lookup_remove_other (fs : Sh.store) (f : str) (cs : list str) :
  Sh.comps_eqb (resolve f) cs = false ->
  Sh.lookup (Sh.remove fs f) cs = Sh.lookup fs cs.
Proof.
  intros Hn. induction fs as [|[p d] fs IH]; cbn [Sh.remove Sh.lookup]; [reflexivity|].
  destruct (Sh.file_entry (resolve f) p) eqn:E; cbn [Sh.lookup].
  - now rewrite (file_entry_other f cs p Hn E).
  - now rewrite IH.
Qed.

Lemma read_write_same (fs : Sh.store) (f c : str) :
  Sh.names_dir f = false -> Sh.read (Sh.write fs f c) f = Some c.
Proof. intros Hf. unfold Sh.read. rewrite Hf. now apply lookup_write_same. Qed.

Lemma read_write_other (fs : Sh.store) (f g c : str) :
  Sh.same_path f g = false -> Sh.read (Sh.write fs f c) g = Sh.read fs g.
Proof.
  intros Hfg. unfold Sh.read. destruct (Sh.names_dir g); [reflexivity|].
  now apply lookup_write_other.
Qed.

Lemma read_remove_same (fs : Sh.store) (f : str) : Sh.read (Sh.remove fs f) f = None.
Proof. unfold Sh.read. destruct (Sh.names_dir f); [reflexivity|apply lookup_remove_same]. Qed.

Lemma read_remove_other (fs : Sh.store) (f g : str) :
  Sh.same_path f g = false -> Sh.read (Sh.remove fs f) g = Sh.read fs g.
Proof.
  intros Hfg. unfold Sh.read. destruct (Sh.names_dir g); [reflexivity|].
  now apply lookup_remove_other.
Qed.

(** *** Directories *)

Lemma dir_entry_file (d cs : list str) (p : str) :
  Sh.file_entry cs p = true -> Sh.dir_entry d p = Sh.below d cs.
Proof.
  unfold Sh.file_entry, Sh.dir_entry. intros H. apply andb_true_iff in H as [H1 H2].
  apply comps_eqb_eq in H1. apply negb_true_iff in H2. rewrite H1, H2. apply orb_false_r.
Qed.

Lemma has_dir_write (fs : Sh.store) (f c : str) (d : list str) :
  Sh.names_dir f = false ->
  existsb (fun e => Sh.dir_entry d (fst e)) (Sh.write fs f c) =
  existsb (fun e => Sh.dir_entry d (fst e)) fs || Sh.below d (resolve f).
Proof.
  intros Hf. induction fs as [|[p c0] fs IH]; cbn [Sh.write existsb fst].
  - unfold Sh.dir_entry. rewrite Hf. cbn [andb]. now rewrite !orb_false_r.
  - destruct (Sh.file_entry (resolve f) p) eqn:E; cbn [existsb fst].
    + rewrite (dir_entry_file d _ p E).
      destruct (Sh.below d (resolve f)), (existsb _ fs); reflexivity.
    + rewrite IH. now rewrite orb_assoc.
Qed.

Lemma is_dir_write (fs : Sh.store) (f c : str) (d : list str) :
  Sh.names_dir f = false ->
  Sh.is_dir (Sh.write fs f c) d = Sh.is_dir fs d || Sh.below d (resolve f).
Proof.
  intros Hf. unfold Sh.is_dir. destruct d as [|x d]; [reflexivity|].
  now apply has_dir_write.
Qed.

Lemma place_parts (fs : Sh.store) (f : str) :
  Sh.place fs f = true ->
  Sh.canonical f = true /\ Sh.is_dir fs (Sh.parent f) = true /\
  Sh.is_dir fs (resolve f) = false.
Proof.
  unfold Sh.place. intros H. apply andb_true_iff in H as [H H3].
  apply andb_true_iff in H as [H1 H2]. apply negb_true_iff in H3. auto.
Qed.

(** Writing a file takes no place away, unless the file lies below it. *)
Lemma place_write (fs : Sh.store) (f g c : str) :
  Sh.names_dir f = false -> Sh.below (resolve g) (resolve f) = false ->
  Sh.place fs g = true -> Sh.place (Sh.write fs f c) g = true.
Proof.
  intros Hf Hb H. apply place_parts in H as (H1 & H2 & H3).
  unfold Sh.place. rewrite !is_dir_write by assumption. now rewrite H1, H2, H3, Hb.
Qed.

Lemma is_dir_remove (fs : Sh.store) (f : str) (d : list str) :
  Sh.is_dir fs d = false -> Sh.is_dir (Sh.remove fs f) d = false.
Proof.
  unfold Sh.is_dir. destruct d as [|x d]; [discriminate|].
  induction fs as [|[p c] fs IH]; cbn [Sh.remove existsb fst]; [reflexivity|].
  intros H. apply orb_false_iff in H as [H1 H2].
  destruct (Sh.file_entry (resolve f) p); cbn [existsb fst]; [now apply IH|].
  now rewrite H1, (IH H2).
Qed.

(** *** The utilities, by name *)

Lemma utility_grep (p file : str) (fs : Sh.store) :
  Sh.utility [lit "grep"; p; file] fs =
  if Sh.is_option p then None else Sh.grep false p file fs.
Proof. reflexivity. Qed.

Lemma utility_grep_v (p file : str) (fs : Sh.store) :
  Sh.utility [lit "grep"; lit "-v"; p; file] fs =
  if Sh.is_option p then None else Sh.grep true p file fs.
Proof. unfold Sh.utility. cbn. now destruct (Sh.is_option p). Qed.

Lemma utility_echo (w : str) (fs : Sh.store) :
  Sh.utility [lit "echo"; w] fs =
  if Sh.is_option w || Sh.has_backslash w then None
  else Some (mkResult 0 (w ++ [newline]) [], fs).
Proof.
  unfold Sh.utility. cbn. now destruct (Sh.is_option w), (Sh.has_backslash w).
Qed.

Lemma utility_mv (src dst : str) (fs : Sh.store) :
  Sh.utility [lit "mv"; src; dst] fs =
  if Sh.canonical src && negb (Sh.is_dir fs (resolve src))
     && Sh.place fs dst && negb (Sh.same_path src dst) then
    match Sh.read fs src with
    | Some content => Some (mkResult 0 [] [], Sh.write (Sh.remove fs src) dst content)
    | None => Some (mkResult 1 [] (lit "mv: cannot stat " ++ src), fs)
    end
  else None.
Proof. reflexivity. Qed.

(** *** Keys and paths *)

Lemma key_head_chars (c : ascii) :
  key_head c = true ->
  dq_plain c = true /\ Sh.bre_plain c = true /\ chr_eqb c "-" = false.
Proof.
  intros H. destruct c as [[] [] [] [] [] [] [] []]; try discriminate H;
    repeat split; reflexivity.
Qed.

Lemma key_tail_chars (c : ascii) :
  key_tail c = true -> dq_plain c = true /\ Sh.bre_plain c = true.
Proof.
  intros H. destruct c as [[] [] [] [] [] [] [] []]; try discriminate H;
    repeat split; reflexivity.
Qed.

Lemma valid_key_chars (key : str) :
  test key_re key = true ->
  forallb dq_plain key = true /\
  forallb Sh.bre_plain (key ++ lit "=") = true /\
  (forall rest, Sh.is_option (key ++ rest) = false).
Proof.
  intros H. apply key_re_spec in H as (c & t & -> & Hc & Ht).
  apply key_head_chars in Hc as (Hc1 & Hc2 & Hc3).
  assert (Ht' : forallb dq_plain t = true /\ forallb Sh.bre_plain t = true).
  { induction t as [|d t IH]; [now split|]. simpl in Ht.
    apply andb_true_iff in Ht as [Hd Ht]. apply key_tail_chars in Hd as [Hd1 Hd2].
    destruct (IH Ht) as [IH1 IH2]. simpl. now rewrite Hd1, Hd2, IH1, IH2. }
  destruct Ht' as [Ht1 Ht2]. repeat split.
  - simpl. now rewrite Hc1, Ht1.
  - simpl. rewrite Hc2, forallb_app, Ht2. reflexivity.
  - intros rest. simpl. destruct c as [[] [] [] [] [] [] [] []];
      try discriminate Hc3; reflexivity.
Qed.

Lemma key_tail_text (c : ascii) :
  key_tail c = true -> Sh.text_char c = true /\ chr_eqb "\" c = false.
Proof.
  intros H. destruct c as [[] [] [] [] [] [] [] []]; try discriminate H;
    split; reflexivity.
Qed.

Lemma key_head_tail (c : ascii) : key_head c = true -> key_tail c = true.
Proof. intros H. destruct c as [[] [] [] [] [] [] [] []]; try discriminate H; reflexivity. Qed.

Lemma valid_key_text (key : str) :
  test key_re key = true -> Sh.is_text key = true /\ Sh.has_backslash key = false.
Proof.
  intros H. apply key_re_spec in H as (c & t & -> & Hc & Ht).
  assert (Hall : forallb key_tail (c :: t) = true)
    by (cbn [forallb]; now rewrite (key_head_tail c Hc), Ht).
  clear Hc Ht. induction (c :: t) as [|d l IH]; [now split|].
  cbn [forallb] in Hall. apply andb_true_iff in Hall as [Hd Hl].
  destruct (key_tail_text d Hd) as [Hd1 Hd2]. destruct (IH Hl) as [IH1 IH2].
  unfold Sh.is_text, Sh.has_backslash in *. cbn [forallb existsb].
  now rewrite Hd1, Hd2, IH1, IH2.
Qed.

Lemma name_char_plain (c : ascii) :
  name_char c = true -> Sh.plain c = true /\ Sh.text_char c = true.
Proof.
  intros H. destruct c as [[] [] [] [] [] [] [] []]; try discriminate H;
    split; reflexivity.
Qed.

Lemma valid_project_path (p : str) :
  isValidProjectName p = true ->
  forallb Sh.plain (projectPathOf p) = true /\ projectPathOf p <> [] /\
  Sh.is_text (projectPathOf p) = true.
Proof.
  intros H. apply project_re_spec in H as [_ H].
  assert (Hall : forallb Sh.plain p = true /\ forallb Sh.text_char p = true).
  { induction p as [|c p IH]; [now split|]. cbn [forallb] in *.
    apply andb_true_iff in H as [Hc Hp]. destruct (name_char_plain c Hc) as [H1 H2].
    destruct (IH Hp) as [IH1 IH2]. now rewrite H1, H2, IH1, IH2. }
  destruct Hall as [H1 H2]. unfold projectPathOf, Sh.is_text.
  rewrite !forallb_app, H1, H2. repeat split. discriminate.
Qed.

Lemma is_text_app (a b : str) : Sh.is_text (a ++ b) = Sh.is_text a && Sh.is_text b.
Proof. apply forallb_app. Qed.

Lemma has_backslash_app (a b : str) :
  Sh.has_backslash (a ++ b) = Sh.has_backslash a || Sh.has_backslash b.
Proof. apply existsb_app. Qed.

Lemma is_text_escapeShellArg (s : str) :
  Sh.is_text s = true -> Sh.is_text (escapeShellArg s) = true.
Proof.
  intros H. unfold escapeShellArg. rewrite !is_text_app. cbn [lit].
  replace (Sh.is_text (replace_all "'" (lit "'\''") s)) with true; [reflexivity|].
  symmetry. induction s as [|c s IH]; [reflexivity|].
  unfold Sh.is_text in H. cbn [forallb] in H. apply andb_true_iff in H as [Hc Hs].
  cbn [replace_all]. rewrite is_text_app, (IH Hs).
  destruct (chr_eqb c "'"); [reflexivity|]. unfold Sh.is_text. cbn [forallb].
  now rewrite Hc.
Qed.

Lemma is_text_safeUpdateCmd (path key line : str) :
  Sh.is_text path = true -> Sh.is_text key = true -> Sh.is_text line = true ->
  Sh.is_text (safeUpdateCmdOf path key (escapeShellArg line)) = true.
Proof.
  intros Hp Hk Hl. unfold safeUpdateCmdOf.
  rewrite !is_text_app, Hp, Hk, (is_text_escapeShellArg line Hl). reflexivity.
Qed.

Lemma is_text_checkCmd (path key : str) :
  Sh.is_text path = true -> Sh.is_text key = true ->
  Sh.is_text (checkCmdOf path key) = true.
Proof.
  intros Hp Hk. unfold checkCmdOf. rewrite !is_text_app, Hp, Hk. reflexivity.
Qed.

Lemma is_text_new_line (key value : str) :
  test key_re key = true -> Sh.is_text value = true ->
  Sh.is_text (key ++ lit "=" ++ value) = true.
Proof.
  intros Hk Hv. destruct (valid_key_text key Hk) as [Hk1 _].
  now rewrite !is_text_app, Hk1, Hv.
Qed.

Lemma no_backslash_new_line (key value : str) :
  test key_re key = true -> Sh.has_backslash value = false ->
  Sh.has_backslash (key ++ lit "=" ++ value) = false.
Proof.
  intros Hk Hv. destruct (valid_key_text key Hk) as [_ Hk2].
  now rewrite !has_backslash_app, Hk2, Hv.
Qed.

Lemma unlines_app (l1 l2 : list str) : Sh.unlines (l1 ++ l2) = Sh.unlines l1 ++ Sh.unlines l2.
Proof. unfold Sh.unlines. apply flat_map_app. Qed.

Lemma grep_key_pattern (key : str) :
  forallb Sh.bre_plain (key ++ lit "=") = true ->
  Sh.pattern (lit "^" ++ key ++ lit "=") = Some (starts_with (key ++ lit "=")).
Proof.
  intros H. change (lit "^" ++ key ++ lit "=") with ("^"%char :: key ++ lit "=").
  unfold Sh.pattern. cbv iota beta. now rewrite H.
Qed.

Lemma filter_without_key (key : str) (ls : list str) :
  filter (fun l => xorb true (starts_with (key ++ lit "=") l)) ls =
  filter (without_key key) ls.
Proof. apply filter_ext. intros l. unfold without_key. now destruct (starts_with _ l). Qed.

(** *** The three simple commands of the update *)

(** [grep -v "^key=" .env > .env.tmp] *)
Lemma run_filter (path key : str) (fs : Sh.store) (content : str) :
  test key_re key = true ->
  Sh.place fs (env_path path) = true -> Sh.place fs (tmp_path path) = true ->
  Sh.read fs (env_path path) = Some content -> Sh.is_text content = true ->
  Sh.run_simple
    (Sh.mkSimple [lit "grep"; lit "-v"; lit "^" ++ key ++ lit "="; env_path path]
                 (Some (false, tmp_path path))) fs =
  Some (mkResult (match filter (without_key key) (Sh.lines content) with
                  | [] => 1
                  | _ => 0
                  end) [] [],
        Sh.write (Sh.write fs (tmp_path path) []) (tmp_path path)
                 (Sh.unlines (filter (without_key key) (Sh.lines content)))).
Proof.
  intros Hk He Ht Hr Htext. destruct (valid_key_chars key Hk) as (Hk1 & Hk2 & Hk3).
  destruct (place_parts _ _ He) as (Hce & _ & Hde).
  destruct (place_parts _ _ Ht) as (Hct & _ & _).
  destruct (siblings path Hct).
  unfold Sh.run_simple. cbn [Sh.redir Sh.argv]. rewrite Ht, utility_grep_v.
  replace (match Sh.read fs (tmp_path path) with Some _ | _ => [] end) with (@nil ascii)
    by (now destruct (Sh.read fs (tmp_path path))).
  change (Sh.is_option (lit "^" ++ key ++ lit "=")) with false. cbv iota.
  unfold Sh.grep. rewrite (grep_key_pattern key Hk2), Hce.
  rewrite is_dir_write, Hde, sib_below_env0 by assumption. cbn [orb negb andb].
  rewrite read_write_other by assumption.
  rewrite Hr, Htext, filter_without_key. cbn [code stdout stderr].
  rewrite read_write_same by assumption. reflexivity.
Qed.

(** [grep -v "^key=" .env > .env.tmp] when there is no [.env]. *)
Lemma run_filter_missing (path key : str) (fs : Sh.store) :
  test key_re key = true ->
  Sh.place fs (env_path path) = true -> Sh.place fs (tmp_path path) = true ->
  Sh.read fs (env_path path) = None ->
  Sh.run_simple
    (Sh.mkSimple [lit "grep"; lit "-v"; lit "^" ++ key ++ lit "="; env_path path]
                 (Some (false, tmp_path path))) fs =
  Some (mkResult 2 []
          (lit "grep: " ++ env_path path ++ lit ": No such file or directory"),
        Sh.write (Sh.write fs (tmp_path path) []) (tmp_path path) []).
Proof.
  intros Hk He Ht Hr. destruct (valid_key_chars key Hk) as (Hk1 & Hk2 & Hk3).
  destruct (place_parts _ _ He) as (Hce & _ & Hde).
  destruct (place_parts _ _ Ht) as (Hct & _ & _).
  destruct (siblings path Hct).
  unfold Sh.run_simple. cbn [Sh.redir Sh.argv]. rewrite Ht, utility_grep_v.
  replace (match Sh.read fs (tmp_path path) with Some _ | _ => [] end) with (@nil ascii)
    by (now destruct (Sh.read fs (tmp_path path))).
  change (Sh.is_option (lit "^" ++ key ++ lit "=")) with false. cbv iota.
  unfold Sh.grep. rewrite (grep_key_pattern key Hk2), Hce.
  rewrite is_dir_write, Hde, sib_below_env0 by assumption. cbn [orb negb andb].
  rewrite read_write_other by assumption.
  rewrite Hr. cbn [code stdout stderr].
  rewrite read_write_same by assumption. reflexivity.
Qed.

(** [echo 'key=value' >> .env.tmp] *)
Lemma run_echo_append (path word : str) (fs : Sh.store) (old : str) :
  Sh.is_option word = false -> Sh.has_backslash word = false ->
  Sh.place fs (tmp_path path) = true ->
  Sh.read fs (tmp_path path) = Some old ->
  Sh.run_simple (Sh.mkSimple [lit "echo"; word] (Some (true, tmp_path path))) fs =
  Some (mkResult 0 [] [],
        Sh.write (Sh.write fs (tmp_path path) old) (tmp_path path)
                 (old ++ word ++ [newline])).
Proof.
  intros Hw Hb Ht Hr. destruct (place_parts _ _ Ht) as (Hct & _ & _).
  pose proof (canonical_file _ Hct) as Hf.
  unfold Sh.run_simple. cbn [Sh.redir Sh.argv].
  rewrite Ht, utility_echo, Hw, Hb, Hr. cbn [orb code stdout stderr].
  rewrite read_write_same by assumption. reflexivity.
Qed.

(** [mv .env.tmp .env] *)
Lemma run_rename (path : str) (fs : Sh.store) (new : str) :
  Sh.place fs (env_path path) = true -> Sh.place fs (tmp_path path) = true ->
  Sh.read fs (tmp_path path) = Some new ->
  Sh.run_simple (Sh.mkSimple [lit "mv"; tmp_path path; env_path path] None) fs =
  Some (mkResult 0 [] [],
        Sh.write (Sh.remove fs (tmp_path path)) (env_path path) new).
Proof.
  intros He Ht Hr. destruct (place_parts _ _ Ht) as (Hct & _ & Hdt).
  destruct (siblings path Hct).
  unfold Sh.run_simple. cbn [Sh.redir Sh.argv].
  rewrite utility_mv, Hct, Hdt, He, sib_tmp_env0, Hr. reflexivity.
Qed.

(** The two places stay, whatever is written to the temporary file. *)
Lemma places_write_tmp (path : str) (fs : Sh.store) (c : str) :
  Sh.place fs (env_path path) = true -> Sh.place fs (tmp_path path) = true ->
  Sh.place (Sh.write fs (tmp_path path) c) (env_path path) = true /\
  Sh.place (Sh.write fs (tmp_path path) c) (tmp_path path) = true.
Proof.
  intros He Ht. destruct (place_parts _ _ Ht) as (Hct & _ & _).
  destruct (siblings path Hct). split; apply place_write; try assumption.
  apply below_irrefl.
Qed.

(** The update command as a whole. *)
Lemma run_safeUpdateCmd (path key value : str) (fs : Sh.store) (content : str) :
  forallb Sh.plain path = true -> path <> [] -> test key_re key = true ->
  Sh.place fs (env_path path) = true -> Sh.place fs (tmp_path path) = true ->
  Sh.read fs (env_path path) = Some content -> Sh.is_text content = true ->
  (filter (without_key key) (Sh.lines content) <> [] -> Sh.has_backslash value = false) ->
  Sh.run (safeUpdateCmdOf path key (escapeShellArg (key ++ lit "=" ++ value))) fs =
  Some (match filter (without_key key) (Sh.lines content) with
        | [] =>
            (mkResult 1 [] [],
             Sh.write (Sh.write fs (tmp_path path) []) (tmp_path path) [])
        | keep =>
            (mkResult 0 [] [], updated fs path keep (key ++ lit "=" ++ value))
        end).
Proof.
  intros Hp Hp0 Hk He Ht Hr Htext Hv.
  destruct (valid_key_chars key Hk) as (Hk1 & Hk2 & Hk3).
  destruct (place_parts _ _ Ht) as (Hct & _ & _).
  pose proof (canonical_file _ Hct) as Hf.
  unfold Sh.run. rewrite lex_safeUpdateCmd by assumption.
  cbn [Sh.parse Sh.no_args Sh.argv Sh.redir app].
  fold (tmp_path path). fold (env_path path).
  rewrite (run_filter path key fs content Hk He Ht Hr Htext).
  destruct (filter (without_key key) (Sh.lines content)) as [|l keep] eqn:Ekeep.
  - reflexivity.
  - cbn [Sh.run_rest code Nat.eqb].
    destruct (places_write_tmp path fs [] He Ht) as [He1 Ht1].
    destruct (places_write_tmp path _ (Sh.unlines (l :: keep)) He1 Ht1) as [He2 Ht2].
    rewrite (run_echo_append path _ _ (Sh.unlines (l :: keep)) (Hk3 _)
               (no_backslash_new_line key value Hk (Hv ltac:(discriminate))) Ht2)
      by (now apply read_write_same).
    cbn [Sh.run_rest code Nat.eqb stdout stderr app].
    destruct (places_write_tmp path _ (Sh.unlines (l :: keep)) He2 Ht2) as [He3 Ht3].
    destruct (places_write_tmp path _
                (Sh.unlines (l :: keep) ++ (key ++ lit "=" ++ value) ++ [newline]) He3 Ht3)
      as [He4 Ht4].
    rewrite (run_rename path _
               (Sh.unlines (l :: keep) ++ (key ++ lit "=" ++ value) ++ [newline]) He4 Ht4)
      by (now apply read_write_same).
    reflexivity.
Qed.

Lemma run_safeUpdateCmd_missing (path key value : str) (fs : Sh.store) :
  forallb Sh.plain path = true -> path <> [] -> test key_re key = true ->
  Sh.place fs (env_path path) = true -> Sh.place fs (tmp_path path) = true ->
  Sh.read fs (env_path path) = None ->
  Sh.run (safeUpdateCmdOf path key (escapeShellArg (key ++ lit "=" ++ value))) fs =
  Some (mkResult 2 []
          (lit "grep: " ++ env_path path ++ lit ": No such file or directory"),
        Sh.write (Sh.write fs (tmp_path path) []) (tmp_path path) []).
Proof.
  intros Hp Hp0 Hk He Ht Hr.
  destruct (valid_key_chars key Hk) as (Hk1 & Hk2 & Hk3).
  unfold Sh.run. rewrite lex_safeUpdateCmd by assumption.
  cbn [Sh.parse Sh.no_args Sh.argv Sh.redir app].
  fold (tmp_path path). fold (env_path path).
  rewrite (run_filter_missing path key fs Hk He Ht Hr). reflexivity.
Qed.

(** The probe [grep "^key=" .env] changes nothing. *)
Lemma run_checkCmd (path key : str) (fs fs' : Sh.store) (r : CommandResult) :
  forallb Sh.plain path = true -> path <> [] -> test key_re key = true ->
  Sh.run (checkCmdOf path key) fs = Some (r, fs') -> fs' = fs.
Proof.
  intros Hp Hp0 Hk.
  destruct (valid_key_chars key Hk) as (Hk1 & Hk2 & Hk3).
  unfold Sh.run. rewrite lex_checkCmd by assumption.
  cbn [Sh.parse Sh.no_args Sh.argv Sh.redir app].
  fold (env_path path). unfold Sh.run_simple. cbn [Sh.redir Sh.argv Sh.run_rest].
  rewrite utility_grep.
  change (Sh.is_option (lit "^" ++ key ++ lit "=")) with false. cbv iota.
  unfold Sh.grep. rewrite (grep_key_pattern key Hk2).
  destruct (Sh.canonical (env_path path) && negb (Sh.is_dir fs (resolve (env_path path))));
    [|discriminate].
  destruct (Sh.read fs (env_path path)) as [content|];
    [destruct (Sh.is_text content); [|discriminate]|]; intros E; now inversion E.
Qed.

(** *** The mutator over an open session *)

Lemma host_exec_open (h : Host) (cmd : str) (cwd : option str) (r : CommandResult)
    (fs : Sh.store) :
  open_session h -> Sh.is_text cmd = true -> Sh.run cmd (files h) = Some (r, fs) ->
  host_execCommand h cmd cwd =
  (Some (trimmed r), mkHost (reachable h) true None fs (other h)).
Proof.
  intros [Hc Hl] Ht Hrun. unfold host_execCommand, host_run. now rewrite Hc, Hl, Ht, Hrun.
Qed.

(** The probe is answered and leaves the files as they are. *)
Lemma host_exec_check (h : Host) (path key : str) :
  open_session h ->
  forallb Sh.plain path = true -> path <> [] -> test key_re key = true ->
  exists r,
    host_execCommand h (checkCmdOf path key) None =
    (Some r, mkHost (reachable h) true None (files h) (other h)).
Proof.
  intros [Hc Hl] Hp Hp0 Hk. unfold host_execCommand, host_run. rewrite Hc, Hl.
  cbn [andb negb spend].
  destruct (Sh.is_text (checkCmdOf path key)); [|eexists; reflexivity].
  destruct (Sh.run (checkCmdOf path key) (files h)) as [[r fs']|] eqn:E;
    [|eexists; reflexivity].
  apply run_checkCmd in E; try assumption. subst fs'. eexists. reflexivity.
Qed.

(** What [updateRemoteEnv] does over an open session, for a valid key and
    an existing [.env]: it probes, sends the update command and reports the
    update; the store is the one the update command leaves. *)
Lemma updateRemoteEnv_open (h : Host) (path key value content : str) (t : list Event) :
  open_session h ->
  forallb Sh.plain path = true -> path <> [] -> Sh.is_text path = true ->
  test key_re key = true -> Sh.is_text value = true ->
  Sh.place (files h) (env_path path) = true ->
  Sh.place (files h) (tmp_path path) = true ->
  Sh.read (files h) (env_path path) = Some content -> Sh.is_text content = true ->
  (filter (without_key key) (Sh.lines content) <> [] -> Sh.has_backslash value = false) ->
  exists t',
    updateRemoteEnv node_ssh path key value (mkState h t) =
    Ok tt (mkState
             (mkHost (reachable h) true None
                (match filter (without_key key) (Sh.lines content) with
                 | [] => Sh.write (Sh.write (files h) (tmp_path path) []) (tmp_path path) []
                 | keep => updated (files h) path keep (key ++ lit "=" ++ value)
                 end)
                (other h))
             (t' ++ [EvOut (MUpdated key)])).
Proof.
  intros Ho Hp Hp0 Hpt Hk Hvt He Ht Hr Htext Hv.
  destruct (host_exec_check h path key Ho Hp Hp0 Hk) as [r0 Hcheck].
  pose proof (run_safeUpdateCmd path key value (files h) content Hp Hp0 Hk He Ht Hr Htext Hv)
    as Hupd.
  destruct (valid_key_text key Hk) as [Hkt _].
  pose proof (is_text_safeUpdateCmd path key _ Hpt Hkt (is_text_new_line key value Hk Hvt))
    as Hcmd.
  unfold updateRemoteEnv. rewrite Hk. cbn [negb].
  unfold try_catch, bind, ssh_execCommand, runCommand, try_catch, bind, ssh_execCommand.
  cbn [execCommand node_ssh world trace].
  rewrite Hcheck.
  cbn [world trace files reachable other].
  assert (Ho' : open_session (mkHost (reachable h) true None (files h) (other h)))
    by (split; reflexivity).
  destruct (filter (without_key key) (Sh.lines content)) as [|l keep].
  - rewrite (host_exec_open _ _ (Some path) _ _ Ho' Hcmd Hupd). eexists.
    cbn. unfold emit. cbn. rewrite ?app_assoc. reflexivity.
  - rewrite (host_exec_open _ _ (Some path) _ _ Ho' Hcmd Hupd). eexists.
    cbn. unfold emit. cbn. rewrite ?app_assoc. reflexivity.
Qed.

(** The mutator over an open session, when the project has no [.env]. *)
Lemma updateRemoteEnv_open_missing (h : Host) (path key value : str) (t : list Event) :
  open_session h ->
  forallb Sh.plain path = true -> path <> [] -> Sh.is_text path = true ->
  test key_re key = true -> Sh.is_text value = true ->
  Sh.place (files h) (env_path path) = true ->
  Sh.place (files h) (tmp_path path) = true ->
  Sh.read (files h) (env_path path) = None ->
  exists t',
    updateRemoteEnv node_ssh path key value (mkState h t) =
    Ok tt (mkState
             (mkHost (reachable h) true None
                (Sh.write (Sh.write (files h) (tmp_path path) []) (tmp_path path) [])
                (other h))
             (t' ++ [EvOut (MUpdated key)])).
Proof.
  intros Ho Hp Hp0 Hpt Hk Hvt He Ht Hr.
  destruct (host_exec_check h path key Ho Hp Hp0 Hk) as [r0 Hcheck].
  pose proof (run_safeUpdateCmd_missing path key value (files h) Hp Hp0 Hk He Ht Hr) as Hupd.
  destruct (valid_key_text key Hk) as [Hkt _].
  pose proof (is_text_safeUpdateCmd path key _ Hpt Hkt (is_text_new_line key value Hk Hvt))
    as Hcmd.
  unfold updateRemoteEnv. rewrite Hk. cbn [negb].
  unfold try_catch, bind, ssh_execCommand, runCommand, try_catch, bind, ssh_execCommand.
  cbn [execCommand node_ssh world trace].
  rewrite Hcheck.
  cbn [world trace files reachable other].
  assert (Ho' : open_session (mkHost (reachable h) true None (files h) (other h)))
    by (split; reflexivity).
  rewrite (host_exec_open _ _ (Some path) _ _ Ho' Hcmd Hupd).
  generalize (trimmed (mkResult 2 []
                (lit "grep: " ++ env_path path ++ lit ": No such file or directory"))).
  intros [c o [|x e]]; eexists; cbn; unfold emit; cbn; rewrite ?app_assoc; reflexivity.
Qed.

(** *** Lines *)

Lemma lines_from_line (l cur rest : str) :
  no_newline l = true ->
  Sh.lines_from cur (l ++ newline :: rest) = (cur ++ l) :: Sh.lines_from [] rest.
Proof.
  revert cur. induction l as [|c l IH]; intros cur Hl.
  - simpl. now rewrite app_nil_r.
  - unfold no_newline in Hl. simpl in Hl. apply andb_true_iff in Hl as [Hc Hl].
    apply negb_true_iff in Hc. simpl. rewrite Hc, (IH _ Hl). now rewrite <- app_assoc.
Qed.

Lemma lines_unlines (ls : list str) :
  forallb no_newline ls = true -> Sh.lines (Sh.unlines ls) = ls.
Proof.
  unfold Sh.lines. induction ls as [|l ls IH]; simpl; [reflexivity|].
  intros H. apply andb_true_iff in H as [Hl Hls].
  rewrite <- app_assoc. simpl. rewrite (lines_from_line l [] _ Hl).
  simpl. now rewrite (IH Hls).
Qed.

Lemma lines_from_no_newline (s cur : str) :
  no_newline cur = true -> forallb no_newline (Sh.lines_from cur s) = true.
Proof.
  revert cur. induction s as [|c s IH]; intros cur Hcur; simpl.
  - destruct cur as [|a cur]; [reflexivity|].
    change (forallb no_newline [a :: cur]) with (no_newline (a :: cur) && true).
    now rewrite Hcur.
  - destruct (chr_eqb c newline) eqn:Ec.
    + simpl. rewrite Hcur. now apply IH.
    + apply IH. unfold no_newline in *. rewrite forallb_app, Hcur. simpl. now rewrite Ec.
Qed.

Lemma lines_no_newline (s : str) : forallb no_newline (Sh.lines s) = true.
Proof. now apply lines_from_no_newline. Qed.

Lemma forallb_filter {A : Type} (f g : A -> bool) (l : list A) :
  forallb f l = true -> forallb f (filter g l) = true.
Proof.
  induction l as [|x l IH]; simpl; [trivial|].
  intros H. apply andb_true_iff in H as [Hx Hl].
  destruct (g x); simpl; [rewrite Hx|]; now apply IH.
Qed.

Lemma starts_with_app (p rest : str) : starts_with p (p ++ rest) = true.
Proof. induction p as [|c p IH]; simpl; [reflexivity|]. now rewrite chr_eqb_refl. Qed.

Lemma filter_idem {A : Type} (f : A -> bool) (l : list A) :
  filter f (filter f l) = filter f l.
Proof.
  induction l as [|x l IH]; simpl; [reflexivity|].
  destruct (f x) eqn:E; simpl; [rewrite E, IH|]; auto.
Qed.

Lemma key_tail_no_newline (c : ascii) : key_tail c = true -> chr_eqb c newline = false.
Proof. intros H. destruct c as [[] [] [] [] [] [] [] []]; try discriminate H; reflexivity. Qed.

Lemma new_line_no_newline (key value : str) :
  test key_re key = true -> no_newline value = true ->
  no_newline (key ++ lit "=" ++ value) = true.
Proof.
  intros Hk Hv. apply key_re_spec in Hk as (c & t & -> & Hc & Ht).
  unfold no_newline in *. rewrite !forallb_app, Hv.
  assert (H : forallb (fun c => negb (chr_eqb c newline)) (c :: t) = true).
  { apply forallb_forall. intros x Hx. apply negb_true_iff, key_tail_no_newline.
    destruct Hx as [<-|Hx]; [now apply key_head_tail|].
    rewrite forallb_forall in Ht. now apply Ht. }
  rewrite H. reflexivity.
Qed.

Lemma text_char_newline (c : ascii) : chr_eqb c newline = true -> Sh.text_char c = true.
Proof. intros H. apply chr_eqb_eq in H. now subst c. Qed.

Lemma lines_from_text (s cur : str) :
  Sh.is_text cur = true -> Sh.is_text s = true ->
  forallb Sh.is_text (Sh.lines_from cur s) = true.
Proof.
  revert cur. induction s as [|c s IH]; intros cur Hcur Hs; cbn [Sh.lines_from].
  - destruct cur; [reflexivity|]. cbn [forallb]. now rewrite Hcur.
  - unfold Sh.is_text in Hs. cbn [forallb] in Hs. apply andb_true_iff in Hs as [Hc Hs].
    destruct (chr_eqb c newline).
    + cbn [forallb]. rewrite Hcur. now apply IH.
    + apply IH; [|exact Hs]. rewrite is_text_app, Hcur. unfold Sh.is_text. cbn [forallb].
      now rewrite Hc.
Qed.

Lemma unlines_text (ls : list str) :
  forallb Sh.is_text ls = true -> Sh.is_text (Sh.unlines ls) = true.
Proof.
  induction ls as [|l ls IH]; [reflexivity|]. cbn [forallb Sh.unlines flat_map].
  intros H. apply andb_true_iff in H as [Hl Hls].
  rewrite !is_text_app, Hl. fold (Sh.unlines ls). now rewrite (IH Hls).
Qed.

(** The file the update leaves is text again. *)
Lemma updated_text (key value content : str) :
  test key_re key = true -> Sh.is_text value = true -> Sh.is_text content = true ->
  Sh.is_text (Sh.unlines (filter (without_key key) (Sh.lines content)
                            ++ [key ++ lit "=" ++ value])) = true.
Proof.
  intros Hk Hv Hc. apply unlines_text. rewrite forallb_app. apply andb_true_iff. split.
  - apply forallb_filter. now apply lines_from_text.
  - cbn [forallb]. now rewrite (is_text_new_line key value Hk Hv).
Qed.

(** *** Reading the updated store *)

Lemma read_updated_env (fs : Sh.store) (path : str) (keep : list str) (line : str) :
  Sh.canonical (tmp_path path) = true ->
  Sh.read (updated fs path keep line) (env_path path) = Some (Sh.unlines (keep ++ [line])).
Proof.
  intros Hc. destruct (siblings path Hc).
  unfold updated. rewrite read_write_same, unlines_app by assumption. simpl.
  now rewrite app_nil_r.
Qed.

Lemma read_updated_tmp (fs : Sh.store) (path : str) (keep : list str) (line : str) :
  Sh.canonical (tmp_path path) = true ->
  Sh.read (updated fs path keep line) (tmp_path path) = None.
Proof.
  intros Hc. destruct (siblings path Hc).
  unfold updated. rewrite read_write_other by assumption.
  apply read_remove_same.
Qed.

Lemma agree_off_refl (path : str) (fs : Sh.store) : agree_off path fs fs.
Proof. now intros g _ _. Qed.

Lemma agree_off_trans (path : str) (fs1 fs2 fs3 : Sh.store) :
  agree_off path fs1 fs2 -> agree_off path fs2 fs3 -> agree_off path fs1 fs3.
Proof. intros H12 H23 g He Ht. now rewrite (H23 g He Ht), (H12 g He Ht). Qed.

Lemma agree_off_write_tmp (path : str) (fs : Sh.store) (c : str) :
  agree_off path fs (Sh.write fs (tmp_path path) c).
Proof. intros g _ Ht. now apply read_write_other. Qed.

Lemma agree_off_write_env (path : str) (fs : Sh.store) (c : str) :
  agree_off path fs (Sh.write fs (env_path path) c).
Proof. intros g He _. now apply read_write_other. Qed.

Lemma agree_off_remove_tmp (path : str) (fs : Sh.store) :
  agree_off path fs (Sh.remove fs (tmp_path path)).
Proof. intros g _ Ht. now apply read_remove_other. Qed.

Lemma agree_off_updated (fs : Sh.store) (path : str) (keep : list str) (line : str) :
  agree_off path fs (updated fs path keep line).
Proof.
  unfold updated.
  repeat first [ eapply agree_off_trans; [|apply agree_off_write_env]
               | eapply agree_off_trans; [|apply agree_off_remove_tmp]
               | eapply agree_off_trans; [|apply agree_off_write_tmp] ].
  apply agree_off_refl.
Qed.

(** The two places are still there after the update. *)
Lemma places_updated (fs : Sh.store) (path : str) (keep : list str) (line : str) :
  project_files fs path = true -> project_files (updated fs path keep line) path = true.
Proof.
  unfold project_files. intros H. apply andb_true_iff in H as [He Ht].
  destruct (place_parts _ _ Ht) as (Hct & _ & _). destruct (siblings path Hct).
  destruct (places_write_tmp path fs [] He Ht) as [He1 Ht1].
  destruct (places_write_tmp path _ (Sh.unlines keep) He1 Ht1) as [He2 Ht2].
  destruct (places_write_tmp path _ (Sh.unlines keep) He2 Ht2) as [He3 Ht3].
  destruct (places_write_tmp path _ (Sh.unlines keep ++ line ++ [newline]) He3 Ht3)
    as [He4 Ht4].
  destruct (place_parts _ _ He4) as (_ & _ & Hde). destruct (place_parts _ _ Ht4) as (_ & _ & Hdt).
  unfold updated, Sh.place.
  rewrite !is_dir_write by assumption.
  rewrite <- sib_parent0 at 2. rewrite sib_env_in_parent0, sib_env0, sib_tmp0.
  rewrite (is_dir_remove _ (tmp_path path) _ Hde), (is_dir_remove _ (tmp_path path) _ Hdt).
  rewrite below_irrefl, sib_below_tmp0, !orb_true_r. reflexivity.
Qed.

(** *** The mutator, in general *)

(** The file after the call, in closed form. *)
Lemma updateRemoteEnv_env_after (h : Host) (p key value content : str) (t : list Event) :
  open_session h ->
  isValidProjectName p = true -> test key_re key = true -> literal value = true ->
  project_files (files h) (projectPathOf p) = true ->
  Sh.read (files h) (env_path (projectPathOf p)) = Some content ->
  Sh.is_text content = true ->
  filter (without_key key) (Sh.lines content) <> [] ->
  env_after (projectPathOf p)
    (updateRemoteEnv node_ssh (projectPathOf p) key value (mkState h t)) =
  Some (Sh.unlines (filter (without_key key) (Sh.lines content)
                      ++ [key ++ lit "=" ++ value])) /\
  open_session (world (final (updateRemoteEnv node_ssh (projectPathOf p) key value
                                (mkState h t)))) /\
  project_files (files (world (final (updateRemoteEnv node_ssh (projectPathOf p) key value
                                        (mkState h t)))))
                (projectPathOf p) = true /\
  Sh.read (files (world (final (updateRemoteEnv node_ssh (projectPathOf p) key value
                                  (mkState h t)))))
          (tmp_path (projectPathOf p)) = None.
Proof.
  intros Ho Hp Hk Hv Hpf Hr Htext Hkeep.
  destruct (valid_project_path p Hp) as (Hpl & Hp0 & Hpt).
  unfold literal in Hv. apply andb_true_iff in Hv as [Hvt Hvb]. apply negb_true_iff in Hvb.
  pose proof Hpf as Hpf'. unfold project_files in Hpf'.
  apply andb_true_iff in Hpf' as [He Ht].
  destruct (place_parts _ _ Ht) as (Hct & _ & _).
  destruct (updateRemoteEnv_open h (projectPathOf p) key value content t Ho Hpl Hp0 Hpt Hk
              Hvt He Ht Hr Htext (fun _ => Hvb)) as [t' E].
  unfold env_after. rewrite E. cbn [final world files].
  destruct (filter (without_key key) (Sh.lines content)) as [|l keep'];
    [now contradiction Hkeep|].
  split; [now apply read_updated_env|]. split; [now split|].
  split; [now apply places_updated|now apply read_updated_tmp].
Qed.

(** The lines of the file after the call. *)
Lemma updated_lines (key value : str) (ls : list str) :
  test key_re key = true -> no_newline value = true ->
  forallb no_newline ls = true ->
  Sh.lines (Sh.unlines (filter (without_key key) ls ++ [key ++ lit "=" ++ value])) =
  filter (without_key key) ls ++ [key ++ lit "=" ++ value].
Proof.
  intros Hk Hv Hls. apply lines_unlines. rewrite forallb_app. apply andb_true_iff. split.
  - now apply forallb_filter.
  - cbn [forallb]. now rewrite (new_line_no_newline key value Hk Hv).
Qed.

Lemma new_line_has_key (key value : str) :
  starts_with (key ++ lit "=") (key ++ lit "=" ++ value) = true.
Proof. rewrite app_assoc. apply starts_with_app. Qed.

Lemma key_lines_dropped (key : str) (ls : list str) :
  filter (starts_with (key ++ lit "=")) (filter (without_key key) ls) = [].
Proof.
  induction ls as [|l ls IH]; [reflexivity|]. cbn [filter]. unfold without_key at 1.
  destruct (starts_with (key ++ lit "=") l) eqn:E; cbn [negb filter]; [|rewrite E];
    exact IH.
Qed.

Lemma kept_lines_again (key value : str) (ls : list str) :
  filter (without_key key) (filter (without_key key) ls ++ [key ++ lit "=" ++ value]) =
  filter (without_key key) ls.
Proof.
  rewrite filter_app. cbn [filter]. unfold without_key at 3.
  rewrite new_line_has_key. cbn [negb]. rewrite app_nil_r. apply filter_idem.
Qed.

(** X1: over an open session, for a valid project whose directory exists on
    the host, a valid key and a value that is text without backslash and
    without line feed, when the remote [.env] is a text file with at least
    one line that does not start with [key=]: after [updateRemoteEnv] the
    file consists of those lines, in their order, followed by the line
    [key=value], which is then the only line with the prefix; the temporary
    file is gone. *)
Theorem setEnvVar_moves_key_last (h : Host) (p key value content : str) (t : list Event) :
  open_session h ->
  isValidProjectName p = true -> test key_re key = true ->
  no_newline value = true -> literal value = true ->
  project_files (files h) (projectPathOf p) = true ->
  Sh.read (files h) (env_path (projectPathOf p)) = Some content ->
  Sh.is_text content = true ->
  filter (without_key key) (Sh.lines content) <> [] ->
  exists new,
    env_after (projectPathOf p)
      (updateRemoteEnv node_ssh (projectPathOf p) key value (mkState h t)) = Some new /\
    Sh.lines new = filter (without_key key) (Sh.lines content) ++ [key ++ lit "=" ++ value] /\
    filter (starts_with (key ++ lit "=")) (Sh.lines new) = [key ++ lit "=" ++ value] /\
    filter (without_key key) (Sh.lines new) = filter (without_key key) (Sh.lines content) /\
    Sh.read (files (world (final (updateRemoteEnv node_ssh (projectPathOf p) key value
                                    (mkState h t)))))
            (tmp_path (projectPathOf p)) = None.
Proof.
  intros Ho Hp Hk Hv Hlit Hpf Hr Htext Hkeep.
  destruct (updateRemoteEnv_env_after h p key value content t Ho Hp Hk Hlit Hpf Hr Htext Hkeep)
    as (E & _ & _ & Htmp).
  eexists. split; [exact E|].
  rewrite (updated_lines key value _ Hk Hv (lines_no_newline content)).
  split; [reflexivity|split; [|split; [|exact Htmp]]].
  - rewrite filter_app. cbn [filter]. rewrite new_line_has_key.
    now rewrite key_lines_dropped.
  - apply kept_lines_again.
Qed.

Lemma setEnvVar_moves_key_last_witness :
  exists new,
    env_after (projectPathOf (lit "demo"))
      (updateRemoteEnv node_ssh (projectPathOf (lit "demo")) (lit "FOO") (lit "3")
         (mkState (session (line "FOO=1" ++ line "BAR=2")) [])) = Some new /\
    Sh.lines new =
      filter (without_key (lit "FOO")) (Sh.lines (line "FOO=1" ++ line "BAR=2"))
        ++ [lit "FOO" ++ lit "=" ++ lit "3"] /\
    filter (starts_with (lit "FOO" ++ lit "=")) (Sh.lines new)
      = [lit "FOO" ++ lit "=" ++ lit "3"] /\
    filter (without_key (lit "FOO")) (Sh.lines new) =
      filter (without_key (lit "FOO")) (Sh.lines (line "FOO=1" ++ line "BAR=2")) /\
    Sh.read (files (world (final
               (updateRemoteEnv node_ssh (projectPathOf (lit "demo")) (lit "FOO") (lit "3")
                  (mkState (session (line "FOO=1" ++ line "BAR=2")) [])))))
            (tmp_path (projectPathOf (lit "demo"))) = None.
Proof.
  apply (setEnvVar_moves_key_last (session (line "FOO=1" ++ line "BAR=2"))
           (lit "demo") (lit "FOO") (lit "3") (line "FOO=1" ++ line "BAR=2") []).
  - split; reflexivity.
  - reflexivity.
  - reflexivity.
  - reflexivity.
  - reflexivity.
  - reflexivity.
  - reflexivity.
  - reflexivity.
  - vm_compute. discriminate.
Defined.

(** X2: under the conditions of X1, a second identical call leaves the
    file as the first call left it. *)
Theorem setEnvVar_idempotent (h : Host) (p key value content : str) (t : list Event) :
  open_session h ->
  isValidProjectName p = true -> test key_re key = true ->
  no_newline value = true -> literal value = true ->
  project_files (files h) (projectPathOf p) = true ->
  Sh.read (files h) (env_path (projectPathOf p)) = Some content ->
  Sh.is_text content = true ->
  filter (without_key key) (Sh.lines content) <> [] ->
  env_after (projectPathOf p)
    (updateRemoteEnv node_ssh (projectPathOf p) key value
       (final (updateRemoteEnv node_ssh (projectPathOf p) key value (mkState h t)))) =
  env_after (projectPathOf p)
    (updateRemoteEnv node_ssh (projectPathOf p) key value (mkState h t)).
Proof.
  intros Ho Hp Hk Hv Hlit Hpf Hr Htext Hkeep.
  destruct (updateRemoteEnv_env_after h p key value content t Ho Hp Hk Hlit Hpf Hr Htext Hkeep)
    as (E1 & Ho1 & Hpf1 & _).
  rewrite E1.
  destruct (final (updateRemoteEnv node_ssh (projectPathOf p) key value (mkState h t)))
    as [h1 t1] eqn:Ef.
  unfold env_after in E1. rewrite ?Ef in E1. rewrite ?Ef in Ho1. rewrite ?Ef in Hpf1.
  cbn [world] in E1, Ho1, Hpf1.
  assert (Hkeep1 : filter (without_key key)
                     (Sh.lines (Sh.unlines (filter (without_key key) (Sh.lines content)
                                              ++ [key ++ lit "=" ++ value]))) <> []).
  { rewrite (updated_lines key value _ Hk Hv (lines_no_newline content)), kept_lines_again.
    exact Hkeep. }
  assert (Htext1 : Sh.is_text (Sh.unlines (filter (without_key key) (Sh.lines content)
                                             ++ [key ++ lit "=" ++ value])) = true).
  { apply updated_text; try assumption. unfold literal in Hlit.
    now apply andb_true_iff in Hlit as [Hlit _]. }
  destruct (updateRemoteEnv_env_after h1 p key value _ t1 Ho1 Hp Hk Hlit Hpf1 E1 Htext1 Hkeep1)
    as [E2 _].
  rewrite E2.
  rewrite (updated_lines key value _ Hk Hv (lines_no_newline content)), kept_lines_again.
  reflexivity.
Qed.

Lemma setEnvVar_idempotent_witness :
  env_after (projectPathOf (lit "demo"))
    (updateRemoteEnv node_ssh (projectPathOf (lit "demo")) (lit "FOO") (lit "3")
       (final (updateRemoteEnv node_ssh (projectPathOf (lit "demo")) (lit "FOO") (lit "3")
                 (mkState (session (line "FOO=1" ++ line "BAR=2")) [])))) =
  env_after (projectPathOf (lit "demo"))
    (updateRemoteEnv node_ssh (projectPathOf (lit "demo")) (lit "FOO") (lit "3")
       (mkState (session (line "FOO=1" ++ line "BAR=2")) [])).
Proof.
  apply (setEnvVar_idempotent (session (line "FOO=1" ++ line "BAR=2"))
           (lit "demo") (lit "FOO") (lit "3") (line "FOO=1" ++ line "BAR=2") []).
  - split; reflexivity.
  - reflexivity.
  - reflexivity.
  - reflexivity.
  - reflexivity.
  - reflexivity.
  - reflexivity.
  - reflexivity.
  - vm_compute. discriminate.
Defined.

(** X3: over an open session, for a valid project whose directory exists on
    the host, a valid key and a value that is text, when the remote [.env]
    is a text file of which every line starts with [key=] (or the file is
    empty), the call leaves the file as it was. *)
Theorem setEnvVar_without_other_lines (h : Host) (p key value content : str)
    (t : list Event) :
  open_session h ->
  isValidProjectName p = true -> test key_re key = true -> Sh.is_text value = true ->
  project_files (files h) (projectPathOf p) = true ->
  Sh.read (files h) (env_path (projectPathOf p)) = Some content ->
  Sh.is_text content = true ->
  filter (without_key key) (Sh.lines content) = [] ->
  env_after (projectPathOf p)
    (updateRemoteEnv node_ssh (projectPathOf p) key value (mkState h t)) = Some content.
Proof.
  intros Ho Hp Hk Hvt Hpf Hr Htext Hkeep.
  destruct (valid_project_path p Hp) as (Hpl & Hp0 & Hpt).
  unfold project_files in Hpf. apply andb_true_iff in Hpf as [He Ht].
  destruct (place_parts _ _ Ht) as (Hct & _ & _). destruct (siblings _ Hct).
  destruct (updateRemoteEnv_open h (projectPathOf p) key value content t Ho Hpl Hp0 Hpt Hk
              Hvt He Ht Hr Htext) as [t' E].
  { intros Hne. now contradiction Hne. }
  unfold env_after. rewrite E, Hkeep. cbn [final world files].
  rewrite !read_write_other by assumption. exact Hr.
Qed.

Lemma setEnvVar_without_other_lines_witness :
  env_after (projectPathOf (lit "demo"))
    (updateRemoteEnv node_ssh (projectPathOf (lit "demo")) (lit "FOO") (lit "3")
       (mkState (session (line "FOO=1")) [])) = Some (line "FOO=1").
Proof.
  apply (setEnvVar_without_other_lines (session (line "FOO=1"))
           (lit "demo") (lit "FOO") (lit "3") (line "FOO=1") []).
  - split; reflexivity.
  - reflexivity.
  - reflexivity.
  - reflexivity.
  - reflexivity.
  - reflexivity.
  - reflexivity.
  - reflexivity.
Defined.

(** *** Which branch the mutator takes *)

(** X4: for any session: when the probe is answered, whatever its exit status,
    the next command is the filter-and-rename one; when the probe is
    rejected, the next command is the append. *)
Theorem updateRemoteEnv_branch (W : Type) (ssh : NodeSSH W) (path key value : str)
    (s : State W) :
  test key_re key = true ->
  exists l,
    trace (final (updateRemoteEnv ssh path key value s)) =
    trace s ++
      EvExec (checkCmdOf path key) None ::
      EvExec (match fst (execCommand ssh (world s) (checkCmdOf path key) None) with
              | Some _ => safeUpdateCmdOf path key (escapeShellArg (key ++ lit "=" ++ value))
              | None => appendCmdOf path (escapeShellArg (key ++ lit "=" ++ value))
              end) (Some path) :: l.
Proof.
  intros Hk. unfold updateRemoteEnv. rewrite Hk. cbn [negb].
  unfold try_catch at 1. unfold bind at 1. unfold ssh_execCommand at 1.
  destruct (execCommand ssh (world s) (checkCmdOf path key) None) as [[r|] w];
    cbn [fst]; unfold bind, runCommand, try_catch, bind, ssh_execCommand;
    cbn [world trace].
  - destruct (execCommand ssh w _ (Some path)) as [[[rc ro [|x e]]|] w1]; cbn;
      rewrite <- ?app_assoc; cbn [app].
    + eexists. reflexivity.
    + eexists. reflexivity.
    + destruct (execCommand ssh w1 _ (Some path)) as [[[rc ro [|x e]]|] w2]; cbn;
        rewrite <- ?app_assoc; cbn [app]; eexists; reflexivity.
  - destruct (execCommand ssh w _ (Some path)) as [[[rc ro [|x e]]|] w1]; cbn;
      rewrite <- ?app_assoc; cbn [app]; eexists; reflexivity.
Qed.

Lemma updateRemoteEnv_branch_witness :
  exists l,
    trace (final (updateRemoteEnv node_ssh demo_path (lit "BAZ") (lit "x")
                    (mkState (session (line "BAR=2")) []))) =
    trace (mkState (session (line "BAR=2")) []) ++
      EvExec (checkCmdOf demo_path (lit "BAZ")) None ::
      EvExec (match fst (execCommand node_ssh
                           (world (mkState (session (line "BAR=2")) []))
                           (checkCmdOf demo_path (lit "BAZ")) None) with
              | Some _ => safeUpdateCmdOf demo_path (lit "BAZ")
                            (escapeShellArg (lit "BAZ" ++ lit "=" ++ lit "x"))
              | None => appendCmdOf demo_path
                          (escapeShellArg (lit "BAZ" ++ lit "=" ++ lit "x"))
              end) (Some demo_path) :: l.
Proof.
  apply (updateRemoteEnv_branch Host node_ssh demo_path (lit "BAZ") (lit "x")
           (mkState (session (line "BAR=2")) [])).
  reflexivity.
Defined.

(** ** The escaper, further *)

(** X5: two arguments have the same escaped form only if they are the same. *)
Theorem escapeShellArg_injective (a b : str) :
  escapeShellArg a = escapeShellArg b <-> a = b.
Proof.
  split; [|now intros ->].
  intros E.
  pose proof (lex_escapeShellArg a None []) as Ha.
  pose proof (lex_escapeShellArg b None []) as Hb.
  rewrite E, Hb in Ha. cbn in Ha. now injection Ha.
Qed.

Lemma only_words_map (l : list str) : Sh.only_words (map Sh.TWord l) = Some l.
Proof. induction l as [|w l IH]; simpl; [reflexivity|]. now rewrite IH. Qed.

Lemma lex_escaped_args (args : list str) :
  Sh.lex Sh.Bare None (Sh.join (lit " ") (map escapeShellArg args)) =
  Some (map Sh.TWord args).
Proof.
  induction args as [|a l IH]; [reflexivity|].
  destruct l as [|b l].
  - cbn [map Sh.join]. rewrite <- (app_nil_r (escapeShellArg a)).
    now rewrite lex_escapeShellArg.
  - change (Sh.join (lit " ") (map escapeShellArg (a :: b :: l)))
      with (escapeShellArg a ++ " "%char :: Sh.join (lit " ") (map escapeShellArg (b :: l))).
    rewrite lex_escapeShellArg, lex_space, IH. reflexivity.
Qed.

(** X6: a list of arguments, each escaped, joined by spaces: the shell reads
    the arguments back, as many and the same. *)
Theorem escapeShellArg_args_roundtrip (args : list str) :
  Sh.words (Sh.join (lit " ") (map escapeShellArg args)) = Some args.
Proof.
  unfold Sh.words. rewrite lex_escaped_args. apply only_words_map.
Qed.

(** ** Where a valid project name leads *)

Lemma split_on_plain (c : ascii) (w cur : str) :
  forallb (fun x => negb (chr_eqb x c)) w = true -> split_on c cur w = [cur ++ w].
Proof.
  revert cur. induction w as [|x w IH]; intros cur H; simpl.
  - now rewrite app_nil_r.
  - simpl in H. apply andb_true_iff in H as [Hx Hw]. apply negb_true_iff in Hx.
    rewrite Hx, (IH _ Hw), <- app_assoc. reflexivity.
Qed.

Lemma name_char_not_slash (c : ascii) : name_char c = true -> negb (chr_eqb c "/") = true.
Proof. intros H. destruct c as [[] [] [] [] [] [] [] []]; try discriminate H; reflexivity. Qed.

Lemma valid_name_segments (p : str) :
  isValidProjectName p = true ->
  split_on "/" [] (projectPathOf p) = [[]; lit "var"; lit "www"; p].
Proof.
  intros H. apply project_re_spec in H as [_ H].
  unfold projectPathOf. cbn. rewrite split_on_plain; [reflexivity|].
  apply forallb_forall. intros c Hc. apply name_char_not_slash.
  rewrite forallb_forall in H. now apply H.
Qed.

(** X7: a valid name is one path component: the project directory is
    [/var/www/name], except for the two names made of dots only, [.], which
    names [/var/www] itself, and [..], which names [/var]. *)
Theorem valid_name_resolution (p : str) :
  isValidProjectName p = true ->
  resolve (projectPathOf p) =
    (if str_eqb p (lit "..") then [lit "var"]
     else if str_eqb p (lit ".") then [lit "var"; lit "www"]
     else [lit "var"; lit "www"; p]) /\
  inside (lit "/var/www") (projectPathOf p) = negb (str_eqb p (lit "..")).
Proof.
  intros H. pose proof (valid_name_segments p H) as E.
  apply project_re_spec in H as [Hp _].
  unfold inside, resolve. rewrite E. cbn [normalize].
  change (str_eqb [] [] || str_eqb [] (lit ".")) with true. cbv iota.
  change (str_eqb (lit "var") [] || str_eqb (lit "var") (lit ".")) with false.
  change (str_eqb (lit "var") (lit "..")) with false.
  change (str_eqb (lit "www") [] || str_eqb (lit "www") (lit ".")) with false.
  change (str_eqb (lit "www") (lit "..")) with false. cbv iota.
  rewrite (str_eqb_neq p [] Hp). cbn [orb].
  destruct (str_eqb p (lit ".")) eqn:E1.
  - apply str_eqb_eq in E1. subst p. split; reflexivity.
  - destruct (str_eqb p (lit "..")) eqn:E2.
    + split; reflexivity.
    + split; reflexivity.
Qed.

Lemma valid_name_resolution_witness :
  resolve (projectPathOf (lit "demo")) =
    (if str_eqb (lit "demo") (lit "..") then [lit "var"]
     else if str_eqb (lit "demo") (lit ".") then [lit "var"; lit "www"]
     else [lit "var"; lit "www"; lit "demo"]) /\
  inside (lit "/var/www") (projectPathOf (lit "demo")) = negb (str_eqb (lit "demo") (lit "..")).
Proof.
  apply (valid_name_resolution (lit "demo")). reflexivity.
Defined.

(** ** The resolver and white space *)

Lemma trimStart_spaces (a s : str) :
  forallb is_space a = true -> trimStart (a ++ s) = trimStart s.
Proof.
  induction a as [|c a IH]; simpl; [reflexivity|].
  intros H. apply andb_true_iff in H as [Hc Ha]. rewrite Hc. now apply IH.
Qed.

Lemma trimStart_app (s b : str) :
  trimStart (s ++ b) =
  match trimStart s with
  | [] => trimStart b
  | t => t ++ b
  end.
Proof.
  induction s as [|c s IH]; simpl.
  - now destruct (trimStart b).
  - destruct (is_space c); [exact IH|reflexivity].
Qed.

Lemma forallb_rev {A : Type} (f : A -> bool) (l : list A) :
  forallb f l = true -> forallb f (rev l) = true.
Proof.
  rewrite !forallb_forall. intros H x Hx. apply H. now apply in_rev.
Qed.

Lemma trim_spaces (a s b : str) :
  forallb is_space a = true -> forallb is_space b = true ->
  trim (a ++ s ++ b) = trim s.
Proof.
  intros Ha Hb. unfold trim. rewrite (trimStart_spaces a _ Ha), trimStart_app.
  destruct (trimStart s) as [|c t] eqn:E.
  - rewrite <- (app_nil_r b), (trimStart_spaces b [] Hb). reflexivity.
  - rewrite rev_app_distr, (trimStart_spaces (rev b) _ (forallb_rev _ _ Hb)).
    reflexivity.
Qed.

(** X8: white space around what git prints, the line feed at its end
    included, makes no difference to the slug. *)
Theorem getGitRepoInfo_ignores_surrounding_space (a url b : str) :
  forallb is_space a = true -> forallb is_space b = true ->
  getGitRepoInfo (Some (a ++ url ++ b)) = getGitRepoInfo (Some url).
Proof.
  intros Ha Hb. unfold getGitRepoInfo. now rewrite (trim_spaces a url b Ha Hb).
Qed.

Lemma getGitRepoInfo_ignores_surrounding_space_witness :
  getGitRepoInfo (Some (lit " " ++ lit "git@github.com:Acme/Widgets.git" ++ [newline])) =
  getGitRepoInfo (Some (lit "git@github.com:Acme/Widgets.git")).
Proof.
  apply (getGitRepoInfo_ignores_surrounding_space (lit " ")
           (lit "git@github.com:Acme/Widgets.git") [newline]); reflexivity.
Defined.

(** ** What the shell makes of the commands *)

Lemma lex_appendCmd (path line : str) :
  forallb Sh.plain path = true -> path <> [] ->
  Sh.lex Sh.Bare None (appendCmdOf path (escapeShellArg line)) =
  Some [Sh.TWord (lit "echo"); Sh.TWord line; Sh.TAppend; Sh.TWord (path ++ lit "/.env")].
Proof.
  intros Hp Hp0. unfold appendCmdOf.
  do 2 lex_step. cbn. unfold Sh.push. cbn.
  rewrite <- !app_assoc. reflexivity.
Qed.

Lemma lex_restartCmd (p : str) :
  forallb Sh.plain p = true -> p <> [] ->
  Sh.lex Sh.Bare None (lit "pm2 restart " ++ p ++ lit " || pm2 restart index") =
  Some [Sh.TWord (lit "pm2"); Sh.TWord (lit "restart"); Sh.TWord p; Sh.TOr;
        Sh.TWord (lit "pm2"); Sh.TWord (lit "restart"); Sh.TWord (lit "index")].
Proof.
  intros Hp Hp0. lex_step. cbn. reflexivity.
Qed.

Lemma valid_name_plain (p : str) :
  isValidProjectName p = true -> forallb Sh.plain p = true /\ p <> [].
Proof.
  intros H. apply project_re_spec in H as [Hp H]. split; [|assumption].
  apply forallb_forall. intros c Hc. apply name_char_plain.
  rewrite forallb_forall in H. now apply H.
Qed.

(** X9: the restart command of a run with a valid project name: the shell
    reads [pm2 restart name], and after [||] [pm2 restart index]; the name
    is one argument of the first command and nothing else. *)
Theorem restart_command_parsed (W : Type) (ssh : NodeSSH W) (p : str) (w : W) :
  isValidProjectName p = true ->
  exists cmd,
    commands (trace (final (restartPhase ssh p (projectPathOf p) (mkState w [])))) = [cmd] /\
    command_list cmd =
      Some (Sh.mkSimple [lit "pm2"; lit "restart"; p] None,
            [(Sh.OrIf, Sh.mkSimple [lit "pm2"; lit "restart"; lit "index"] None)]).
Proof.
  intros H. apply valid_name_plain in H as [Hp Hp0].
  exists (lit "pm2 restart " ++ p ++ lit " || pm2 restart index"). split.
  - unfold restartPhase, runCommand, try_catch, bind, out, emit, ssh_execCommand.
    cbn [world trace app].
    destruct (execCommand ssh w _ (Some (projectPathOf p))) as [[[rc ro [|x e]]|] w1];
      reflexivity.
  - unfold command_list. rewrite (lex_restartCmd p Hp Hp0). reflexivity.
Qed.

Lemma restart_command_parsed_witness :
  exists cmd,
    commands (trace (final (restartPhase node_ssh (lit "demo") (projectPathOf (lit "demo"))
                              (mkState (session []) [])))) = [cmd] /\
    command_list cmd =
      Some (Sh.mkSimple [lit "pm2"; lit "restart"; lit "demo"] None,
            [(Sh.OrIf, Sh.mkSimple [lit "pm2"; lit "restart"; lit "index"] None)]).
Proof.
  apply (restart_command_parsed Host node_ssh (lit "demo") (session [])). reflexivity.
Defined.

(** X10: the two commands that carry the value of [updateRemoteEnv]: whatever
    the value holds, the shell reads [key=value] as the one argument of
    [echo]; the update is the three commands joined by [&&], the append is
    the one command. *)
Theorem env_line_one_word (p key value : str) :
  isValidProjectName p = true -> test key_re key = true ->
  command_list (safeUpdateCmdOf (projectPathOf p) key (escapeShellArg (key ++ lit "=" ++ value))) =
    Some (Sh.mkSimple [lit "grep"; lit "-v"; lit "^" ++ key ++ lit "=";
                       env_path (projectPathOf p)]
                      (Some (false, tmp_path (projectPathOf p))),
          [(Sh.AndIf, Sh.mkSimple [lit "echo"; key ++ lit "=" ++ value]
                                  (Some (true, tmp_path (projectPathOf p))));
           (Sh.AndIf, Sh.mkSimple [lit "mv"; tmp_path (projectPathOf p);
                                   env_path (projectPathOf p)] None)]) /\
  command_list (appendCmdOf (projectPathOf p) (escapeShellArg (key ++ lit "=" ++ value))) =
    Some (Sh.mkSimple [lit "echo"; key ++ lit "=" ++ value]
                      (Some (true, env_path (projectPathOf p))), []).
Proof.
  intros Hp Hk. destruct (valid_project_path p Hp) as (Hpl & Hp0 & _).
  destruct (valid_key_chars key Hk) as (Hk1 & _ & _).
  unfold command_list. rewrite lex_safeUpdateCmd, lex_appendCmd by assumption.
  split; reflexivity.
Qed.

Lemma env_line_one_word_witness :
  command_list (safeUpdateCmdOf (projectPathOf (lit "demo")) (lit "FOO")
                  (escapeShellArg (lit "FOO" ++ lit "=" ++ lit "$(reboot); it's"))) =
    Some (Sh.mkSimple [lit "grep"; lit "-v"; lit "^" ++ lit "FOO" ++ lit "=";
                       env_path (projectPathOf (lit "demo"))]
                      (Some (false, tmp_path (projectPathOf (lit "demo")))),
          [(Sh.AndIf, Sh.mkSimple [lit "echo"; lit "FOO" ++ lit "=" ++ lit "$(reboot); it's"]
                                  (Some (true, tmp_path (projectPathOf (lit "demo")))));
           (Sh.AndIf, Sh.mkSimple [lit "mv"; tmp_path (projectPathOf (lit "demo"));
                                   env_path (projectPathOf (lit "demo"))] None)]) /\
  command_list (appendCmdOf (projectPathOf (lit "demo"))
                  (escapeShellArg (lit "FOO" ++ lit "=" ++ lit "$(reboot); it's"))) =
    Some (Sh.mkSimple [lit "echo"; lit "FOO" ++ lit "=" ++ lit "$(reboot); it's"]
                      (Some (true, env_path (projectPathOf (lit "demo")))), []).
Proof.
  apply (env_line_one_word (lit "demo") (lit "FOO") (lit "$(reboot); it's")); reflexivity.
Defined.

(** ** The checks of [deploy] *)

Lemma getGitRepoInfo_nonempty (g : option str) (repo : str) :
  getGitRepoInfo g = Some repo -> repo <> [].
Proof.
  unfold getGitRepoInfo. destruct g as [out|]; [|discriminate].
  destruct (exec remote_re (trim out)) as [m|]; [|discriminate].
  destruct (group m 1) as [owner|]; [|discriminate].
  destruct (group m 2) as [name|]; [|discriminate].
  intros E. injection E as <-. destruct owner; discriminate.
Qed.

Section Checks.

Variable W : Type.
Variable ssh : NodeSSH W.
Variable env : Env.
Variable options : Options.
Variable script : list Step.

(** The project is resolved as [chosenProject] says. *)
Lemma resolveProject_chosen (s : State W) :
  match chosenProject env options with
  | Some p =>
      p <> [] /\
      exists l,
        resolveProject env options s = Ok p (mkState (world s) (trace s ++ l)) /\
        (l = [] \/ exists r, l = [EvOut (MAutoDetected p r)])
  | None =>
      resolveProject env options s =
      Exit 1 (mkState (world s) (trace s ++ [EvOut MNotSpecified; EvOut MPleaseProvide]))
  end.
Proof.
  unfold chosenProject, resolveProject.
  destruct (project options) as [[|c p]|]; cbn [truthy negb].
  2: { split; [discriminate|]. exists []. rewrite app_nil_r. destruct s. now split; [|left]. }
  all: destruct (getGitRepoInfo (git_config env)) as [repo|] eqn:Eg;
    try (unfold bind, out, emit, process_exit; simpl; now rewrite <- app_assoc).
  all: pose proof (getGitRepoInfo_nonempty _ _ Eg) as Hr;
    destruct repo as [|d repo]; [now contradiction Hr|];
    destruct (repoMap env (d :: repo)) as [[|x q]|]; cbn [truthy andb];
    try (unfold bind, out, emit, process_exit; simpl; now rewrite <- app_assoc).
  all: split; [discriminate|]; eexists; split; [reflexivity|right; eexists; reflexivity].
Qed.

(** [deploy], check by check. *)
Lemma deploy_outcome (w : W) :
  match chosenProject env options with
  | None =>
      deploy ssh env options script (mkState w []) =
      Exit 1 (mkState w [EvOut MNotSpecified; EvOut MPleaseProvide])
  | Some p =>
      exists l,
        (l = [] \/ exists r, l = [EvOut (MAutoDetected p r)]) /\
        deploy ssh env options script (mkState w []) =
        if negb (isValidProjectName p) then
          Exit 1 (mkState w (l ++ [EvOut (MInvalidProject p); EvOut MProjectNameRule]))
        else if negb (truthy (SSH_HOST env)) || negb (truthy (SSH_KEY_PATH env)) then
          Exit 1 (mkState w (l ++ [EvOut MMissingCredentials]))
        else
          guarded ssh env options script p
            (or_default (SSH_HOST env) []) (or_default (SSH_USERNAME env) (lit "root"))
            (or_default (SSH_KEY_PATH env) [])
            (mkState w (l ++ [EvOut MConnecting]))
  end.
Proof.
  pose proof (resolveProject_chosen (mkState w [])) as H.
  destruct (chosenProject env options) as [p|].
  - destruct H as (_ & l & E & Hl). exists l. split; [exact Hl|].
    unfold deploy, bind. rewrite E. clear E. cbn [app world trace].
    destruct (isValidProjectName p); cbn [negb when].
    2: { unfold bind, out, emit, process_exit. cbn. now rewrite <- app_assoc. }
    destruct (truthy (SSH_HOST env)); cbn [negb orb when ret].
    2: { reflexivity. }
    destruct (truthy (SSH_KEY_PATH env)); cbn [negb orb when ret].
    2: { reflexivity. }
    reflexivity.
  - unfold deploy, bind. rewrite H. reflexivity.
Qed.

(** The guarded block never ends the process with a status of its own. *)
Lemma guarded_status (project host username privateKeyPath : str) (s : State W) :
  exit_status (guarded ssh env options script project host username privateKeyPath s)
    <> Some 1.
Proof.
  destruct (guarded_shape W ssh env options script project host username privateKeyPath s)
    as [(s' & l & E & _)|(s' & l & E & _)]; rewrite E; discriminate.
Qed.

End Checks.

(** X11: a run ends with status 1 exactly when one of the three checks fails:
    no project is given and none is found for the git remote, the name is
    not a valid one, or the host or the key path is missing or empty. *)
Theorem exit_status_1_iff_check_fails (W : Type) (ssh : NodeSSH W) (env : Env)
    (options : Options) (script : list Step) (w : W) :
  exit_status (deploy ssh env options script (mkState w [])) = Some 1 <->
  match chosenProject env options with
  | None => True
  | Some p =>
      isValidProjectName p = false \/
      truthy (SSH_HOST env) = false \/ truthy (SSH_KEY_PATH env) = false
  end.
Proof.
  pose proof (deploy_outcome W ssh env options script w) as H.
  destruct (chosenProject env options) as [p|].
  2: { rewrite H. now split. }
  destruct H as (l & _ & ->).
  destruct (isValidProjectName p); cbn [negb].
  2: { split; [now left|reflexivity]. }
  destruct (truthy (SSH_HOST env)); cbn [negb orb].
  2: { split; [now right; left|reflexivity]. }
  destruct (truthy (SSH_KEY_PATH env)); cbn [negb orb].
  2: { split; [now right; right|reflexivity]. }
  split.
  - intros E. now apply guarded_status in E.
  - intros [E|[E|E]]; discriminate.
Qed.

(** X12: a run that ends with status 1 has not used the session: no
    connection, no command, no disposal, no prompt; it has printed only. *)
Theorem failed_check_touches_nothing (W : Type) (ssh : NodeSSH W) (env : Env)
    (options : Options) (script : list Step) (w : W) :
  exit_status (deploy ssh env options script (mkState w [])) = Some 1 ->
  world (final (deploy ssh env options script (mkState w []))) = w /\
  existsb is_connect (trace (final (deploy ssh env options script (mkState w [])))) = false /\
  commands (trace (final (deploy ssh env options script (mkState w [])))) = [] /\
  disposals (trace (final (deploy ssh env options script (mkState w [])))) = 0 /\
  prompts (trace (final (deploy ssh env options script (mkState w [])))) = 0.
Proof.
  pose proof (deploy_outcome W ssh env options script w) as H.
  destruct (chosenProject env options) as [p|].
  2: { rewrite H. intros _. repeat split. }
  destruct H as (l & Hl & ->).
  destruct (isValidProjectName p); cbn [negb].
  2: { intros _. destruct Hl as [->|[r ->]]; repeat split. }
  destruct (truthy (SSH_HOST env)); cbn [negb orb].
  2: { intros _. destruct Hl as [->|[r ->]]; repeat split. }
  destruct (truthy (SSH_KEY_PATH env)); cbn [negb orb].
  2: { intros _. destruct Hl as [->|[r ->]]; repeat split. }
  intros E. now apply guarded_status in E.
Qed.

Lemma failed_check_touches_nothing_witness :
  world (final (deploy node_ssh demo_env (demo_options "a b" true) []
                  (mkState (staging true [] silent) []))) = staging true [] silent /\
  existsb is_connect
    (trace (final (deploy node_ssh demo_env (demo_options "a b" true) []
                     (mkState (staging true [] silent) [])))) = false /\
  commands
    (trace (final (deploy node_ssh demo_env (demo_options "a b" true) []
                     (mkState (staging true [] silent) [])))) = [] /\
  disposals
    (trace (final (deploy node_ssh demo_env (demo_options "a b" true) []
                     (mkState (staging true [] silent) [])))) = 0 /\
  prompts
    (trace (final (deploy node_ssh demo_env (demo_options "a b" true) []
                     (mkState (staging true [] silent) [])))) = 0.
Proof.
  apply (failed_check_touches_nothing Host node_ssh demo_env (demo_options "a b" true) []
           (staging true [] silent)).
  reflexivity.
Defined.

(** X13: when no project is given and the repository map has a name for the
    slug of the git remote, the run is the run with that name given, after
    the line that announces the detection. *)
Theorem auto_detected_project_runs_as_given (W : Type) (ssh : NodeSSH W) (env : Env)
    (options : Options) (script : list Step) (w : W) (repo p : str) :
  truthy (project options) = false ->
  getGitRepoInfo (git_config env) = Some repo ->
  repoMap env repo = Some p -> p <> [] ->
  deploy ssh env options script (mkState w []) =
  deploy ssh env (mkOptions (Some p) (framework options) (ai options) (yes options)) script
    (mkState w [EvOut (MAutoDetected p repo)]).
Proof.
  intros Hpr Hg Hm Hp.
  pose proof (getGitRepoInfo_nonempty _ _ Hg) as Hr.
  destruct p as [|c p]; [now contradiction Hp|].
  destruct repo as [|d repo]; [now contradiction Hr|].
  unfold deploy, resolveProject, bind at 1 4.
  rewrite Hpr, Hg, Hm. destruct options as [pr fw a y]. reflexivity.
Qed.

Lemma auto_detected_project_runs_as_given_witness :
  deploy node_ssh mapped_env (mkOptions None (Some (lit "nestjs")) false true) []
    (mkState (staging true [] silent) []) =
  deploy node_ssh mapped_env
    (mkOptions (Some (lit "demo"))
       (framework (mkOptions None (Some (lit "nestjs")) false true))
       (ai (mkOptions None (Some (lit "nestjs")) false true))
       (yes (mkOptions None (Some (lit "nestjs")) false true))) []
    (mkState (staging true [] silent) [EvOut (MAutoDetected (lit "demo") (lit "Acme/Widgets"))]).
Proof.
  apply (auto_detected_project_runs_as_given Host node_ssh mapped_env
           (mkOptions None (Some (lit "nestjs")) false true) [] (staging true [] silent)
           (lit "Acme/Widgets") (lit "demo")).
  - reflexivity.
  - vm_compute. reflexivity.
  - reflexivity.
  - discriminate.
Defined.

(** ** The two fixes before the pull *)


Lemma includes_eq (s p : str) :
  includes s p = starts_with p s || match s with [] => false | _ :: t => includes t p end.
Proof. destruct s; reflexivity. Qed.

Lemma includes_app (pre x post : str) : includes (pre ++ x ++ post) x = true.
Proof.
  induction pre as [|c pre IH].
  - cbn [app]. now rewrite includes_eq, starts_with_app.
  - cbn [app includes]. rewrite IH. apply orb_true_r.
Qed.

Section Prepare.

Variable W : Type.
Variable ssh : NodeSSH W.

Lemma preparePhase_shape (path : str) (s : State W) :
  exists s',
    preparePhase ssh path s = Ok tt s' /\
    commands (trace s') =
      commands (trace s) ++
      lit "git config --global --get-all safe.directory" ::
      match fst (execCommand ssh (world s)
                   (lit "git config --global --get-all safe.directory") None) with
      | Some safeDirs =>
          if includes (stdout safeDirs) path then []
          else [lit "git config --global --add safe.directory " ++ path]
      | None => []
      end ++ [lit "sudo chown -R $(whoami) " ++ path].
Proof.
  unfold preparePhase, runCommand, try_catch, bind, ssh_execCommand, out, emit.
  destruct (execCommand ssh (world s) _ None) as [[safeDirs|] w1];
    cbn [fst]; [destruct (includes (stdout safeDirs) path)|];
    cbn [fst negb when ret world trace];
    repeat
      match goal with
      | |- context [execCommand ssh ?w ?c ?d] =>
          let rc := fresh "rc" in
          let ro := fresh "ro" in
          let x := fresh "x" in
          let e := fresh "e" in
          let w' := fresh "w" in
          destruct (execCommand ssh w c d) as [[[rc ro [|x e]]|] w'];
          cbn [truthy when stderr stdout ret throw world trace]
      end;
    (eexists; split; [reflexivity|]);
    cbn [trace]; rewrite !commands_app; cbn [commands app];
    rewrite <- ?app_assoc, ?app_nil_r; reflexivity.
Qed.

End Prepare.

(** X14: the two fixes before the pull never stop a run, whatever the session
    answers or rejects: the block returns, having submitted the probe, then
    the [safe.directory] entry when the probe was answered and its output
    does not hold the project path, then the change of ownership. *)
Theorem preparePhase_never_fails (W : Type) (ssh : NodeSSH W) (path : str) (s : State W) :
  exists s',
    preparePhase ssh path s = Ok tt s' /\
    commands (trace s') =
      commands (trace s) ++
      lit "git config --global --get-all safe.directory" ::
      match fst (execCommand ssh (world s)
                   (lit "git config --global --get-all safe.directory") None) with
      | Some safeDirs =>
          if includes (stdout safeDirs) path then []
          else [lit "git config --global --add safe.directory " ++ path]
      | None => []
      end ++ [lit "sudo chown -R $(whoami) " ++ path].
Proof. apply preparePhase_shape. Qed.

(** X15: the test for a registered directory is a substring test: when the
    probe's output holds a path that continues the project path, as
    [/var/www/app2] continues [/var/www/app], no entry is added. *)
Theorem safe_directory_substring (W : Type) (ssh : NodeSSH W) (p q pre post : str)
    (s : State W) (safeDirs : CommandResult) (w1 : W) :
  execCommand ssh (world s) (lit "git config --global --get-all safe.directory") None
    = (Some safeDirs, w1) ->
  stdout safeDirs = pre ++ projectPathOf (p ++ q) ++ post ->
  commands (trace (final (preparePhase ssh (projectPathOf p) s))) =
    commands (trace s) ++
    [lit "git config --global --get-all safe.directory";
     lit "sudo chown -R $(whoami) " ++ projectPathOf p].
Proof.
  intros He Ho.
  destruct (preparePhase_shape W ssh (projectPathOf p) s) as (s' & E & Hc).
  rewrite E. cbn [final]. rewrite Hc, He. cbn [fst].
  replace (includes (stdout safeDirs) (projectPathOf p)) with true; [reflexivity|].
  rewrite Ho. unfold projectPathOf. rewrite <- !app_assoc.
  change (pre ++ lit "/var/www/" ++ p ++ q ++ post)
    with (pre ++ (lit "/var/www/" ++ p ++ q ++ post)).
  rewrite (app_assoc (lit "/var/www/") p (q ++ post)).
  symmetry. apply includes_app.
Qed.

Lemma safe_directory_substring_witness :
  commands (trace (final (preparePhase node_ssh (projectPathOf (lit "app"))
                            (mkState (mkHost true true None []
                                        (registered (line "/var/www/app2"))) [])))) =
    commands (trace (mkState (mkHost true true None []
                                (registered (line "/var/www/app2"))) [])) ++
    [lit "git config --global --get-all safe.directory";
     lit "sudo chown -R $(whoami) " ++ projectPathOf (lit "app")].
Proof.
  apply (safe_directory_substring Host node_ssh (lit "app") (lit "2") [] []
           (mkState (mkHost true true None [] (registered (line "/var/www/app2"))) [])
           (mkResult 0 (lit "/var/www/app2") [])
           (mkHost true true None [] (registered (line "/var/www/app2")))).
  - reflexivity.
  - reflexivity.
Defined.

(** ** What a run reports *)

Lemma quiet_forallb (l : list Event) :
  forallb quiet l = true ->
  existsb is_success l = false /\ existsb is_failure l = false /\
  existsb is_summary l = false.
Proof.
  induction l as [|e l IH]; simpl; [now repeat split|].
  intros H. apply andb_true_iff in H as [He Hl]. destruct (IH Hl) as (H1 & H2 & H3).
  rewrite H1, H2, H3. unfold quiet, no_report, not_summary in He.
  destruct (is_success e), (is_failure e), (is_summary e); try discriminate He.
  now repeat split.
Qed.

Section Report.

Variable W : Type.
Variable ssh : NodeSSH W.
Variable env : Env.
Variable options : Options.
Variable script : list Step.

Lemma loop_quiet (projectPath : str) (choices : list str) (steps : list Step) :
  keeps quiet true false (interactiveLoop ssh projectPath choices steps).
Proof. induction steps as [|st rest IH]; simpl; keeps_tac; exact IH. Qed.

Lemma beforeTasks_quiet (project host username privateKeyPath : str) :
  keeps quiet true false
    (beforeTasks ssh options script project host username privateKeyPath).
Proof. unfold beforeTasks, interactiveMode. keeps_tac. apply loop_quiet. Qed.

Lemma frameworkTasks_quiet (projectPath : str) :
  keeps quiet true false (frameworkTasks ssh (framework options) projectPath).
Proof. keeps_tac. Qed.

(** The restart: it throws when the command is rejected, and otherwise
    ends with the line of success. *)
Lemma restartPhase_outcome (project projectPath : str) (s : State W) :
  (exists s' l,
      restartPhase ssh project projectPath s = Ok tt s' /\
      trace s' = trace s ++ l ++ [EvOut (MSuccessful project)] /\
      forallb quiet l = true) \/
  (exists s' l,
      restartPhase ssh project projectPath s = Throw s' /\
      trace s' = trace s ++ l /\ forallb quiet l = true).
Proof.
  unfold restartPhase, runCommand, try_catch, bind, ssh_execCommand, out, emit.
  cbn [world trace].
  destruct (execCommand ssh (world s) _ (Some projectPath)) as [[[rc ro [|x e]]|] w1];
    cbn [truthy when stderr stdout ret throw world trace].
  - left. eexists _, [_; _; _; _]. split; [reflexivity|].
    cbn [trace]. rewrite <- !app_assoc. split; reflexivity.
  - left. eexists _, [_; _; _; _; _]. split; [reflexivity|].
    cbn [trace]. rewrite <- !app_assoc. split; reflexivity.
  - right. eexists _, [_; _; _]. split; [reflexivity|].
    cbn [trace]. rewrite <- !app_assoc. split; reflexivity.
Qed.

(** The summary: nothing without [--ai], the notice without a key, the
    request otherwise; the session is not used and nothing is thrown. *)
Lemma summaryPhase_outcome (project : str) (s : State W) :
  exists l,
    summaryPhase env options project s = Ok tt (mkState (world s) (trace s ++ l)) /\
    (l = [] \/ l = [EvOut MNoApiKey] \/
     (l = [EvSummary project (or_default (framework options) (lit "Node.js"))] /\
      ai options = true /\ truthy (GEMINI_API_KEY env) = true)).
Proof.
  unfold summaryPhase, generateDeploymentSummary, out, emit.
  destruct (ai options); cbn [when].
  - destruct (truthy (GEMINI_API_KEY env)); cbn [negb].
    + eexists. split; [reflexivity|]. right. right. split; [|now split].
      destruct (framework options) as [[|c f]|]; reflexivity.
    + eexists. split; [reflexivity|]. right. now left.
  - exists []. rewrite app_nil_r. destruct s. split; [reflexivity|now left].
Qed.

(** The body of the guarded block: when it returns it has printed the
    line of success, once, and at most the summary after it; when it
    throws or waits it has printed neither report. *)
Lemma deployBody_report (project host username privateKeyPath : str) (s : State W) :
  match deployBody ssh env options script project host username privateKeyPath s with
  | Ok _ s' =>
      exists l0 l1,
        trace s' = trace s ++ l0 ++ EvOut (MSuccessful project) :: l1 /\
        forallb quiet l0 = true /\
        (l1 = [] \/ l1 = [EvOut MNoApiKey] \/
         (l1 = [EvSummary project (or_default (framework options) (lit "Node.js"))] /\
          ai options = true /\ truthy (GEMINI_API_KEY env) = true))
  | Throw s' | Wait s' =>
      exists l0, trace s' = trace s ++ l0 /\ forallb quiet l0 = true
  | Exit _ _ => False
  end.
Proof.
  unfold deployBody, afterTasks, bind.
  destruct (beforeTasks_quiet project host username privateKeyPath s) as [[l1 [E1 H1]] X1].
  destruct (beforeTasks ssh options script project host username privateKeyPath s)
    as [[] s1|s1|n s1|s1]; cbn [final] in E1; try (now exists l1); try discriminate X1.
  destruct (frameworkTasks_quiet (projectPathOf project) s1) as [[l2 [E2 H2]] X2].
  destruct (frameworkTasks ssh (framework options) (projectPathOf project) s1)
    as [[] s2|s2|n s2|s2]; cbn [final] in E2;
    try (exists (l1 ++ l2); rewrite E2, E1, <- app_assoc, forallb_app, H1, H2; now split);
    try discriminate X2.
  destruct (restartPhase_outcome project (projectPathOf project) s2)
    as [(s3 & l3 & E & E3 & H3)|(s3 & l3 & E & E3 & H3)]; rewrite E.
  - destruct (summaryPhase_outcome project s3) as (l4 & E4 & H4). rewrite E4.
    exists (l1 ++ l2 ++ l3), l4. cbn [trace]. split; [|split; [|exact H4]].
    + rewrite E3, E2, E1, <- !app_assoc. reflexivity.
    + now rewrite !forallb_app, H1, H2, H3.
  - exists (l1 ++ l2 ++ l3). split.
    + rewrite E3, E2, E1, <- !app_assoc. reflexivity.
    + now rewrite !forallb_app, H1, H2, H3.
Qed.

End Report.

Lemma check_output_quiet (p : str) (l : list Event) :
  l = [] \/ (exists r, l = [EvOut (MAutoDetected p r)]) ->
  forallb quiet l = true.
Proof. intros [->|[r ->]]; reflexivity. Qed.

(** X16: a run that ends with status 0 reports exactly one of success and
    failure; a run that stops at a check, or is left waiting at the menu,
    reports neither. *)
Theorem report_success_xor_failure (W : Type) (ssh : NodeSSH W) (env : Env)
    (options : Options) (script : list Step) (w : W) :
  match exit_status (deploy ssh env options script (mkState w [])) with
  | Some 0 =>
      existsb is_success (trace (final (deploy ssh env options script (mkState w [])))) =
      negb (existsb is_failure (trace (final (deploy ssh env options script (mkState w [])))))
  | _ =>
      existsb is_success (trace (final (deploy ssh env options script (mkState w [])))) = false /\
      existsb is_failure (trace (final (deploy ssh env options script (mkState w [])))) = false
  end.
Proof.
  pose proof (deploy_outcome W ssh env options script w) as H.
  destruct (chosenProject env options) as [p|].
  2: { rewrite H. now split. }
  destruct H as (l & Hl & ->).
  apply check_output_quiet, quiet_forallb in Hl as (Hs & Hf & _).
  destruct (isValidProjectName p); cbn [negb].
  2: { cbn [exit_status final trace]. rewrite !existsb_app, Hs, Hf. now split. }
  destruct (truthy (SSH_HOST env)); cbn [negb orb].
  2: { cbn [exit_status final trace]. rewrite !existsb_app, Hs, Hf. now split. }
  destruct (truthy (SSH_KEY_PATH env)); cbn [negb orb].
  2: { cbn [exit_status final trace]. rewrite !existsb_app, Hs, Hf. now split. }
  unfold guarded, try_finally, try_catch, ssh_dispose, bind, out, emit.
  match goal with
  | |- context [deployBody ssh env options script p ?h ?u ?k ?s] =>
      pose proof (deployBody_report W ssh env options script p h u k s) as Hb;
      destruct (deployBody ssh env options script p h u k s) as [[] s1|s1|n s1|s1]
  end; cbn [exit_status final trace world] in *.
  - destruct Hb as (l0 & l1 & -> & H0 & H1).
    apply quiet_forallb in H0 as (Hs0 & Hf0 & _).
    rewrite !existsb_app, Hs, Hf, Hs0, Hf0. cbn [existsb is_success is_failure orb].
    destruct H1 as [->|[->|(-> & _)]]; reflexivity.
  - destruct Hb as (l0 & -> & H0).
    apply quiet_forallb in H0 as (Hs0 & Hf0 & _).
    rewrite !existsb_app, Hs, Hf, Hs0, Hf0. reflexivity.
  - contradiction.
  - destruct Hb as (l0 & -> & H0).
    apply quiet_forallb in H0 as (Hs0 & Hf0 & _).
    rewrite !existsb_app, Hs, Hf, Hs0, Hf0. now split.
Qed.

Lemma quiet_not_summary (l : list Event) (pr fw : str) :
  forallb quiet l = true -> ~ In (EvSummary pr fw) l.
Proof.
  intros H Hin. rewrite forallb_forall in H. apply H in Hin. discriminate Hin.
Qed.

(** X17: the summary is requested only by a run with [--ai] and an API key,
    only after the line of success, and for the project of the run and its
    framework, [Node.js] when none is given. *)
Theorem summary_only_after_success (W : Type) (ssh : NodeSSH W) (env : Env)
    (options : Options) (script : list Step) (w : W) (pr fw : str) :
  In (EvSummary pr fw) (trace (final (deploy ssh env options script (mkState w [])))) ->
  ai options = true /\ truthy (GEMINI_API_KEY env) = true /\
  chosenProject env options = Some pr /\
  fw = or_default (framework options) (lit "Node.js") /\
  exists l, trace (final (deploy ssh env options script (mkState w []))) =
            l ++ [EvOut (MSuccessful pr); EvSummary pr fw; EvDispose].
Proof.
  pose proof (deploy_outcome W ssh env options script w) as H.
  destruct (chosenProject env options) as [p|].
  2: { rewrite H. cbn. intuition discriminate. }
  destruct H as (l & Hl & ->).
  assert (Hq : forall tail, In (EvSummary pr fw) (l ++ tail) -> In (EvSummary pr fw) tail).
  { intros tail Hin. apply in_app_or in Hin as [Hin|Hin]; [|assumption].
    destruct Hl as [->|[r ->]]; cbn in Hin; intuition discriminate. }
  destruct (isValidProjectName p); cbn [negb].
  2: { cbn [final trace]. intros Hin. apply Hq in Hin. cbn in Hin. intuition discriminate. }
  destruct (truthy (SSH_HOST env)); cbn [negb orb].
  2: { cbn [final trace]. intros Hin. apply Hq in Hin. cbn in Hin. intuition discriminate. }
  destruct (truthy (SSH_KEY_PATH env)); cbn [negb orb].
  2: { cbn [final trace]. intros Hin. apply Hq in Hin. cbn in Hin. intuition discriminate. }
  unfold guarded, try_finally, try_catch, ssh_dispose, bind, out, emit.
  match goal with
  | |- context [deployBody ssh env options script p ?h ?u ?k ?s] =>
      pose proof (deployBody_report W ssh env options script p h u k s) as Hb;
      destruct (deployBody ssh env options script p h u k s) as [[] s1|s1|n s1|s1]
  end; cbn [final trace world] in *.
  - destruct Hb as (l0 & l1 & -> & H0 & H1). rewrite <- !app_assoc. intros Hin.
    apply Hq in Hin. cbn [app] in Hin. destruct Hin as [Hin|Hin]; [discriminate|].
    apply in_app_or in Hin as [Hin|Hin]; [now apply quiet_not_summary in Hin|].
    destruct H1 as [->|[->|(-> & Ha & Hk)]]; cbn in Hin;
      try (intuition discriminate).
    destruct Hin as [Hin|[Hin|[Hin|[]]]]; try discriminate.
    injection Hin as <- <-. repeat split; try assumption.
    exists (l ++ EvOut MConnecting :: l0). rewrite <- !app_assoc. reflexivity.
  - destruct Hb as (l0 & -> & H0). rewrite <- !app_assoc. intros Hin.
    apply Hq in Hin. cbn [app] in Hin. destruct Hin as [Hin|Hin]; [discriminate|].
    apply in_app_or in Hin as [Hin|Hin]; [now apply quiet_not_summary in Hin|].
    cbn in Hin. intuition discriminate.
  - contradiction.
  - destruct Hb as (l0 & -> & H0). rewrite <- !app_assoc. intros Hin.
    apply Hq in Hin. cbn [app] in Hin. destruct Hin as [Hin|Hin]; [discriminate|].
    now apply quiet_not_summary in Hin.
Qed.

Lemma summary_only_after_success_witness :
  ai ai_options = true /\ truthy (GEMINI_API_KEY ai_env) = true /\
  chosenProject ai_env ai_options = Some (lit "demo") /\
  lit "nestjs" = or_default (framework ai_options) (lit "Node.js") /\
  exists l, trace (final (deploy node_ssh ai_env ai_options []
                            (mkState (staging true [] silent) []))) =
            l ++ [EvOut (MSuccessful (lit "demo"));
                  EvSummary (lit "demo") (lit "nestjs"); EvDispose].
Proof.
  apply (summary_only_after_success Host node_ssh ai_env ai_options []
           (staging true [] silent) (lit "demo") (lit "nestjs")).
  vm_compute. repeat (first [left; reflexivity | right]).
Defined.

(** ** The connection *)

Lemma not_connect_filter (l : list Event) :
  forallb not_connect l = true -> filter is_connect l = [].
Proof.
  induction l as [|e l IH]; simpl; [reflexivity|].
  intros H. apply andb_true_iff in H as [He Hl]. unfold not_connect in He.
  destruct (is_connect e); [discriminate|]. now apply IH.
Qed.

Section Connection.

Variable W : Type.
Variable ssh : NodeSSH W.
Variable env : Env.
Variable options : Options.
Variable script : list Step.

Lemma starts_bind {A B} (e : Event) (f : Event -> bool) (m : M W A) (k : A -> M W B) :
  starts e f m -> (forall a, keeps f true false (k a)) -> starts e f (bind m k).
Proof.
  intros Hm Hk s. unfold bind. destruct (Hm s) as [l [E Hl]].
  destruct (m s) as [a s1|s1|n s1|s1]; cbn [final] in *; try (now exists l).
  destruct (Hk a s1) as [[l' [E' Hl']] _].
  exists (l ++ l'). rewrite E', E, <- app_assoc, forallb_app, Hl, Hl'. now split.
Qed.

Lemma connectToServer_starts (host username privateKeyPath : str) :
  starts (EvConnect host username privateKeyPath) not_connect
    (connectToServer ssh host username privateKeyPath).
Proof.
  intros s. unfold connectToServer, try_catch, bind, ssh_connect, out, emit.
  destruct (connect ssh (world s) host username privateKeyPath) as [[] w1];
    cbn [throw final trace]; rewrite <- app_assoc; eexists; split; reflexivity.
Qed.

Lemma loop_not_connect (projectPath : str) (choices : list str) (steps : list Step) :
  keeps not_connect true false (interactiveLoop ssh projectPath choices steps).
Proof. induction steps as [|st rest IH]; simpl; keeps_tac; exact IH. Qed.

(** The body of the guarded block starts with the connection attempt and
    makes no other. *)
Lemma deployBody_connect (project host username privateKeyPath : str) :
  starts (EvConnect host username privateKeyPath) not_connect
    (deployBody ssh env options script project host username privateKeyPath).
Proof.
  unfold deployBody, beforeTasks, connectPhase.
  repeat (apply starts_bind; [|intros ?]).
  - apply connectToServer_starts.
  - keeps_tac.
  - unfold interactiveMode. keeps_tac. apply loop_not_connect.
  - unfold afterTasks. keeps_tac.
Qed.

End Connection.

(** X18: a run that passes the checks attempts the connection once, with the
    host and the key path of the environment and with its user name, [root]
    when that is missing or empty; a run that stops at a check attempts
    none. *)
Theorem connects_once_with_env_credentials (W : Type) (ssh : NodeSSH W) (env : Env)
    (options : Options) (script : list Step) (w : W) :
  filter is_connect (trace (final (deploy ssh env options script (mkState w [])))) =
  match exit_status (deploy ssh env options script (mkState w [])) with
  | Some 1 => []
  | _ => [EvConnect (or_default (SSH_HOST env) [])
                    (or_default (SSH_USERNAME env) (lit "root"))
                    (or_default (SSH_KEY_PATH env) [])]
  end.
Proof.
  pose proof (deploy_outcome W ssh env options script w) as H.
  destruct (chosenProject env options) as [p|].
  2: { rewrite H. reflexivity. }
  destruct H as (l & Hl & ->).
  assert (Hc : filter is_connect l = []) by (destruct Hl as [->|[r ->]]; reflexivity).
  destruct (isValidProjectName p); cbn [negb].
  2: { cbn [exit_status final trace]. now rewrite filter_app, Hc. }
  destruct (truthy (SSH_HOST env)); cbn [negb orb].
  2: { cbn [exit_status final trace]. now rewrite filter_app, Hc. }
  destruct (truthy (SSH_KEY_PATH env)); cbn [negb orb].
  2: { cbn [exit_status final trace]. now rewrite filter_app, Hc. }
  match goal with
  | |- context [guarded ssh env options script p ?h ?u ?k ?s] =>
      destruct (guarded_trace W ssh env options script p h u k s) as (tail & -> & Ht);
      destruct (deployBody_connect W ssh env options script p h u k s) as (lb & -> & Hb);
      destruct (guarded_shape W ssh env options script p h u k s)
        as [(s' & l' & -> & _)|(s' & l' & -> & _)]
  end; cbn [exit_status trace];
    rewrite !filter_app, Hc; cbn [filter is_connect app];
    rewrite (not_connect_filter lb Hb);
    destruct Ht as [->|[->| ->]]; reflexivity.
Qed.

(** ** A scripted run over a session that answers *)

Lemma commands_quiet_tail (l : list Event) (e : Event) :
  is_exec e = false -> commands (l ++ [e]) = commands l.
Proof.
  intros He. rewrite commands_app. destruct e; try discriminate He; cbn;
    now rewrite app_nil_r.
Qed.

Section Answers.

Variable W : Type.
Variable ssh : NodeSSH W.
Hypothesis connects : forall w h u k, fst (connect ssh w h u k) = true.
Hypothesis answers : forall w c d, fst (execCommand ssh w c d) <> None.

Lemma submits_ret {A} (a : A) : submits (ret (W:=W) a) [].
Proof. intros s. exists a, s. now rewrite app_nil_r. Qed.

Lemma submits_out (m : Msg) : submits (out (W:=W) m) [].
Proof.
  intros s. eexists tt, _. split; [reflexivity|]. cbn [trace].
  now rewrite commands_quiet_tail, app_nil_r.
Qed.

Lemma submits_bind {A B} (m : M W A) (k : A -> M W B) (cs1 cs2 : list str) :
  submits m cs1 -> (forall a, submits (k a) cs2) -> submits (bind m k) (cs1 ++ cs2).
Proof.
  intros Hm Hk s. unfold bind. destruct (Hm s) as (a & s1 & -> & E1).
  destruct (Hk a s1) as (b & s2 & E & E2). exists b, s2. split; [exact E|].
  now rewrite E2, E1, app_assoc.
Qed.

Lemma submits_when (b : bool) (m : M W unit) (cs : list str) :
  submits m cs -> submits (when b m) (if b then cs else []).
Proof. destruct b; [trivial|]. intros _. apply submits_ret. Qed.

Lemma submits_runCommand (cmd : str) (cwd : option str) :
  submits (runCommand ssh cmd cwd) [cmd].
Proof.
  intros s. unfold runCommand, try_catch, bind, ssh_execCommand, out, emit.
  pose proof (answers (world s) cmd cwd) as Ha.
  destruct (execCommand ssh (world s) cmd cwd) as [[[rc ro [|x e]]|] w1];
    [| |now contradiction Ha]; cbn [truthy when stderr stdout ret world trace];
    (eexists _, _; split; [reflexivity|]); cbn [trace];
    rewrite !commands_app; cbn [commands app]; now rewrite <- ?app_assoc, ?app_nil_r.
Qed.

Lemma submits_connectPhase (host username privateKeyPath : str) :
  submits (connectPhase ssh host username privateKeyPath) [lit "whoami"; lit "sudo -i"].
Proof.
  unfold connectPhase.
  change [lit "whoami"; lit "sudo -i"] with ([] ++ [] ++ [lit "whoami"] ++ [lit "sudo -i"] ++ []).
  apply submits_bind; [|intros _; apply submits_bind; [apply submits_out|intros _];
                         apply submits_bind; [apply submits_runCommand|intros _];
                         apply submits_bind; [apply submits_runCommand|intros _];
                         apply submits_ret].
  intros s. unfold connectToServer, try_catch, bind, ssh_connect, out, emit.
  pose proof (connects (world s) host username privateKeyPath) as Hc.
  destruct (connect ssh (world s) host username privateKeyPath) as [ok w1].
  cbn [fst] in Hc. subst ok. eexists tt, _. split; [reflexivity|]. cbn [trace].
  rewrite !commands_app. cbn. now rewrite !app_nil_r.
Qed.

Lemma submits_pullPhase (project projectPath : str) :
  submits (pullPhase ssh project projectPath) [lit "git pull origin staging"].
Proof.
  unfold pullPhase.
  change [lit "git pull origin staging"] with ([] ++ [lit "git pull origin staging"] ++ []).
  apply submits_bind; [apply submits_out|intros _].
  apply submits_bind; [apply submits_runCommand|intros _]. apply submits_out.
Qed.

Lemma submits_frameworkTasks (framework : option str) (projectPath : str) :
  submits (frameworkTasks ssh framework projectPath) (frameworkCommands framework).
Proof.
  unfold frameworkTasks, frameworkCommands.
  destruct framework as [f|]; [|apply submits_ret].
  destruct (truthy (Some f)); cbn [when]; [|apply submits_ret].
  match goal with
  | |- submits _ (?a ++ ?b) =>
      replace (a ++ b) with ([] ++ a ++ b ++ []) by (now rewrite app_nil_r)
  end.
  apply submits_bind; [apply submits_out|intros _].
  apply submits_bind; [|intros _; apply submits_bind; [|intros _; apply submits_out]].
  - destruct (str_eqb (toLowerCase f) (lit "nestjs") || str_eqb (toLowerCase f) (lit "expressjs"));
      cbn [when]; [|apply submits_ret].
    change [lit "npx prisma generate"] with ([] ++ [lit "npx prisma generate"] ++ []).
    apply submits_bind; [apply submits_out|intros _].
    apply submits_bind; [apply submits_runCommand|intros _]. apply submits_ret.
  - destruct (str_eqb (toLowerCase f) (lit "nestjs")); cbn [when]; [|apply submits_ret].
    change [lit "yarn build"] with ([] ++ [lit "yarn build"] ++ []).
    apply submits_bind; [apply submits_out|intros _].
    apply submits_bind; [apply submits_runCommand|intros _]. apply submits_ret.
Qed.

Lemma submits_afterTasks (env : Env) (options : Options) (project : str) :
  submits (afterTasks ssh env options project)
    [lit "pm2 restart " ++ project ++ lit " || pm2 restart index"].
Proof.
  unfold afterTasks, restartPhase, summaryPhase, generateDeploymentSummary.
  match goal with
  | |- submits _ [?c] => change [c] with (([] ++ [c] ++ [] ++ []) ++ [])
  end.
  apply submits_bind; [|intros _].
  - apply submits_bind; [apply submits_out|intros _].
    apply submits_bind; [apply submits_runCommand|intros _].
    apply submits_bind; [apply submits_out|intros _]. apply submits_out.
  - destruct (ai options); cbn [when]; [|apply submits_ret].
    destruct (negb (truthy (GEMINI_API_KEY env))); [apply submits_out|].
    intros s. eexists tt, _. split; [reflexivity|]. cbn [trace].
    now rewrite commands_quiet_tail, app_nil_r.
Qed.

(** *** The interactive loop *)

Lemma submits_ssh_execCommand (cmd : str) (cwd : option str) :
  submits (ssh_execCommand ssh cmd cwd) [cmd].
Proof.
  intros s. unfold ssh_execCommand.
  pose proof (answers (world s) cmd cwd) as Ha.
  destruct (execCommand ssh (world s) cmd cwd) as [[r|] w1]; [|now contradiction Ha].
  eexists _, _. split; [reflexivity|]. cbn [trace]. now rewrite commands_app.
Qed.

Lemma submits_try_catch {A} (m h : M W A) (cs : list str) :
  submits m cs -> submits (try_catch m h) cs.
Proof.
  intros Hm s. unfold try_catch. destruct (Hm s) as (a & s1 & E & Ec).
  rewrite E. now exists a, s1.
Qed.

Lemma submits_updateRemoteEnv (projectPath key value : str) :
  submits (updateRemoteEnv ssh projectPath key value)
    (if test key_re key then
       [checkCmdOf projectPath key;
        safeUpdateCmdOf projectPath key (escapeShellArg (key ++ lit "=" ++ value))]
     else []).
Proof.
  unfold updateRemoteEnv. destruct (test key_re key); cbn [negb].
  - apply submits_try_catch.
    match goal with
    | |- submits _ [?a; ?b] => change [a; b] with ([a] ++ [b] ++ [])
    end.
    apply submits_bind; [apply submits_ssh_execCommand|intros _].
    apply submits_bind; [apply submits_runCommand|intros _].
    apply submits_out.
  - apply submits_out.
Qed.

(** A computation that returns, and shows no menu. *)
Lemma loop_step {A} (m : M W A) (cs : list str) (s : State W) :
  submits m cs -> keeps not_prompt true false m ->
  exists a s1,
    m s = Ok a s1 /\
    commands (trace s1) = commands (trace s) ++ cs /\
    prompts (trace s1) = prompts (trace s).
Proof.
  intros Hm Hk. destruct (Hm s) as (a & s1 & E & Ec).
  destruct (Hk s) as [[l [El Hl]] _]. rewrite E in El. cbn [final] in El.
  exists a, s1. split; [exact E|]. split; [exact Ec|].
  rewrite El, prompts_app, (forallb_prompts not_prompt l); [lia| |exact Hl].
  intros e. unfold not_prompt. now destruct (is_prompt e).
Qed.

Lemma bind_of_Ok {A B} (m : M W A) (k : A -> M W B) (s s1 : State W) (a : A) :
  m s = Ok a s1 -> bind m k s = k a s1.
Proof. intros E. unfold bind. now rewrite E. Qed.

(** A round with one of the three commands of the menu. *)
Lemma command_round (what cmd : str) (projectPath : str) (k : M W unit) (s : State W) :
  exists s1,
    bind (out (MRunning what))
      (fun _ => bind (runCommand ssh cmd (Some projectPath))
         (fun _ => bind (out (MComplete what)) (fun _ => k))) s = k s1 /\
    commands (trace s1) = commands (trace s) ++ [cmd] /\
    prompts (trace s1) = prompts (trace s).
Proof.
  destruct (loop_step (out (MRunning what)) [] s (submits_out _) ltac:(keeps_tac))
    as ([] & s1 & E1 & C1 & P1).
  destruct (loop_step (runCommand ssh cmd (Some projectPath)) [cmd] s1
              (submits_runCommand _ _) ltac:(keeps_tac))
    as (r & s2 & E2 & C2 & P2).
  destruct (loop_step (out (MComplete what)) [] s2 (submits_out _) ltac:(keeps_tac))
    as ([] & s3 & E3 & C3 & P3).
  exists s3. rewrite (bind_of_Ok _ _ _ _ _ E1), (bind_of_Ok _ _ _ _ _ E2),
    (bind_of_Ok _ _ _ _ _ E3).
  split; [reflexivity|]. rewrite C3, C2, C1, P3, P2, P1, !app_nil_r. now split.
Qed.

(** A round of the menu: after an answer among the four actions the
    loop goes on with the next answer. *)
Lemma loop_round (projectPath : str) (choices : list str) (st : Step) (rest : list Step)
    (s : State W) :
  is_menu_action (action st) = true ->
  exists s1,
    interactiveLoop ssh projectPath choices (st :: rest) s =
    interactiveLoop ssh projectPath choices rest s1 /\
    commands (trace s1) = commands (trace s) ++ roundCommands projectPath st /\
    prompts (trace s1) = prompts (trace s) + 1.
Proof.
  intros Hact. cbn [interactiveLoop].
  unfold bind at 1. unfold emit at 1. cbn [world trace].
  set (s0 := mkState (world s) (trace s ++ [EvPrompt choices])).
  assert (P0 : prompts (trace s0) = prompts (trace s) + 1)
    by (unfold s0; cbn [trace]; now rewrite prompts_app).
  assert (C0 : commands (trace s0) = commands (trace s))
    by (unfold s0; cbn [trace]; now rewrite commands_quiet_tail).
  unfold is_menu_action in Hact. unfold roundCommands.
  destruct (str_eqb (action st) (lit "Run Prisma Generate")).
  { destruct (command_round (lit "Prisma Generate") (lit "npx prisma generate") projectPath
                (interactiveLoop ssh projectPath choices rest) s0) as (s1 & E & C & P).
    exists s1. rewrite E, C, P, C0, P0. now repeat split. }
  destruct (str_eqb (action st) (lit "Run Prisma DB Push")).
  { destruct (command_round (lit "Prisma DB Push") (lit "npx prisma db push") projectPath
                (interactiveLoop ssh projectPath choices rest) s0) as (s1 & E & C & P).
    exists s1. rewrite E, C, P, C0, P0. now repeat split. }
  destruct (str_eqb (action st) (lit "Run Build")).
  { destruct (command_round (lit "Build") (lit "yarn build") projectPath
                (interactiveLoop ssh projectPath choices rest) s0) as (s1 & E & C & P).
    exists s1. rewrite E, C, P, C0, P0. now repeat split. }
  destruct (str_eqb (action st) (lit "Update .env")); [|discriminate Hact].
  unfold bind at 1. unfold emit at 1. cbn [world trace].
  set (s1 := mkState (world s0) (trace s0 ++ [EvInput])).
  destruct (loop_step (updateRemoteEnv ssh projectPath (key st) (value st)) _ s1
              (submits_updateRemoteEnv _ _ _) ltac:(keeps_tac))
    as ([] & s2 & E2 & C2 & P2).
  exists s2. rewrite (bind_of_Ok _ _ _ _ _ E2), C2, P2. unfold s1. cbn [trace].
  rewrite commands_quiet_tail, prompts_app, C0, P0 by reflexivity.
  repeat split. unfold prompts at 2. cbn. lia.
Qed.

(** Any other answer ends the loop. *)
Lemma loop_last_round (projectPath : str) (choices : list str) (st : Step)
    (rest : list Step) (s : State W) :
  is_menu_action (action st) = false ->
  interactiveLoop ssh projectPath choices (st :: rest) s =
  Ok tt (mkState (world s) (trace s ++ [EvPrompt choices])).
Proof.
  intros Hact. cbn [interactiveLoop].
  unfold bind at 1. unfold emit at 1. cbn [world trace].
  unfold is_menu_action in Hact.
  destruct (str_eqb (action st) (lit "Run Prisma Generate")); [discriminate Hact|].
  destruct (str_eqb (action st) (lit "Run Prisma DB Push")); [discriminate Hact|].
  destruct (str_eqb (action st) (lit "Run Build")); [discriminate Hact|].
  destruct (str_eqb (action st) (lit "Update .env")); [discriminate Hact|].
  reflexivity.
Qed.

Lemma loop_rounds (projectPath : str) (choices : list str) (script : list Step)
    (s : State W) :
  prompts (trace (final (interactiveLoop ssh projectPath choices script s))) =
    prompts (trace s) + S (rounds script) /\
  commands (trace (final (interactiveLoop ssh projectPath choices script s))) =
    commands (trace s) ++
    flat_map (roundCommands projectPath) (firstn (rounds script) script) /\
  returned (interactiveLoop ssh projectPath choices script s) =
    (rounds script <? List.length script).
Proof.
  revert s. induction script as [|st rest IH]; intros s.
  - cbn [interactiveLoop rounds firstn flat_map List.length].
    unfold bind, emit, wait. cbn [final trace world returned].
    rewrite prompts_app, commands_quiet_tail, app_nil_r by reflexivity.
    repeat split.
  - cbn [rounds]. destruct (is_menu_action (action st)) eqn:Hact.
    + destruct (loop_round projectPath choices st rest s Hact) as (s1 & -> & C & P).
      destruct (IH s1) as (IP & IC & IR). rewrite IP, IC, IR, C, P.
      cbn [firstn flat_map List.length]. rewrite <- app_assoc.
      repeat split. lia.
    + rewrite (loop_last_round projectPath choices st rest s Hact).
      cbn [final trace returned firstn flat_map List.length].
      rewrite prompts_app, commands_quiet_tail, app_nil_r by reflexivity.
      repeat split.
Qed.

(** The body of a run in which the loop, if any, comes to an end,
    command by command. *)
Lemma deployBody_answered (env : Env) (options : Options) (script : list Step)
    (project host username privateKeyPath : str) (s : State W) :
  yes options = true \/ rounds script < List.length script ->
  exists s' add,
    deployBody ssh env options script project host username privateKeyPath s = Ok tt s' /\
    (add = [] \/
     add = [lit "git config --global --add safe.directory " ++ projectPathOf project]) /\
    commands (trace s') =
      commands (trace s) ++
      [lit "whoami"; lit "sudo -i"; lit "git config --global --get-all safe.directory"] ++
      add ++
      [lit "sudo chown -R $(whoami) " ++ projectPathOf project;
       lit "git pull origin staging"] ++
      (if yes options then []
       else flat_map (roundCommands (projectPathOf project))
              (firstn (rounds script) script)) ++
      frameworkCommands (framework options) ++
      [lit "pm2 restart " ++ project ++ lit " || pm2 restart index"].
Proof.
  intros Hend. unfold deployBody, beforeTasks, bind.
  destruct (submits_connectPhase host username privateKeyPath s) as ([] & s1 & -> & E1).
  destruct (preparePhase_shape W ssh (projectPathOf project) s1) as (s2 & -> & E2).
  destruct (submits_pullPhase project (projectPathOf project) s2) as ([] & s3 & -> & E3).
  assert (Hloop : exists s4,
             interactiveMode ssh options script (projectPathOf project) s3 = Ok tt s4 /\
             commands (trace s4) =
               commands (trace s3) ++
               (if yes options then []
                else flat_map (roundCommands (projectPathOf project))
                       (firstn (rounds script) script))).
  { unfold interactiveMode. destruct (yes options); cbn [negb when].
    - exists s3. now rewrite app_nil_r.
    - destruct Hend as [Hend|Hend]; [discriminate Hend|].
      unfold bind, out, emit. cbn [world trace].
      match goal with
      | |- context [interactiveLoop ssh ?p ?c script ?s] =>
          destruct (loop_rounds p c script s) as (_ & C & R);
          destruct (interactiveLoop ssh p c script s) as [[] s4|s4|n s4|s4]
      end; cbn [returned final] in *.
      + exists s4. split; [reflexivity|]. rewrite C. cbn [trace].
        now rewrite commands_quiet_tail.
      + apply Nat.ltb_lt in Hend. congruence.
      + apply Nat.ltb_lt in Hend. congruence.
      + apply Nat.ltb_lt in Hend. congruence. }
  destruct Hloop as (s4 & -> & E4).
  destruct (submits_frameworkTasks (framework options) (projectPathOf project) s4)
    as ([] & s5 & -> & E5).
  destruct (submits_afterTasks env options project s5) as ([] & s6 & -> & E6).
  exists s6.
  exists (match fst (execCommand ssh (world s1)
                       (lit "git config --global --get-all safe.directory") None) with
          | Some safeDirs =>
              if includes (stdout safeDirs) (projectPathOf project) then []
              else [lit "git config --global --add safe.directory " ++ projectPathOf project]
          | None => []
          end).
  split; [reflexivity|]. split.
  - destruct (fst (execCommand ssh (world s1) _ None)) as [r|]; [|now left].
    destruct (includes (stdout r) (projectPathOf project)); [now left|now right].
  - rewrite E6, E5, E4, E3, E2, E1, <- !app_assoc. cbn [app].
    rewrite <- ?app_assoc. reflexivity.
Qed.

End Answers.


(** X19: a scripted run that passes the checks, over a session that accepts
    the connection and answers every command, whatever the exit statuses:
    the commands are, in order, [whoami], [sudo -i], the probe of
    [safe.directory], the entry for it if the probe did not show the
    path, the change of ownership, the pull, the commands of the
    framework, the restart; the run reports success and ends with
    status 0. *)
Theorem scripted_run_commands (W : Type) (ssh : NodeSSH W) (env : Env)
    (options : Options) (script : list Step) (w : W) (p : str) :
  (forall w h u k, fst (connect ssh w h u k) = true) ->
  (forall w c d, fst (execCommand ssh w c d) <> None) ->
  chosenProject env options = Some p -> isValidProjectName p = true ->
  truthy (SSH_HOST env) = true -> truthy (SSH_KEY_PATH env) = true ->
  yes options = true ->
  exit_status (deploy ssh env options script (mkState w [])) = Some 0 /\
  existsb is_success (trace (final (deploy ssh env options script (mkState w [])))) = true /\
  exists add,
    (add = [] \/
     add = [lit "git config --global --add safe.directory " ++ projectPathOf p]) /\
    commands (trace (final (deploy ssh env options script (mkState w [])))) =
      [lit "whoami"; lit "sudo -i"; lit "git config --global --get-all safe.directory"] ++
      add ++
      [lit "sudo chown -R $(whoami) " ++ projectPathOf p; lit "git pull origin staging"] ++
      frameworkCommands (framework options) ++
      [lit "pm2 restart " ++ p ++ lit " || pm2 restart index"].
Proof.
  intros Hc Ha Hp Hv Hh Hk Hyes.
  pose proof (deploy_outcome W ssh env options script w) as H.
  rewrite Hp in H. destruct H as (l & Hl & ->). rewrite Hv, Hh, Hk. cbn [negb orb].
  unfold guarded, try_finally, try_catch, ssh_dispose.
  match goal with
  | |- context [deployBody ssh env options script p ?h ?u ?k ?s] =>
      pose proof (deployBody_report W ssh env options script p h u k s) as Hb;
      destruct (deployBody_answered W ssh Hc Ha env options script p h u k s
                  (or_introl Hyes))
        as (s' & add & E & Hadd & Ecs)
  end.
  rewrite Hyes in Ecs. cbn [app] in Ecs.
  rewrite E in *. cbn [exit_status final trace]. split; [reflexivity|]. split.
  - destruct Hb as (l0 & l1 & -> & _). rewrite !existsb_app. cbn.
    now rewrite !orb_true_r.
  - exists add. split; [exact Hadd|].
    rewrite commands_quiet_tail by reflexivity. rewrite Ecs. cbn [trace].
    rewrite commands_quiet_tail by reflexivity.
    replace (commands l) with (@nil str); [reflexivity|].
    destruct Hl as [->|[r ->]]; reflexivity.
Qed.

Lemma scripted_run_commands_witness :
  exit_status (deploy (mock_ssh failing_pull) demo_env (demo_options "demo" true) []
                 (mkState tt [])) = Some 0 /\
  existsb is_success
    (trace (final (deploy (mock_ssh failing_pull) demo_env (demo_options "demo" true) []
                     (mkState tt [])))) = true /\
  exists add,
    (add = [] \/
     add = [lit "git config --global --add safe.directory " ++ projectPathOf (lit "demo")]) /\
    commands (trace (final (deploy (mock_ssh failing_pull) demo_env
                              (demo_options "demo" true) [] (mkState tt [])))) =
      [lit "whoami"; lit "sudo -i"; lit "git config --global --get-all safe.directory"] ++
      add ++
      [lit "sudo chown -R $(whoami) " ++ projectPathOf (lit "demo");
       lit "git pull origin staging"] ++
      frameworkCommands (framework (demo_options "demo" true)) ++
      [lit "pm2 restart " ++ lit "demo" ++ lit " || pm2 restart index"].
Proof.
  apply (scripted_run_commands unit (mock_ssh failing_pull) demo_env
           (demo_options "demo" true) [] tt (lit "demo")).
  - intros; reflexivity.
  - intros; discriminate.
  - reflexivity.
  - reflexivity.
  - reflexivity.
  - reflexivity.
  - reflexivity.
Defined.

(** ** The mutator: rejected commands, a missing file, the other files *)

(** X20: when the probe is answered and the update command is rejected, the
    mutator goes on to the append command: the rejection is caught by the
    same handler as a rejected probe.  The call fails only if the append
    is rejected as well; otherwise it reports the line as appended. *)
Theorem updateRemoteEnv_falls_back_to_append (W : Type) (ssh : NodeSSH W)
    (path key value : str) (s : State W) (r0 : CommandResult) (w0 w1 : W) :
  test key_re key = true ->
  execCommand ssh (world s) (checkCmdOf path key) None = (Some r0, w0) ->
  execCommand ssh w0
    (safeUpdateCmdOf path key (escapeShellArg (key ++ lit "=" ++ value))) (Some path)
    = (None, w1) ->
  commands (trace (final (updateRemoteEnv ssh path key value s))) =
    commands (trace s) ++
    [checkCmdOf path key;
     safeUpdateCmdOf path key (escapeShellArg (key ++ lit "=" ++ value));
     appendCmdOf path (escapeShellArg (key ++ lit "=" ++ value))] /\
  threw (updateRemoteEnv ssh path key value s) =
    match fst (execCommand ssh w1
                 (appendCmdOf path (escapeShellArg (key ++ lit "=" ++ value)))
                 (Some path)) with
    | Some _ => false
    | None => true
    end /\
  last (trace (final (updateRemoteEnv ssh path key value s))) (EvOut MError) =
    match fst (execCommand ssh w1
                 (appendCmdOf path (escapeShellArg (key ++ lit "=" ++ value)))
                 (Some path)) with
    | Some _ => EvOut (MAppended key)
    | None =>
        EvOut (MFailedToExecute
                 (appendCmdOf path (escapeShellArg (key ++ lit "=" ++ value))))
    end.
Proof.
  intros Hk H0 H1. unfold updateRemoteEnv. rewrite Hk. cbn [negb].
  unfold try_catch, bind, runCommand, try_catch, bind, ssh_execCommand, out, emit.
  rewrite H0. cbn [world trace]. rewrite H1. cbn [throw world trace].
  destruct (execCommand ssh w1 _ (Some path)) as [[[rc ro [|x e]]|] w2];
    cbn [fst truthy when stderr stdout ret throw world trace final threw];
    (split; [|split; [reflexivity|]]);
    try (rewrite !commands_app; cbn [commands app];
         now rewrite <- ?app_assoc, ?app_nil_r);
    apply last_last.
Qed.

Lemma updateRemoteEnv_falls_back_to_append_witness :
  commands (trace (final (updateRemoteEnv node_ssh demo_path (lit "FOO") (lit "3")
                            (mkState (expiring 1 (line "BAR=2")) [])))) =
    commands (trace (mkState (expiring 1 (line "BAR=2")) [])) ++
    [checkCmdOf demo_path (lit "FOO");
     safeUpdateCmdOf demo_path (lit "FOO") (escapeShellArg (lit "FOO" ++ lit "=" ++ lit "3"));
     appendCmdOf demo_path (escapeShellArg (lit "FOO" ++ lit "=" ++ lit "3"))] /\
  threw (updateRemoteEnv node_ssh demo_path (lit "FOO") (lit "3")
           (mkState (expiring 1 (line "BAR=2")) [])) =
    match fst (execCommand node_ssh
                 (mkHost true false (Some 0) [(demo_env_file, line "BAR=2")] silent)
                 (appendCmdOf demo_path (escapeShellArg (lit "FOO" ++ lit "=" ++ lit "3")))
                 (Some demo_path)) with
    | Some _ => false
    | None => true
    end /\
  last (trace (final (updateRemoteEnv node_ssh demo_path (lit "FOO") (lit "3")
                        (mkState (expiring 1 (line "BAR=2")) [])))) (EvOut MError) =
    match fst (execCommand node_ssh
                 (mkHost true false (Some 0) [(demo_env_file, line "BAR=2")] silent)
                 (appendCmdOf demo_path (escapeShellArg (lit "FOO" ++ lit "=" ++ lit "3")))
                 (Some demo_path)) with
    | Some _ => EvOut (MAppended (lit "FOO"))
    | None =>
        EvOut (MFailedToExecute
                 (appendCmdOf demo_path (escapeShellArg (lit "FOO" ++ lit "=" ++ lit "3"))))
    end.
Proof.
  apply (updateRemoteEnv_falls_back_to_append Host node_ssh demo_path (lit "FOO") (lit "3")
           (mkState (expiring 1 (line "BAR=2")) [])
           (mkResult 1 [] [])
           (mkHost true true (Some 0) [(demo_env_file, line "BAR=2")] silent)
           (mkHost true false (Some 0) [(demo_env_file, line "BAR=2")] silent)).
  - reflexivity.
  - reflexivity.
  - reflexivity.
Defined.

(** X21: over an open session, for a valid project whose directory exists on
    the host, when the project has no [.env], the mutator creates none: the
    filter ends with status 2, the [&&] list stops, an empty [.env.tmp] is
    left behind, and the call reports the key as updated. *)
Theorem updateRemoteEnv_missing_file (h : Host) (p key value : str) (t : list Event) :
  open_session h ->
  isValidProjectName p = true -> test key_re key = true -> Sh.is_text value = true ->
  project_files (files h) (projectPathOf p) = true ->
  Sh.read (files h) (env_path (projectPathOf p)) = None ->
  env_after (projectPathOf p)
    (updateRemoteEnv node_ssh (projectPathOf p) key value (mkState h t)) = None /\
  Sh.read (files (world (final (updateRemoteEnv node_ssh (projectPathOf p) key value
                                  (mkState h t)))))
          (tmp_path (projectPathOf p)) = Some [] /\
  last (trace (final (updateRemoteEnv node_ssh (projectPathOf p) key value (mkState h t))))
       (EvOut MError) = EvOut (MUpdated key).
Proof.
  intros Ho Hp Hk Hvt Hpf Hr. destruct (valid_project_path p Hp) as (Hpl & Hp0 & Hpt).
  unfold project_files in Hpf. apply andb_true_iff in Hpf as [He Ht].
  destruct (place_parts _ _ Ht) as (Hct & _ & _). destruct (siblings _ Hct).
  destruct (updateRemoteEnv_open_missing h (projectPathOf p) key value t Ho Hpl Hp0 Hpt Hk
              Hvt He Ht Hr) as [t' E].
  unfold env_after. rewrite E. cbn [final world files trace]. split; [|split].
  - rewrite !read_write_other by assumption. exact Hr.
  - now apply read_write_same.
  - apply last_last.
Qed.

Lemma updateRemoteEnv_missing_file_witness :
  env_after (projectPathOf (lit "demo"))
    (updateRemoteEnv node_ssh (projectPathOf (lit "demo")) (lit "FOO") (lit "3")
       (mkState (mkHost true true None [(lit "/var/www/demo/", [])] silent) [])) = None /\
  Sh.read (files (world (final (updateRemoteEnv node_ssh (projectPathOf (lit "demo"))
                                  (lit "FOO") (lit "3")
                                  (mkState (mkHost true true None
                                              [(lit "/var/www/demo/", [])] silent) [])))))
          (tmp_path (projectPathOf (lit "demo"))) = Some [] /\
  last (trace (final (updateRemoteEnv node_ssh (projectPathOf (lit "demo"))
                        (lit "FOO") (lit "3")
                        (mkState (mkHost true true None
                                    [(lit "/var/www/demo/", [])] silent) []))))
       (EvOut MError) = EvOut (MUpdated (lit "FOO")).
Proof.
  apply (updateRemoteEnv_missing_file
           (mkHost true true None [(lit "/var/www/demo/", [])] silent)
           (lit "demo") (lit "FOO") (lit "3") []).
  - split; reflexivity.
  - reflexivity.
  - reflexivity.
  - reflexivity.
  - reflexivity.
  - reflexivity.
Defined.

(** *** The files a command line can touch *)

Lemma grep_store (invert : bool) (p file : str) (fs fs' : Sh.store) (r : CommandResult) :
  Sh.grep invert p file fs = Some (r, fs') -> fs' = fs.
Proof.
  unfold Sh.grep. destruct (Sh.pattern p); [|discriminate].
  destruct (Sh.canonical file && negb (Sh.is_dir fs (resolve file))); [|discriminate].
  destruct (Sh.read fs file) as [content|];
    [destruct (Sh.is_text content); [|discriminate]|]; intros E; now inversion E.
Qed.

(** A redirection to one of the two files, around a utility that leaves the
    store as it is. *)
Lemma run_redirected_agree (path : str) (args : list str) (append : bool) (file : str)
    (fs fs' : Sh.store) (r : CommandResult) :
  file = tmp_path path \/ file = env_path path ->
  (forall fs0 r0 fs1, Sh.utility args fs0 = Some (r0, fs1) -> fs1 = fs0) ->
  Sh.run_simple (Sh.mkSimple args (Some (append, file))) fs = Some (r, fs') ->
  agree_off path fs fs'.
Proof.
  intros Hfile Hu. unfold Sh.run_simple. cbn [Sh.redir Sh.argv].
  destruct (Sh.place fs file); [|discriminate].
  destruct (Sh.utility args _) as [[r1 fs1]|] eqn:E; [|discriminate].
  apply Hu in E. subst fs1. intros E. inversion E. subst r fs'. clear E.
  destruct Hfile as [-> | ->].
  - eapply agree_off_trans; apply agree_off_write_tmp.
  - eapply agree_off_trans; apply agree_off_write_env.
Qed.

Lemma run_rename_agree (path : str) (fs fs' : Sh.store) (r : CommandResult) :
  Sh.run_simple (Sh.mkSimple [lit "mv"; tmp_path path; env_path path] None) fs
    = Some (r, fs') ->
  agree_off path fs fs'.
Proof.
  unfold Sh.run_simple. cbn [Sh.redir Sh.argv]. rewrite utility_mv.
  destruct (_ && _); [|discriminate].
  destruct (Sh.read fs (tmp_path path)); intros E; inversion E.
  - eapply agree_off_trans; [apply agree_off_remove_tmp|apply agree_off_write_env].
  - apply agree_off_refl.
Qed.

Lemma utility_grep_v_store (p file : str) (fs0 fs1 : Sh.store) (r0 : CommandResult) :
  Sh.utility [lit "grep"; lit "-v"; p; file] fs0 = Some (r0, fs1) -> fs1 = fs0.
Proof.
  rewrite utility_grep_v. destruct (Sh.is_option p); [discriminate|apply grep_store].
Qed.

Lemma utility_echo_store (w : str) (fs0 fs1 : Sh.store) (r0 : CommandResult) :
  Sh.utility [lit "echo"; w] fs0 = Some (r0, fs1) -> fs1 = fs0.
Proof.
  rewrite utility_echo. destruct (_ || _); [discriminate|]. intros E. now inversion E.
Qed.

(** The update command, whatever comes of it, leaves the other files. *)
Lemma run_safeUpdateCmd_agree (path key line : str) (fs fs' : Sh.store)
    (r : CommandResult) :
  forallb Sh.plain path = true -> path <> [] -> test key_re key = true ->
  Sh.run (safeUpdateCmdOf path key (escapeShellArg line)) fs = Some (r, fs') ->
  agree_off path fs fs'.
Proof.
  intros Hp Hp0 Hk. destruct (valid_key_chars key Hk) as (Hk1 & _).
  unfold Sh.run. rewrite lex_safeUpdateCmd by assumption.
  cbn [Sh.parse Sh.no_args Sh.argv Sh.redir app].
  fold (tmp_path path). fold (env_path path).
  destruct (Sh.run_simple _ fs) as [[r1 fs1]|] eqn:E1; [|discriminate].
  apply (run_redirected_agree path) in E1;
    [|now left|intros ? ? ?; apply utility_grep_v_store].
  cbn [Sh.run_rest]. destruct (Nat.eqb (code r1) 0).
  - destruct (Sh.run_simple _ fs1) as [[r2 fs2]|] eqn:E2; [|discriminate].
    apply (run_redirected_agree path) in E2;
      [|now left|intros ? ? ?; apply utility_echo_store].
    cbn [code]. destruct (Nat.eqb (code r2) 0).
    + destruct (Sh.run_simple _ fs2) as [[r3 fs3]|] eqn:E3; [|discriminate].
      apply run_rename_agree in E3. intros E. inversion E. subst fs'.
      eapply agree_off_trans; [|exact E3]. eapply agree_off_trans; eassumption.
    + intros E. inversion E. subst fs'. eapply agree_off_trans; eassumption.
  - intros E. inversion E. now subst fs'.
Qed.

Lemma run_appendCmd_agree (path line : str) (fs fs' : Sh.store) (r : CommandResult) :
  forallb Sh.plain path = true -> path <> [] ->
  Sh.run (appendCmdOf path (escapeShellArg line)) fs = Some (r, fs') ->
  agree_off path fs fs'.
Proof.
  intros Hp Hp0. unfold Sh.run. rewrite lex_appendCmd by assumption.
  cbn [Sh.parse Sh.no_args Sh.argv Sh.redir app]. fold (env_path path).
  destruct (Sh.run_simple _ fs) as [[r1 fs1]|] eqn:E1; [|discriminate].
  apply (run_redirected_agree path) in E1;
    [|now right|intros ? ? ?; apply utility_echo_store].
  cbn [Sh.run_rest]. intros E. inversion E. now subst fs'.
Qed.

(** A command over the session, answered or rejected. *)
Lemma host_exec_agree (path : str) (h : Host) (cmd : str) (cwd : option str) :
  (forall r fs', Sh.run cmd (files h) = Some (r, fs') -> agree_off path (files h) fs') ->
  agree_off path (files h) (files (snd (host_execCommand h cmd cwd))).
Proof.
  intros H. unfold host_execCommand, host_run.
  destruct (connected h && _); [|apply agree_off_refl].
  destruct (Sh.is_text cmd); [|apply agree_off_refl].
  destruct (Sh.run cmd (files h)) as [[r fs']|] eqn:E; [|apply agree_off_refl].
  cbn [snd files]. now apply (H r).
Qed.

(** X22: whatever the state of the session, the key and the value, the
    mutator touches two files of the host, the [.env] of the project and
    its [.env.tmp]: every file whose path resolves to another place is as it
    was. *)
Theorem updateRemoteEnv_other_files_untouched (h : Host) (p key value g : str)
    (t : list Event) :
  isValidProjectName p = true ->
  Sh.same_path (env_path (projectPathOf p)) g = false ->
  Sh.same_path (tmp_path (projectPathOf p)) g = false ->
  Sh.read (files (world (final (updateRemoteEnv node_ssh (projectPathOf p) key value
                                  (mkState h t))))) g =
  Sh.read (files h) g.
Proof.
  intros Hp Hge Hgt. destruct (valid_project_path p Hp) as (Hpl & Hp0 & _).
  revert g Hge Hgt. change (agree_off (projectPathOf p) (files h)
    (files (world (final (updateRemoteEnv node_ssh (projectPathOf p) key value
                            (mkState h t)))))).
  unfold updateRemoteEnv. destruct (test key_re key) eqn:Hk; cbn [negb];
    [|apply agree_off_refl].
  pose proof (host_exec_agree (projectPathOf p) h (checkCmdOf (projectPathOf p) key) None)
    as H1.
  unfold try_catch, bind, ssh_execCommand, runCommand, try_catch, bind, ssh_execCommand.
  cbn [execCommand node_ssh world trace].
  destruct (host_execCommand h (checkCmdOf (projectPathOf p) key) None) as [r1 h1].
  cbn [snd] in H1.
  assert (A1 : agree_off (projectPathOf p) (files h) (files h1)).
  { apply H1. intros r fs' E. apply run_checkCmd in E; try assumption. subst fs'.
    apply agree_off_refl. }
  clear H1.
  assert (Hupd : forall h0 : Host,
             agree_off (projectPathOf p) (files h0)
               (files (snd (host_execCommand h0
                              (safeUpdateCmdOf (projectPathOf p) key
                                 (escapeShellArg (key ++ lit "=" ++ value)))
                              (Some (projectPathOf p)))))).
  { intros h0. apply host_exec_agree. intros r fs'. now apply run_safeUpdateCmd_agree. }
  assert (Happ : forall h0 : Host,
             agree_off (projectPathOf p) (files h0)
               (files (snd (host_execCommand h0
                              (appendCmdOf (projectPathOf p)
                                 (escapeShellArg (key ++ lit "=" ++ value)))
                              (Some (projectPathOf p)))))).
  { intros h0. apply host_exec_agree. intros r fs'. now apply run_appendCmd_agree. }
  destruct r1 as [r1|]; cbn [world trace].
  - specialize (Hupd h1).
    destruct (host_execCommand h1 _ (Some (projectPathOf p))) as [r2 h2].
    cbn [snd] in Hupd. pose proof (agree_off_trans _ _ _ _ A1 Hupd) as A2.
    destruct r2 as [[c2 o2 [|x e2]]|];
      cbn [truthy when stderr stdout out emit ret bind world trace final throw];
      try exact A2.
    specialize (Happ h2).
    destruct (host_execCommand h2 _ (Some (projectPathOf p))) as [r3 h3].
    cbn [snd] in Happ. pose proof (agree_off_trans _ _ _ _ A2 Happ) as A3.
    destruct r3 as [[c3 o3 [|y e3]]|];
      cbn [truthy when stderr stdout out emit ret bind world trace final throw];
      exact A3.
  - specialize (Happ h1).
    destruct (host_execCommand h1 _ (Some (projectPathOf p))) as [r3 h3].
    cbn [snd] in Happ. pose proof (agree_off_trans _ _ _ _ A1 Happ) as A3.
    destruct r3 as [[c3 o3 [|y e3]]|];
      cbn [truthy when stderr stdout out emit ret bind world trace final throw];
      exact A3.
Qed.

Lemma updateRemoteEnv_other_files_untouched_witness :
  Sh.read [(demo_env_file, line "FOO=1" ++ line "BAR=2");
           (lit "/var/www/shop/.env", line "FOO=7")]
          (lit "/var/www/demo/../shop/.env") = Some (line "FOO=7") /\
  Sh.read (files (world (final
             (updateRemoteEnv node_ssh (projectPathOf (lit "demo")) (lit "FOO") (lit "3")
                (mkState (mkHost true true None
                            [(demo_env_file, line "FOO=1" ++ line "BAR=2");
                             (lit "/var/www/shop/.env", line "FOO=7")] silent) [])))))
          (lit "/var/www/demo/../shop/.env") =
  Sh.read (files (mkHost true true None
                    [(demo_env_file, line "FOO=1" ++ line "BAR=2");
                     (lit "/var/www/shop/.env", line "FOO=7")] silent))
          (lit "/var/www/demo/../shop/.env").
Proof.
  split; [reflexivity|].
  apply (updateRemoteEnv_other_files_untouched
           (mkHost true true None
              [(demo_env_file, line "FOO=1" ++ line "BAR=2");
               (lit "/var/www/shop/.env", line "FOO=7")] silent)
           (lit "demo") (lit "FOO") (lit "3") (lit "/var/www/demo/../shop/.env") []).
  - reflexivity.
  - reflexivity.
  - reflexivity.
Defined.

(** ** The menu and the framework block *)

(** X23: the menu offers the framework actions only for the name [nestjs]
    written in small letters, while the framework block compares the name
    in small letters: for a name such as [NestJS] the menu has the two
    general entries only, and the framework block still submits
    [npx prisma generate], and [yarn build] once that is answered. *)
Theorem menu_case_sensitive (W : Type) (ssh : NodeSSH W) (f path : str) (s : State W) :
  toLowerCase f = lit "nestjs" -> f <> lit "nestjs" ->
  menu (Some f) = [lit "Update .env"; lit "Continue Deployment"] /\
  exists l,
    trace (final (frameworkTasks ssh (Some f) path s)) =
    trace s ++ EvOut (MHandling f) :: EvOut (MPrismaFor f) ::
               EvExec (lit "npx prisma generate") (Some path) :: l /\
    (fst (execCommand ssh (world s) (lit "npx prisma generate") (Some path)) <> None ->
     In (EvExec (lit "yarn build") (Some path)) l).
Proof.
  intros Hl Hf. split.
  - unfold menu. now rewrite (str_eqb_neq _ _ Hf).
  - assert (Hne : f <> []) by (intros ->; discriminate Hl).
    destruct f as [|c f']; [now contradiction Hne|].
    unfold frameworkTasks. cbn [truthy when]. rewrite Hl.
    change (str_eqb (lit "nestjs") (lit "nestjs")) with true. cbn [orb when].
    unfold runCommand, try_catch, bind, ssh_execCommand, out, emit. cbn [world trace].
    destruct (execCommand ssh (world s) _ (Some path)) as [[[rc ro [|x e]]|] w1];
      cbn [fst truthy when stderr stdout ret throw world trace].
    + destruct (execCommand ssh w1 _ (Some path)) as [[[rc' ro' [|x' e']]|] w2];
        cbn [truthy when stderr stdout ret throw world trace final];
        rewrite <- !app_assoc; cbn [app]; eexists; (split; [reflexivity|]);
        intros _; cbn; tauto.
    + destruct (execCommand ssh w1 _ (Some path)) as [[[rc' ro' [|x' e']]|] w2];
        cbn [truthy when stderr stdout ret throw world trace final];
        rewrite <- !app_assoc; cbn [app]; eexists; (split; [reflexivity|]);
        intros _; cbn; tauto.
    + cbn [final trace]. rewrite <- !app_assoc. cbn [app]. eexists.
      split; [reflexivity|]. intros H. now contradiction H.
Qed.

Lemma menu_case_sensitive_witness :
  menu (Some (lit "NestJS")) = [lit "Update .env"; lit "Continue Deployment"] /\
  exists l,
    trace (final (frameworkTasks node_ssh (Some (lit "NestJS")) demo_path
                    (mkState (session []) []))) =
    trace (mkState (session []) []) ++
      EvOut (MHandling (lit "NestJS")) :: EvOut (MPrismaFor (lit "NestJS")) ::
      EvExec (lit "npx prisma generate") (Some demo_path) :: l /\
    (fst (execCommand node_ssh (world (mkState (session []) []))
            (lit "npx prisma generate") (Some demo_path)) <> None ->
     In (EvExec (lit "yarn build") (Some demo_path)) l).
Proof.
  apply (menu_case_sensitive Host node_ssh (lit "NestJS") demo_path (mkState (session []) [])).
  - reflexivity.
  - discriminate.
Defined.


(** X24: the interactive loop over a session that answers every command: the
    menu is shown once for each answer up to and including the first one
    that is not among the four actions; the commands are those of the
    answers before that one, in order; the loop returns when there is
    such an answer and waits at the menu when there is none. *)
Theorem interactive_loop_rounds (W : Type) (ssh : NodeSSH W) (projectPath : str)
    (choices : list str) (script : list Step) (s : State W) :
  (forall w c d, fst (execCommand ssh w c d) <> None) ->
  prompts (trace (final (interactiveLoop ssh projectPath choices script s))) =
    prompts (trace s) + S (rounds script) /\
  commands (trace (final (interactiveLoop ssh projectPath choices script s))) =
    commands (trace s) ++
    flat_map (roundCommands projectPath) (firstn (rounds script) script) /\
  returned (interactiveLoop ssh projectPath choices script s) =
    (rounds script <? List.length script).
Proof. intros Ha. now apply loop_rounds. Qed.

Lemma interactive_loop_rounds_witness :
  prompts (trace (final (interactiveLoop (mock_ssh silent) demo_path
                           (menu (Some (lit "nestjs"))) three_answers (mkState tt [])))) =
    prompts (trace (mkState tt [])) + S (rounds three_answers) /\
  commands (trace (final (interactiveLoop (mock_ssh silent) demo_path
                            (menu (Some (lit "nestjs"))) three_answers (mkState tt [])))) =
    commands (trace (mkState tt [])) ++
    flat_map (roundCommands demo_path) (firstn (rounds three_answers) three_answers) /\
  returned (interactiveLoop (mock_ssh silent) demo_path
              (menu (Some (lit "nestjs"))) three_answers (mkState tt [])) =
    (rounds three_answers <? List.length three_answers).
Proof.
  apply (interactive_loop_rounds unit (mock_ssh silent) demo_path
           (menu (Some (lit "nestjs"))) three_answers (mkState tt [])).
  intros; discriminate.
Defined.

(** X25: an interactive run that passes the checks, over a session that
    accepts the connection and answers every command, with a user who ends
    the loop: the commands are those of a scripted run, with the commands
    of the user's answers between the pull and the commands of the
    framework block, which follow them whatever the user has run. *)
Theorem interactive_run_commands (W : Type) (ssh : NodeSSH W) (env : Env)
    (options : Options) (script : list Step) (w : W) (p : str) :
  (forall w h u k, fst (connect ssh w h u k) = true) ->
  (forall w c d, fst (execCommand ssh w c d) <> None) ->
  chosenProject env options = Some p -> isValidProjectName p = true ->
  truthy (SSH_HOST env) = true -> truthy (SSH_KEY_PATH env) = true ->
  yes options = false -> rounds script < List.length script ->
  exit_status (deploy ssh env options script (mkState w [])) = Some 0 /\
  existsb is_success (trace (final (deploy ssh env options script (mkState w [])))) = true /\
  exists add,
    (add = [] \/
     add = [lit "git config --global --add safe.directory " ++ projectPathOf p]) /\
    commands (trace (final (deploy ssh env options script (mkState w [])))) =
      [lit "whoami"; lit "sudo -i"; lit "git config --global --get-all safe.directory"] ++
      add ++
      [lit "sudo chown -R $(whoami) " ++ projectPathOf p; lit "git pull origin staging"] ++
      flat_map (roundCommands (projectPathOf p)) (firstn (rounds script) script) ++
      frameworkCommands (framework options) ++
      [lit "pm2 restart " ++ p ++ lit " || pm2 restart index"].
Proof.
  intros Hc Ha Hp Hv Hh Hk Hyes Hend.
  pose proof (deploy_outcome W ssh env options script w) as H.
  rewrite Hp in H. destruct H as (l & Hl & ->). rewrite Hv, Hh, Hk. cbn [negb orb].
  unfold guarded, try_finally, try_catch, ssh_dispose.
  match goal with
  | |- context [deployBody ssh env options script p ?h ?u ?k ?s] =>
      pose proof (deployBody_report W ssh env options script p h u k s) as Hb;
      destruct (deployBody_answered W ssh Hc Ha env options script p h u k s
                  (or_intror Hend))
        as (s' & add & E & Hadd & Ecs)
  end.
  rewrite Hyes in Ecs.
  rewrite E in *. cbn [exit_status final trace]. split; [reflexivity|]. split.
  - destruct Hb as (l0 & l1 & -> & _). rewrite !existsb_app. cbn.
    now rewrite !orb_true_r.
  - exists add. split; [exact Hadd|].
    rewrite commands_quiet_tail by reflexivity. rewrite Ecs. cbn [trace].
    rewrite commands_quiet_tail by reflexivity.
    replace (commands l) with (@nil str); [reflexivity|].
    destruct Hl as [->|[r ->]]; reflexivity.
Qed.

Lemma interactive_run_commands_witness :
  exit_status (deploy (mock_ssh silent) demo_env (demo_options "demo" false) three_answers
                 (mkState tt [])) = Some 0 /\
  existsb is_success
    (trace (final (deploy (mock_ssh silent) demo_env (demo_options "demo" false)
                     three_answers (mkState tt [])))) = true /\
  exists add,
    (add = [] \/
     add = [lit "git config --global --add safe.directory " ++ projectPathOf (lit "demo")]) /\
    commands (trace (final (deploy (mock_ssh silent) demo_env (demo_options "demo" false)
                              three_answers (mkState tt [])))) =
      [lit "whoami"; lit "sudo -i"; lit "git config --global --get-all safe.directory"] ++
      add ++
      [lit "sudo chown -R $(whoami) " ++ projectPathOf (lit "demo");
       lit "git pull origin staging"] ++
      flat_map (roundCommands (projectPathOf (lit "demo")))
        (firstn (rounds three_answers) three_answers) ++
      frameworkCommands (framework (demo_options "demo" false)) ++
      [lit "pm2 restart " ++ lit "demo" ++ lit " || pm2 restart index"].
Proof.
  apply (interactive_run_commands unit (mock_ssh silent) demo_env
           (demo_options "demo" false) three_answers tt (lit "demo")).
  - intros; reflexivity.
  - intros; discriminate.
  - reflexivity.
  - reflexivity.
  - reflexivity.
  - reflexivity.
  - reflexivity.
  - vm_compute. lia.
Defined.

(** ** What precedes the report of a failure *)

Section Loud.

Variable W : Type.
Variable ssh : NodeSSH W.

Lemma loud_ret {A} (a : A) : loud (ret (W:=W) a).
Proof.
  intros s. split; [exists []; cbn; now rewrite app_nil_r|]. discriminate.
Qed.

Lemma loud_emit (e : Event) : loud (emit (W:=W) e).
Proof. intros s. split; [now exists [e]|]. discriminate. Qed.

Lemma loud_wait {A} : loud (wait (W:=W) (A:=A)).
Proof.
  intros s. split; [exists []; cbn; now rewrite app_nil_r|]. discriminate.
Qed.

Lemma loud_bind {A B} (m : M W A) (k : A -> M W B) :
  loud m -> (forall a, loud (k a)) -> loud (bind m k).
Proof.
  intros Hm Hk s. unfold bind. destruct (Hm s) as [[l El] Ht].
  destruct (m s) as [a s1|s1|n s1|s1]; cbn [final] in El.
  - destruct (Hk a s1) as [[l' El'] Ht']. split.
    + exists (l ++ l'). now rewrite El', El, app_assoc.
    + intros s' E. destruct (Ht' s' E) as (l2 & e & E2 & He).
      exists (l ++ l2), e. now rewrite E2, El, <- !app_assoc.
  - split; [now exists l|]. intros s' E. injection E as <-. now apply Ht.
  - split; [now exists l|]. discriminate.
  - split; [now exists l|]. discriminate.
Qed.

Lemma loud_when (b : bool) (m : M W unit) : loud m -> loud (when b m).
Proof. destruct b; [trivial|]. intros _. apply loud_ret. Qed.

(** A handler that reports and throws again makes the block loud,
    whatever the block throws for. *)
Lemma loud_try_catch {A} (m h : M W A) :
  keeps any_event true true m -> loud h -> loud (try_catch m h).
Proof.
  intros Hm Hh s. unfold try_catch. destruct (Hm s) as [[l [El _]] _].
  destruct (m s) as [a s1|s1|n s1|s1]; cbn [final] in El.
  - split; [now exists l|]. discriminate.
  - destruct (Hh s1) as [[l' El'] Ht']. split.
    + exists (l ++ l'). now rewrite El', El, app_assoc.
    + intros s' E. destruct (Ht' s' E) as (l2 & e & E2 & He).
      exists (l ++ l2), e. now rewrite E2, El, <- !app_assoc.
  - split; [now exists l|]. discriminate.
  - split; [now exists l|]. discriminate.
Qed.

Lemma loud_report (m : Msg) :
  is_rejection (EvOut m) = true ->
  loud (bind (out (W:=W) m) (fun _ => throw (A:=unit))) /\
  loud (bind (out (W:=W) m) (fun _ => throw (A:=CommandResult))).
Proof.
  intros He. split; intros s; (split; [now exists [EvOut m]|]);
    intros s' E; injection E as <-; now exists [], (EvOut m).
Qed.

Lemma loud_connectToServer (host username privateKeyPath : str) :
  loud (connectToServer ssh host username privateKeyPath).
Proof.
  unfold connectToServer. apply loud_try_catch; [keeps_tac|].
  now apply loud_report.
Qed.

Lemma loud_runCommand (cmd : str) (cwd : option str) : loud (runCommand ssh cmd cwd).
Proof.
  unfold runCommand. apply loud_try_catch; [keeps_tac|].
  now apply loud_report.
Qed.

Lemma loud_updateRemoteEnv (projectPath key value : str) :
  loud (updateRemoteEnv ssh projectPath key value).
Proof.
  unfold updateRemoteEnv. destruct (negb (test key_re key)); [apply loud_emit|].
  apply loud_try_catch; [keeps_tac|].
  apply loud_bind; [apply loud_runCommand|intros _; apply loud_emit].
Qed.

Lemma loud_never (m : M W unit) :
  keeps any_event true true m -> loud (try_catch m (ret tt)).
Proof. intros Hm. apply loud_try_catch; [exact Hm|apply loud_ret]. Qed.

Ltac loud_tac :=
  repeat first
    [ apply loud_bind; [|intros ?]
    | apply loud_when
    | apply loud_ret
    | apply loud_emit
    | apply loud_wait
    | apply loud_runCommand
    | apply loud_connectToServer
    | apply loud_updateRemoteEnv
    | match goal with
      | |- loud (if ?b then _ else _) => destruct b
      | |- loud (match ?x with Some _ => _ | None => _ end) => destruct x
      end ].

Lemma loud_interactiveLoop (projectPath : str) (choices : list str) (script : list Step) :
  loud (interactiveLoop ssh projectPath choices script).
Proof.
  induction script as [|st rest IH]; cbn [interactiveLoop]; unfold out; loud_tac;
    exact IH.
Qed.

Lemma loud_deployBody (env : Env) (options : Options) (script : list Step)
    (project host username privateKeyPath : str) :
  loud (deployBody ssh env options script project host username privateKeyPath).
Proof.
  unfold deployBody, beforeTasks, afterTasks, connectPhase, preparePhase, pullPhase,
    interactiveMode, frameworkTasks, restartPhase, summaryPhase,
    generateDeploymentSummary, out.
  loud_tac; try (apply loud_never; keeps_tac).
  apply loud_interactiveLoop.
Qed.

End Loud.

(** X26: a run reports a failure only right after the line of a rejected
    connection or of a rejected command, and after the report it only
    prints the error and disposes of the session. *)
Theorem failure_follows_a_rejection (W : Type) (ssh : NodeSSH W) (env : Env)
    (options : Options) (script : list Step) (w : W) :
  existsb is_failure (trace (final (deploy ssh env options script (mkState w [])))) = true ->
  exists l e,
    trace (final (deploy ssh env options script (mkState w []))) =
      l ++ [e; EvOut MDeploymentFailed; EvOut MError; EvDispose] /\
    is_rejection e = true /\ existsb is_failure l = false.
Proof.
  pose proof (deploy_outcome W ssh env options script w) as H.
  destruct (chosenProject env options) as [p|].
  2: { rewrite H. discriminate. }
  destruct H as (l & Hl & ->).
  apply check_output_quiet, quiet_forallb in Hl as (_ & Hf & _).
  destruct (isValidProjectName p); cbn [negb].
  2: { cbn [final trace]. rewrite existsb_app, Hf. discriminate. }
  destruct (truthy (SSH_HOST env)); cbn [negb orb].
  2: { cbn [final trace]. rewrite existsb_app, Hf. discriminate. }
  destruct (truthy (SSH_KEY_PATH env)); cbn [negb orb].
  2: { cbn [final trace]. rewrite existsb_app, Hf. discriminate. }
  unfold guarded, try_finally, try_catch, ssh_dispose, bind, out, emit.
  match goal with
  | |- context [deployBody ssh env options script p ?h ?u ?k ?s] =>
      pose proof (deployBody_report W ssh env options script p h u k s) as Hb;
      destruct (loud_deployBody W ssh env options script p h u k s) as [_ Ht];
      destruct (deployBody ssh env options script p h u k s) as [[] s1|s1|n s1|s1]
  end; cbn [final trace world] in *.
  - destruct Hb as (l0 & l1 & -> & H0 & H1).
    apply quiet_forallb in H0 as (_ & Hf0 & _).
    rewrite !existsb_app, Hf, Hf0. cbn [existsb is_failure orb].
    destruct H1 as [->|[->|(-> & _)]]; discriminate.
  - intros _. destruct Hb as (l0 & E0 & H0).
    destruct (Ht s1 eq_refl) as (l2 & e & E2 & He). exists (l ++ EvOut MConnecting :: l2), e.
    split; [|split; [exact He|]].
    + rewrite E2. cbn [trace]. rewrite <- !app_assoc. reflexivity.
    + rewrite E2 in E0. cbn [trace] in E0. apply app_inv_head in E0. subst l0.
      apply quiet_forallb in H0 as (_ & Hf0 & _).
      rewrite existsb_app in Hf0. apply orb_false_iff in Hf0 as [Hf0 _].
      rewrite existsb_app. cbn [existsb is_failure orb]. now rewrite Hf, Hf0.
  - contradiction.
  - destruct Hb as (l0 & -> & H0).
    apply quiet_forallb in H0 as (_ & Hf0 & _).
    rewrite !existsb_app, Hf, Hf0. discriminate.
Qed.

Lemma failure_follows_a_rejection_witness :
  exists l e,
    trace (final (deploy node_ssh demo_env (demo_options "demo" true) []
                    (mkState (staging false [] silent) []))) =
      l ++ [e; EvOut MDeploymentFailed; EvOut MError; EvDispose] /\
    is_rejection e = true /\ existsb is_failure l = false.
Proof.
  apply (failure_follows_a_rejection Host node_ssh demo_env (demo_options "demo" true) []
           (staging false [] silent)).
  reflexivity.
Defined.

(** ** The slug of a remote URL *)

(** X27: the slug of a remote URL that ends in [owner/repo] or
    [owner/repo.git], where the owner follows a slash, or follows a colon
    with no colon or slash before it: the resolver gives [owner/repo]. *)
Theorem getGitRepoInfo_slug (out pre owner repo git : str) (sep : ascii) :
  trailing_owner_repo (trim out) pre owner repo git sep ->
  sep = "/"%char \/ forallb (fun c => negb (colon_or_slash c)) pre = true ->
  (git = [] -> forall r, r <> [] -> repo <> r ++ lit ".git") ->
  getGitRepoInfo (Some out) = Some (owner ++ lit "/" ++ repo).
Proof.
  intros Ht Hpre Hrepo. pose proof Ht as (Eu & Hsep & Ho0 & Ho & Hr0 & Hr & Hg).
  unfold getGitRepoInfo, exec. rewrite Eu.
  rewrite search_skip.
  2: { intros p1 x p2 b Ep.
       destruct (run remote_re b (x :: p2 ++ sep :: owner ++ lit "/" ++ repo ++ git))
         as [|a l] eqn:E; [reflexivity|exfalso].
       assert (Hne : run remote_re b (x :: p2 ++ sep :: owner ++ lit "/" ++ repo ++ git) <> [])
         by (rewrite E; discriminate).
       apply remote_match_shape in Hne as (y & t & Es & Hy & Hc).
       injection Es as <- <-.
       destruct Hpre as [->|Hpre].
       - rewrite count_occ_app in Hc. cbn [count_occ] in Hc.
         destruct (ascii_dec "/" "/") as [_|N]; [|now contradiction N].
         rewrite count_occ_app in Hc. cbn [lit list_ascii_of_string app count_occ] in Hc.
         destruct (ascii_dec "/" "/") as [_|N]; [|now contradiction N]. lia.
       - rewrite Ep, forallb_app in Hpre. apply andb_true_iff in Hpre as [_ Hpre].
         cbn [forallb] in Hpre. rewrite Hy in Hpre. discriminate Hpre. }
  rewrite search_eq.
  destruct (run remote_re (true && is_nil pre) (sep :: owner ++ lit "/" ++ repo ++ git))
    as [|[[m rest] c] l] eqn:E.
  - exfalso.
    assert (Hin : In (sep :: owner ++ lit "/" ++ repo ++ git, [],
                      [Some owner; Some repo; if is_nil git then None else Some git])
                     (run remote_re (true && is_nil pre)
                        (sep :: owner ++ lit "/" ++ repo ++ git))).
    { apply run_remote_In. exists sep, owner, repo, git. repeat split; assumption. }
    rewrite E in Hin. contradiction.
  - assert (Hhd : hd_error (run remote_re (true && is_nil pre)
                              (sep :: owner ++ lit "/" ++ repo ++ git)) = Some (m, rest, c))
      by (now rewrite E).
    apply hd_remote in Hhd as (sep' & owner' & repo' & git' & Ht' & -> & Hmax).
    destruct Ht' as (Es & _ & _ & Ho' & Hr0' & Hr' & Hg').
    cbn [app] in Es. injection Es as <- Es.
    apply split_first_slash in Es as [<- Es]; [|assumption|assumption].
    cbn [group nth].
    assert (Er : repo' = repo).
    { destruct Hg as [->| ->], Hg' as [->| ->].
      - now rewrite !app_nil_r in Es.
      - rewrite app_nil_r in Es. now apply (Hrepo eq_refl repo' Hr0') in Es.
      - rewrite app_nil_r in Es. symmetry in Es. now apply (Hmax eq_refl repo Hr0) in Es.
      - now apply app_inv_tail in Es. }
    now rewrite Er.
Qed.

Lemma getGitRepoInfo_slug_witness :
  getGitRepoInfo (Some (line "https://gitlab.example.com/group/Acme/Widgets.git")) =
  Some (lit "Acme" ++ lit "/" ++ lit "Widgets").
Proof.
  apply (getGitRepoInfo_slug (line "https://gitlab.example.com/group/Acme/Widgets.git")
           (lit "https://gitlab.example.com/group") (lit "Acme") (lit "Widgets")
           (lit ".git") "/"%char).
  - repeat split; try reflexivity; try discriminate. now right.
  - now left.
  - discriminate.
Defined.

(** ** The value, byte for byte *)

(** X28: over an open session, for a valid project whose directory exists
    on the host and a valid key, when the remote [.env] is a text file with
    a line that does not start with [key=]: whatever a value of text
    without backslash holds, quotes, dollar signs and line feeds included,
    the file after [updateRemoteEnv] is the lines kept, each with its line
    feed, followed by [key=], the value as it is, and a line feed. *)
Theorem setEnvVar_value_verbatim (h : Host) (p key value content : str) (t : list Event) :
  open_session h ->
  isValidProjectName p = true -> test key_re key = true -> literal value = true ->
  project_files (files h) (projectPathOf p) = true ->
  Sh.read (files h) (env_path (projectPathOf p)) = Some content ->
  Sh.is_text content = true ->
  filter (without_key key) (Sh.lines content) <> [] ->
  env_after (projectPathOf p)
    (updateRemoteEnv node_ssh (projectPathOf p) key value (mkState h t)) =
  Some (Sh.unlines (filter (without_key key) (Sh.lines content))
          ++ key ++ lit "=" ++ value ++ [newline]).
Proof.
  intros Ho Hp Hk Hlit Hpf Hr Htext Hkeep.
  destruct (updateRemoteEnv_env_after h p key value content t Ho Hp Hk Hlit Hpf Hr Htext Hkeep)
    as (E & _).
  rewrite E, unlines_app. cbn [Sh.unlines flat_map].
  now rewrite app_nil_r, <- !app_assoc.
Qed.

Lemma setEnvVar_value_verbatim_witness :
  env_after (projectPathOf (lit "demo"))
    (updateRemoteEnv node_ssh (projectPathOf (lit "demo")) (lit "FOO")
       (lit "it's $HOME" ++ [newline] ++ lit "BAR=9")
       (mkState (session (line "FOO=1" ++ line "BAR=2")) [])) =
  Some (Sh.unlines (filter (without_key (lit "FOO"))
                      (Sh.lines (line "FOO=1" ++ line "BAR=2")))
          ++ lit "FOO" ++ lit "=" ++ (lit "it's $HOME" ++ [newline] ++ lit "BAR=9")
          ++ [newline]).
Proof.
  apply (setEnvVar_value_verbatim (session (line "FOO=1" ++ line "BAR=2"))
           (lit "demo") (lit "FOO") (lit "it's $HOME" ++ [newline] ++ lit "BAR=9")
           (line "FOO=1" ++ line "BAR=2") []).
  - split; reflexivity.
  - reflexivity.
  - reflexivity.
  - reflexivity.
  - reflexivity.
  - reflexivity.
  - reflexivity.
  - vm_compute. discriminate.
Defined.
